(** * Deterministic starfield generation: PRNG, Poisson-disk sampler, layers

    A shallow embedding of the TypeScript sources

      - [lib/random.ts]            (class [Mulberry32])
      - [lib/poisson.ts]           (class [PoissonSampler], [calculatePointCount])
      - [lib/space-paint.ts]       ([generateStarConfig], [generateSparkleConfig],
                                    [createNebulaPatch], [createNoiseTexture],
                                    [getDepthBrightness])
      - [components/SpaceCanvas.tsx] ([regenerate])

    Numbers.  A JavaScript [number] that the code keeps integral (a PRNG
    state word, a rounded coordinate, a grid index, a palette colour) is a
    [Z]; the 32-bit conversions of the bit operators are written out.  Every
    other [number] is a real: [Math.sqrt], [Math.cos], [Math.sin] and
    [Math.PI] are the functions of the real-number library, [Math.floor]
    and [Math.ceil] are [Zfloor] and [Zceil], and [Math.round] is
    [Zfloor (x + 1/2)].  Binary64 rounding error is not modelled; the one
    division of [next], a 32-bit word by 2^32, is exact in binary64.  The
    exception is [calculatePointCount], whose result turns on which side
    of a half a quotient falls: it is computed on binary64 numbers, with
    the operations of the machine. *)

From Stdlib Require Import ZArith List Permutation Bool Lia Reals Lra Psatz.
From Stdlib Require Floats.
Import ListNotations.

#[local] Open Scope Z_scope.

(** ** JavaScript number primitives *)

Module Js.

(** [ToInt32]: the conversion applied by [|], [^] and [Math.imul]. *)
Definition toInt32 (z : Z) : Z := (z + 2 ^ 31) mod 2 ^ 32 - 2 ^ 31.

(** [ToUint32]: the conversion applied by [>>>]. *)
Definition toUint32 (z : Z) : Z := z mod 2 ^ 32.

(** [a | b] *)
Definition bor (a b : Z) : Z := Z.lor (toInt32 a) (toInt32 b).

(** [a ^ b] *)
Definition bxor (a b : Z) : Z := Z.lxor (toInt32 a) (toInt32 b).

(** [a >>> n] *)
Definition ushr (a n : Z) : Z := Z.shiftr (toUint32 a) (n mod 32).

(** [Math.imul(a, b)] *)
Definition imul (a b : Z) : Z := toInt32 (toInt32 a * toInt32 b).

(** [Math.round], [Math.floor], [Math.ceil], [Math.max], [Math.min]. *)
Definition round (x : R) : Z := Zfloor (x + / 2).
Definition floor (x : R) : Z := Zfloor x.
Definition ceil (x : R) : Z := Zceil x.
Definition max (a b : R) : R := Rmax a b.
Definition min (a b : R) : R := Rmin a b.

(** A [number] as the machine holds it: a binary64 floating-point
    number. *)
Definition binary64 : Type := PrimFloat.float.

(** The binary64 number [m * 2^e], for a mantissa [m] of at most 53 bits
    and an exponent in range. *)
Definition number (m e : Z) : binary64 :=
  match m with
  | Z0 => PrimFloat.zero
  | Zpos p => FloatOps.SF2Prim (SpecFloat.S754_finite false p e)
  | Zneg p => FloatOps.SF2Prim (SpecFloat.S754_finite true p e)
  end.

(** The exact value of a finite binary64 number; [None] for NaN and the
    infinities. *)
Definition float_value (f : binary64) : option R :=
  match FloatOps.Prim2SF f with
  | SpecFloat.S754_zero _ => Some 0%R
  | SpecFloat.S754_finite s m e =>
      let n := if s then Z.neg m else Z.pos m in
      Some (if 0 <=? e then IZR (n * 2 ^ e) else (IZR n / IZR (2 ^ (- e)))%R)
  | _ => None
  end.

(** [Math.round] of a binary64 number: the rounding of its exact value;
    [None] when the result is NaN or infinite. *)
Definition round64 (f : binary64) : option Z := option_map round (float_value f).

(** [a < b] on numbers, as a boolean. *)
Definition ltb (a b : R) : bool := if Rlt_dec a b then true else false.

(** [a >= b] on numbers, as a boolean. *)
Definition geb (a b : R) : bool := if Rle_dec b a then true else false.

(** Exceptions the engine raises in the modelled code. *)
Inductive error : Type :=
| RangeError   (* [Array(n)] with [n] not a valid length *)
| TypeError.   (* property access on [undefined] *)

(** The outcome of a call that may throw. *)
Inductive result (A : Type) : Type :=
| Ok (a : A)
| Throw (e : error).
Arguments Ok {A} a.
Arguments Throw {A} e.

End Js.

(** ** [lib/random.ts]: the Mulberry32 generator *)

Module Random.

(** The object's only field, [state].  The constructor stores the seed as
    given; [next] converts it to 32 bits on its first line.  Seeds are
    integers of any size and sign here: [state |= 0] maps every other
    number to the state an integer seed gives (it drops the fraction, and
    sends NaN to 0). *)
Definition Mulberry32 : Type := Z.

(** A method of [Mulberry32] that returns an [A]: it receives the state
    word and returns the result with the updated word. *)
Definition Rand (A : Type) : Type := Mulberry32 -> A * Mulberry32.

Definition ret {A} (a : A) : Rand A := fun s => (a, s).

Definition bind {A B} (m : Rand A) (k : A -> Rand B) : Rand B :=
  fun s => let (a, s') := m s in k a s'.

Declare Scope rand_scope.
Delimit Scope rand_scope with rand.
Notation "x <- m ;; k" := (bind m (fun x => k))
  (at level 61, m at next level, right associativity) : rand_scope.
#[local] Open Scope rand_scope.

(** [new Mulberry32(seed)] / [createRandom(seed)] *)
Definition createRandom (seed : Z) : Mulberry32 := seed.

(** [DEFAULT_SEED] *)
Definition DEFAULT_SEED : Z := 1337.

(** The first two statements of [next]:
      [this.state |= 0; this.state = (this.state + 0x6d2b79f5) | 0;] *)
Definition advance (state : Z) : Z :=
  let state := Js.bor state 0 in
  Js.bor (state + 0x6d2b79f5) 0.

(** The rest of [next], up to the final division: the 32-bit word that is
    divided by 2^32. *)
Definition temper (state : Z) : Z :=
  let t := Js.imul (Js.bxor state (Js.ushr state 15)) (Js.bor 1 state) in
  let t := Js.bxor (t + Js.imul (Js.bxor t (Js.ushr t 7)) (Js.bor 61 t)) t in
  Js.ushr (Js.bxor t (Js.ushr t 14)) 0.

(** [next()] *)
Definition next : Rand R :=
  fun state =>
    let state := advance state in
    ((IZR (temper state) / 4294967296)%R, state).

(** [nextInt(min, max)] *)
Definition nextInt (min max : Z) : Rand Z :=
  u <- next ;;
  ret (Js.floor (u * IZR (max - min)) + min).

(** [nextFloat(min, max)] *)
Definition nextFloat (min max : R) : Rand R :=
  u <- next ;;
  ret (u * (max - min) + min)%R.

(** [nextBoolean()] *)
Definition nextBoolean : Rand bool :=
  u <- next ;;
  ret (Js.ltb u (1 / 2)).

(** [choice(array)]; an empty array gives [undefined]. *)
Definition choice {T} (array : list T) : Rand (option T) :=
  i <- nextInt 0 (Z.of_nat (length array)) ;;
  ret (nth_error array (Z.to_nat i)).

(** The object [{x, y}] returned by [pointInCircle] and [pointInRect]. *)
Record Vec : Type := mkVec { vx : R; vy : R }.

(** [pointInCircle(radius)] *)
Definition pointInCircle (radius : R) : Rand Vec :=
  angle <- nextFloat 0 (PI * 2) ;;
  u <- next ;;
  let r := (sqrt u * radius)%R in
  ret {| vx := (cos angle * r)%R; vy := (sin angle * r)%R |}.

(** [pointInRect(width, height)] *)
Definition pointInRect (width height : R) : Rand Vec :=
  x <- nextFloat 0 width ;;
  y <- nextFloat 0 height ;;
  ret {| vx := x; vy := y |}.

(** [array[i] = v] for an index inside the array. *)
Fixpoint array_set {T} (array : list T) (i : nat) (v : T) : list T :=
  match array, i with
  | [], _ => []
  | _ :: rest, O => v :: rest
  | a :: rest, S i' => a :: array_set rest i' v
  end.

(** [[array[i], array[j]] = [array[j], array[i]]]: both elements are read,
    then [array[i]] and [array[j]] are written, in that order.  [shuffle]
    calls it with [j <= i < array.length] only. *)
Definition swap {T} (array : list T) (i j : nat) : list T :=
  match nth_error array i, nth_error array j with
  | Some a, Some b => array_set (array_set array i b) j a
  | _, _ => array
  end.

(** The loop of [shuffle] from index [i] down to 1. *)
Fixpoint shuffle_from {T} (i : nat) (array : list T) : Rand (list T) :=
  match i with
  | O => ret array
  | S i' =>
      j <- nextInt 0 (Z.of_nat i + 1) ;;
      shuffle_from i' (swap array i (Z.to_nat j))
  end.

(** [shuffle(array)] *)
Definition shuffle {T} (array : list T) : Rand (list T) :=
  shuffle_from (length array - 1) array.

(** The state word after [n] calls of [next]. *)
Fixpoint after (n : nat) (state : Mulberry32) : Mulberry32 :=
  match n with
  | O => state
  | S n' => after n' (snd (next state))
  end.

(** The number returned by the call of [next] that follows [n] earlier
    calls. *)
Definition draw (state : Mulberry32) (n : nat) : R := fst (next (after n state)).

End Random.

(** ** [lib/poisson.ts]: Poisson-disk sampling *)

Module Poisson.

Import Random.
#[local] Open Scope rand_scope.

(** [interface Point].  Every [Point] the sampler builds has both
    coordinates passed through [Math.round], so they are integers. *)
Record Point : Type := mkPoint { x : Z; y : Z }.

(** [interface PoissonConfig]; the two optional fields are [None] when
    the caller leaves them out. *)
Record PoissonConfig : Type := mkConfig {
  width : R;
  height : R;
  minDistance : R;
  maxAttempts : option R;
  centerBias : option R
}.

(** The fields of [class PoissonSampler].  [grid] is the array of row
    arrays, read as [grid row column]; [None] is a cell holding [null] or
    an index that was never written.  Which rows exist is recorded by
    [gridHeight], the length the outer array was created with. *)
Record PoissonSampler : Type := mkSampler {
  rng : Mulberry32;
  grid : Z -> Z -> option Point;
  cellSize : R;
  gridWidth : Z;
  gridHeight : Z;
  activeList : list Point
}.

Definition set_rng (s : PoissonSampler) (r : Mulberry32) : PoissonSampler :=
  mkSampler r (grid s) (cellSize s) (gridWidth s) (gridHeight s) (activeList s).

Definition set_activeList (s : PoissonSampler) (l : list Point) : PoissonSampler :=
  mkSampler (rng s) (grid s) (cellSize s) (gridWidth s) (gridHeight s) l.

(** [this.grid[gy][gx] = p] on an existing row [gy]. *)
Definition set_grid (s : PoissonSampler) (gy gx : Z) (p : Point) : PoissonSampler :=
  mkSampler (rng s)
    (fun r c => if (r =? gy) && (c =? gx) then Some p else grid s r c)
    (cellSize s) (gridWidth s) (gridHeight s) (activeList s).

(** Runs a method of the generator held in [this.rng]. *)
Definition with_rng {A} (m : Rand A) (s : PoissonSampler) : A * PoissonSampler :=
  let (a, r) := m (rng s) in (a, set_rng s r).

(** [generateRandomPoint(width, height, centerBias)] *)
Definition generateRandomPoint (width height centerBias : R) : Rand Point :=
  fun r0 =>
    let (biased, r1) :=
      if Js.ltb 0 centerBias
      then (u <- next ;; ret (Js.ltb u centerBias)) r0
      else (false, r0) in
    if biased then
      let centerX := (width / 2)%R in
      let centerY := (height / 2)%R in
      let radius := (Js.min width height * (3 / 10))%R in
      (point <- pointInCircle radius ;;
       ret {| x := Js.round (centerX + vx point);
              y := Js.round (centerY + vy point) |}) r1
    else
      (px <- nextFloat 0 width ;;
       py <- nextFloat 0 height ;;
       ret {| x := Js.round px; y := Js.round py |}) r1.

(** [generateRandomPointAround(point, minDistance, width, height, centerBias)] *)
Definition generateRandomPointAround
    (point : Point) (minDistance width height centerBias : R) : Rand Point :=
  fun r0 =>
    let (angle, r1) := nextFloat 0 (PI * 2) r0 in
    let (radius, r2) := nextFloat minDistance (minDistance * 2) r1 in
    let x1 := (IZR (x point) + cos angle * radius)%R in
    let y1 := (IZR (y point) + sin angle * radius)%R in
    let (biased, r3) :=
      if Js.ltb 0 centerBias
      then (u <- next ;; ret (Js.ltb u (centerBias * (1 / 2)))) r2
      else (false, r2) in
    let centerX := (width / 2)%R in
    let centerY := (height / 2)%R in
    let biasStrength := (1 / 10)%R in
    let x2 := if biased then (x1 + (centerX - x1) * biasStrength)%R else x1 in
    let y2 := if biased then (y1 + (centerY - y1) * biasStrength)%R else y1 in
    ({| x := Js.round (Js.max 0 (Js.min (width - 1) x2));
        y := Js.round (Js.max 0 (Js.min (height - 1) y2)) |}, r3).

(** The integers [lo, lo+1, ..., hi] of a counting [for] loop. *)
Definition range (lo hi : Z) : list Z :=
  map (fun i => lo + Z.of_nat i) (seq 0 (Z.to_nat (hi - lo + 1))).

(** The distance computed in [isValidPoint]. *)
Definition distance (p q : Point) : R :=
  sqrt ((IZR (x p) - IZR (x q)) ^ 2 + (IZR (y p) - IZR (y q)) ^ 2).

(** [isValidPoint(point, minDistance, width, height)].  The two nested
    loops return [false] at the first neighbour that is too close.  The
    distance is the exact square root: the rounding of [Math.sqrt] is
    not modelled, so a distance that equals [minDistance] up to that
    rounding can be decided differently by the machine. *)
Definition isValidPoint (s : PoissonSampler)
    (point : Point) (minDistance width height : R) : bool :=
  if Js.ltb (IZR (x point)) 0 || Js.geb (IZR (x point)) width
     || Js.ltb (IZR (y point)) 0 || Js.geb (IZR (y point)) height
  then false
  else
    let gridX := Js.floor (IZR (x point) / cellSize s) in
    let gridY := Js.floor (IZR (y point) / cellSize s) in
    let startX := Z.max 0 (gridX - 2) in
    let endX := Z.min (gridWidth s - 1) (gridX + 2) in
    let startY := Z.max 0 (gridY - 2) in
    let endY := Z.min (gridHeight s - 1) (gridY + 2) in
    forallb (fun gy =>
      forallb (fun gx =>
        match grid s gy gx with
        | Some existingPoint =>
            negb (Js.ltb (distance point existingPoint) minDistance)
        | None => true
        end) (range startX endX)) (range startY endY).

(** [addPoint(point, points)].  The assignment [this.grid[gridY][gridX] =
    point] throws a [TypeError] when row [gridY] does not exist; on an
    existing row it stores the point at [gridX] whether or not [gridX] is
    below the row's length (an array grows on such a write). *)
Definition addPoint (point : Point) (points : list Point) (s : PoissonSampler)
  : Js.result (list Point * PoissonSampler) :=
  let points := points ++ [point] in
  let s := set_activeList s (activeList s ++ [point]) in
  let gridX := Js.floor (IZR (x point) / cellSize s) in
  let gridY := Js.floor (IZR (y point) / cellSize s) in
  if (0 <=? gridY) && (gridY <? gridHeight s)
  then Js.Ok (points, set_grid s gridY gridX point)
  else Js.Throw Js.TypeError.

(** The [for] loop of [sample]: up to [n] candidates around [point]; the
    boolean is [found]. *)
Fixpoint attempts (n : nat) (point : Point)
    (minDistance width height centerBias : R)
    (points : list Point) (s : PoissonSampler)
  : Js.result (bool * list Point * PoissonSampler) :=
  match n with
  | O => Js.Ok (false, points, s)
  | S n' =>
      let (newPoint, s1) :=
        with_rng (generateRandomPointAround point minDistance width height centerBias) s in
      if isValidPoint s1 newPoint minDistance width height
      then match addPoint newPoint points s1 with
           | Js.Ok (points', s2) => Js.Ok (true, points', s2)
           | Js.Throw e => Js.Throw e
           end
      else attempts n' point minDistance width height centerBias points s1
  end.

(** The number of times the body of [for (let i = 0; i < maxAttempts; i++)]
    can run. *)
Definition attempt_count (maxAttempts : R) : nat := Z.to_nat (Js.ceil maxAttempts).

(** [array[i]]; [None] is [undefined]. *)
Definition array_get {T} (array : list T) (i : Z) : option T :=
  if i <? 0 then None else nth_error array (Z.to_nat i).

(** [array.splice(i, 1)] for an index inside the array. *)
Definition splice1 {T} (array : list T) (i : Z) : list T :=
  firstn (Z.to_nat i) array ++ skipn (S (Z.to_nat i)) array.

(** One pass through the body of the [while] loop of [sample]. *)
Definition while_body (minDistance width height maxAttempts centerBias : R)
    (points : list Point) (s : PoissonSampler)
  : Js.result (list Point * PoissonSampler) :=
  let (randomIndex, s1) :=
    with_rng (nextInt 0 (Z.of_nat (length (activeList s)))) s in
  match array_get (activeList s1) randomIndex with
  | None => Js.Throw Js.TypeError
  | Some point =>
      match attempts (attempt_count maxAttempts) point
              minDistance width height centerBias points s1 with
      | Js.Throw e => Js.Throw e
      | Js.Ok (found, points', s2) =>
          if found then Js.Ok (points', s2)
          else Js.Ok (points', set_activeList s2 (splice1 (activeList s2) randomIndex))
      end
  end.

(** The [while (this.activeList.length > 0)] loop followed by [return
    points].  [fuel] bounds the number of loop tests; [None] means the
    bound was reached. *)
Fixpoint while_active (fuel : nat)
    (minDistance width height maxAttempts centerBias : R)
    (points : list Point) (s : PoissonSampler)
  : option (Js.result (list Point) * Mulberry32) :=
  match fuel with
  | O => None
  | S fuel' =>
      match activeList s with
      | [] => Some (Js.Ok points, rng s)
      | _ :: _ =>
          match while_body minDistance width height maxAttempts centerBias points s with
          | Js.Throw e => Some (Js.Throw e, rng s)
          | Js.Ok (points', s') =>
              while_active fuel' minDistance width height maxAttempts centerBias points' s'
          end
      end
  end.

(** [Array(n)] accepts a length that is an integer from 0 to 2^32 - 1, and
    throws a [RangeError] for every other number. *)
Definition valid_length (n : Z) : bool := (0 <=? n) && (n <=? 4294967295).

(** [sample(config)].  When [cellSize] is 0 the quotients [width /
    cellSize] and [height / cellSize] are infinite or NaN, and so is
    [gridHeight]: [Array(this.gridHeight)] throws.  Otherwise the outer
    array is created first, and one row per index of it. *)
Definition sample (fuel : nat) (config : PoissonConfig) (rng0 : Mulberry32)
  : option (Js.result (list Point) * Mulberry32) :=
  let width := width config in
  let height := height config in
  let minDistance := minDistance config in
  let maxAttempts := match maxAttempts config with Some n => n | None => 30%R end in
  let centerBias := match centerBias config with Some b => b | None => 0%R end in
  let cellSize := (minDistance / sqrt 2)%R in
  if Req_dec_T cellSize 0 then Some (Js.Throw Js.RangeError, rng0)
  else
    let gridWidth := Js.ceil (width / cellSize) in
    let gridHeight := Js.ceil (height / cellSize) in
    if negb (valid_length gridHeight)
       || ((0 <? gridHeight) && negb (valid_length gridWidth))
    then Some (Js.Throw Js.RangeError, rng0)
    else
      let s := mkSampler rng0 (fun _ _ => None) cellSize gridWidth gridHeight [] in
      let points : list Point := [] in
      let (firstPoint, s) := with_rng (generateRandomPoint width height centerBias) s in
      match addPoint firstPoint points s with
      | Js.Throw e => Some (Js.Throw e, rng s)
      | Js.Ok (points, s) =>
          while_active fuel minDistance width height maxAttempts centerBias points s
      end.

(** [generatePoissonPoints(rng, config)] *)
Definition generatePoissonPoints (fuel : nat) (rng0 : Mulberry32) (config : PoissonConfig)
  : option (Js.result (list Point) * Mulberry32) :=
  sample fuel config rng0.

(** [calculatePointCount(width, height, densityPerK)], on binary64
    numbers: the product [width * height], the product with the density
    and the quotient by 1000 are each rounded to binary64. *)
Definition calculatePointCount (width height densityPerK : Js.binary64) : option Z :=
  let area := PrimFloat.mul width height in
  Js.round64 (PrimFloat.div (PrimFloat.mul densityPerK area) (Js.number 1000 0)).

(** The number literal [2.8]: the binary64 number nearest to it,
    6305039478318694 / 2^51. *)
Definition density_2_8 : Js.binary64 := Js.number 6305039478318694 (-51).

End Poisson.

(** ** The browser around the generator *)

Module Browser.

(** The pixel data of a canvas-backed texture: one grey level per pixel. *)
Definition Texture : Type := list Z.

(** What the generation pass can observe of the page besides its
    arguments: the values [Math.random()] is going to return, in order,
    and how many of them have been taken. *)
Record Entropy : Type := mkEntropy {
  math_random : nat -> R;
  taken : nat
}.

(** Storing a number into a [Uint8ClampedArray]: round to the nearest
    integer, a tie going to the even one, and clamp to 0..255. *)
Definition toUint8Clamp (v : R) : Z :=
  let f := Zfloor v in
  let d := (v - IZR f)%R in
  let n := if Js.ltb d (1 / 2) then f
           else if Js.ltb (1 / 2) d then f + 1
           else if Z.even f then f else f + 1 in
  Z.max 0 (Z.min 255 n).

End Browser.

(** ** [lib/space-paint.ts]: attribute generators *)

Module Paint.

Import Random Browser.
#[local] Open Scope rand_scope.

(** [SPACE_PALETTE] *)
Definition SPACE_PALETTE : list Z :=
  [ 0xf8f8ff; 0xe6f1ff; 0xaecdff; 0x9fb0c7; 0xb9a3ff; 0x7fd6ff ].

(** The type ['micro' | 'small'] of [generateStarConfig]'s [layer]. *)
Inductive StarLayer : Type := micro | small.

(** [interface StarConfig]; [color] is [None] when the palette has no
    entry at the index read. *)
Record StarConfig : Type := mkStarConfig {
  size : Z;
  color : option Z;
  alpha : R
}.

(** [interface SparkleConfig] *)
Record SparkleConfig : Type := mkSparkleConfig {
  sparkle_size : Z;
  sparkle_color : option Z;
  sparkle_alpha : R;
  coreSize : Z
}.

(** [palette[i]] *)
Definition palette_get (palette : list Z) (i : Z) : option Z :=
  if i <? 0 then None else nth_error palette (Z.to_nat i).

(** [generateStarConfig(rng, layer, palette)] *)
Definition generateStarConfig (layer : StarLayer) (palette : list Z) : Rand StarConfig :=
  let isMicro := match layer with micro => true | small => false end in
  size <- (if isMicro
           then (b <- nextBoolean ;; ret (if b then 1 else 2))
           else nextInt 1 3) ;;
  w <- nextFloat 0 1 ;;
  let isWhite := Js.ltb w (if isMicro then 8 / 10 else 6 / 10) in
  color <- (if isWhite
            then ret (palette_get palette 0)
            else (v <- nextFloat 0 1 ;;
                  ret (if Js.ltb v (7 / 10)
                       then palette_get palette 1
                       else palette_get palette 3))) ;;
  alpha <- (if isMicro
            then nextFloat (75 / 100) 1
            else nextFloat (5 / 10) (8 / 10)) ;;
  ret {| size := size; color := color; alpha := alpha |}.

(** [generateSparkleConfig(rng, palette)] *)
Definition generateSparkleConfig (palette : list Z) : Rand SparkleConfig :=
  size <- nextInt 3 6 ;;
  i <- nextInt 0 (Z.of_nat (length palette)) ;;
  let color := palette_get palette i in
  alpha <- nextFloat (2 / 10) (35 / 100) ;;
  let coreSize := 1 in
  ret {| sparkle_size := size; sparkle_color := color;
         sparkle_alpha := alpha; coreSize := coreSize |}.

(** [createNoiseTexture(app, size)]: [size * size] pixels, each one value
    of [Math.random() * 255] stored into the image buffer. *)
Definition createNoiseTexture (size : nat) (e : Entropy) : Texture * Entropy :=
  (map (fun i => toUint8Clamp (math_random e (taken e + i) * 255)) (seq 0 (size * size)),
   mkEntropy (math_random e) (taken e + size * size)).

(** The [Graphics] built by [createRibbonStreak]: a line of the given
    width and alpha from the origin to [(cos angle * length, sin angle *
    length)], in the fixed colour 0xc39bff. *)
Record Streak : Type := mkStreak {
  streak_width : Z;
  streak_length : R;
  streak_angle : R;
  streak_alpha : R
}.

(** [createRibbonStreak(radius, rng)].  The alpha is drawn last: it is an
    argument of the [lineStyle] call that follows the three
    declarations. *)
Definition createRibbonStreak (radius : R) : Rand Streak :=
  width <- nextInt 6 15 ;;
  length <- nextFloat (radius * (5 / 10)) (radius * (15 / 10)) ;;
  angle <- nextFloat 0 (PI * 2) ;;
  a <- nextFloat (5 / 100) (1 / 10) ;;
  ret {| streak_width := width; streak_length := length;
         streak_angle := angle; streak_alpha := a |}.

(** The container built by [createNebulaPatch], with the texture of its
    noise overlay of type [T]. *)
Record NebulaPatch (T : Type) : Type := mkPatch {
  patch_x : Z;
  patch_y : Z;
  nebula_texture_size : Z;
  nebula_scale : R;
  nebula_alpha : R;
  noise_texture : T;
  noise_extent : R;
  noise_alpha : R;
  streaks : list Streak
}.
Arguments mkPatch {T}.
Arguments patch_x {T}.
Arguments patch_y {T}.
Arguments nebula_texture_size {T}.
Arguments nebula_scale {T}.
Arguments nebula_alpha {T}.
Arguments noise_texture {T}.
Arguments noise_extent {T}.
Arguments noise_alpha {T}.
Arguments streaks {T}.

(** The [for] loop of [createNebulaPatch] that adds the streaks. *)
Fixpoint ribbon_streaks (n : nat) (radius : R) : Rand (list Streak) :=
  match n with
  | O => ret []
  | S n' =>
      streak <- createRibbonStreak radius ;;
      rest <- ribbon_streaks n' radius ;;
      ret (streak :: rest)
  end.

(** [createNebulaPatch(app, x, y, radius, rng)] *)
Definition createNebulaPatch (px py : Z) (radius : R)
    (rng : Mulberry32) (e : Entropy)
  : NebulaPatch Texture * Mulberry32 * Entropy :=
  let nebulaSize := Js.round (radius * 2) in
  let (nebulaAlpha, rng) := nextFloat (3 / 100) (8 / 100) rng in
  let (noiseTexture, e) := createNoiseTexture 64 e in
  let (noiseAlpha, rng) := nextFloat (6 / 100) (1 / 10) rng in
  let (streakCount, rng) := nextInt 2 5 rng in
  let (streaks, rng) := ribbon_streaks (Z.to_nat streakCount) radius rng in
  (mkPatch px py nebulaSize (radius / 256) nebulaAlpha
           noiseTexture (radius * 2) noiseAlpha streaks, rng, e).

(** [getDepthBrightness(x, y, width, height)].  For [width = height = 0]
    the source divides 0 by 0; the properties below are stated for a
    canvas with a positive side. *)
Definition getDepthBrightness (x y width height : R) : R :=
  let centerX := (width / 2)%R in
  let centerY := (height / 2)%R in
  let maxDistance := sqrt (centerX * centerX + centerY * centerY) in
  let distance := sqrt ((x - centerX) ^ 2 + (y - centerY) ^ 2) in
  let normalizedDistance := (distance / maxDistance)%R in
  (9 / 10 + normalizedDistance * (2 / 10))%R.

End Paint.

(** ** [components/SpaceCanvas.tsx]: the generation pass *)

Module SpaceCanvas.

Import Random Browser Paint.

(** What [regenerate] sets on a [Sprite] before adding it to a layer. *)
Record Sprite : Type := mkSprite {
  sprite_x : Z;
  sprite_y : Z;
  scale : Z;
  tint : option Z;
  sprite_alpha : R
}.

(** A child of the nebula layer: a patch, or the full-canvas noise
    overlay [new TilingSprite(noiseTex, W, H)] with its alpha. *)
Inductive NebulaChild (T : Type) : Type :=
| Patch (p : NebulaPatch T)
| NoiseOverlay (tex : T) (w h : R) (a : R).
Arguments Patch {T} p.
Arguments NoiseOverlay {T} tex w h a.

(** The four containers of [layersRef], in the order [ensureLayers] adds
    them to the stage, with textures of type [T]. *)
Record Layers (T : Type) : Type := mkLayers {
  nebula : list (NebulaChild T);
  sparkle : list Sprite;
  small_stars : list Sprite;
  micro_stars : list Sprite
}.
Arguments mkLayers {T}.
Arguments nebula {T}.
Arguments sparkle {T}.
Arguments small_stars {T}.
Arguments micro_stars {T}.

(** The page state a generation pass starts from and leaves behind: the
    layers with their children, and the source of [Math.random]. *)
Record World : Type := mkWorld {
  layers : Layers Texture;
  entropy : Entropy
}.

(** [snap(n)] *)
Definition snap (n : R) : Z := Js.round n.

(** The body of the loops [for (const point of microPoints)] and
    [for (const point of smallPoints)]: the sprite added for one point. *)
Definition star_sprite (layer : StarLayer) (point : Poisson.Point) : Rand Sprite :=
  fun rng =>
    let (config, rng) := generateStarConfig layer SPACE_PALETTE rng in
    (mkSprite (snap (IZR (Poisson.x point))) (snap (IZR (Poisson.y point)))
              (size config) (color config) (alpha config), rng).

(** The body of the loop [for (const point of sparklePoints)]: the sprite
    built for one point. *)
Definition sparkle_sprite (point : Poisson.Point) : Rand Sprite :=
  fun rng =>
    let (config, rng) := generateSparkleConfig SPACE_PALETTE rng in
    (mkSprite (snap (IZR (Poisson.x point))) (snap (IZR (Poisson.y point)))
              (sparkle_size config) (sparkle_color config) (sparkle_alpha config), rng).

(** The body of the loop [for (const point of nebulaPoints)]. *)
Definition nebula_patch (W H : R) (point : Poisson.Point)
    (rng : Mulberry32) (e : Entropy)
  : NebulaPatch Texture * Mulberry32 * Entropy :=
  let (u, rng) := nextFloat (28 / 100) (35 / 100) rng in
  let radius := (u * Js.min W H)%R in
  createNebulaPatch (snap (IZR (Poisson.x point))) (snap (IZR (Poisson.y point)))
                    radius rng e.

(** A [for (const point of points)] loop whose body builds one child
    with the generator and appends it to [children]. *)
Definition for_points {C} (body : Poisson.Point -> Rand C)
    (points : list Poisson.Point) (children : list C) (rng : Mulberry32)
  : list C * Mulberry32 :=
  fold_left
    (fun (acc : list C * Mulberry32) point =>
       let (child, rng) := body point (snd acc) in (fst acc ++ [child], rng))
    points (children, rng).

(** The nebula loop, which also takes values of [Math.random]. *)
Definition for_nebula_points (W H : R)
    (points : list Poisson.Point) (children : list (NebulaChild Texture))
    (rng : Mulberry32) (e : Entropy)
  : list (NebulaChild Texture) * Mulberry32 * Entropy :=
  fold_left
    (fun (acc : list (NebulaChild Texture) * Mulberry32 * Entropy) point =>
       let '(children, rng, e) := acc in
       let '(patch, rng, e) := nebula_patch W H point rng e in
       (children ++ [Patch patch], rng, e))
    points (children, rng, e).

(** The four sampling configurations of [regenerate]. *)
Definition micro_config (W H : R) : Poisson.PoissonConfig :=
  Poisson.mkConfig W H 8 None (Some (5 / 10)%R).
Definition small_config (W H : R) : Poisson.PoissonConfig :=
  Poisson.mkConfig W H 12 None (Some (5 / 10)%R).
Definition sparkle_config (W H : R) : Poisson.PoissonConfig :=
  Poisson.mkConfig W H 20 None (Some (3 / 10)%R).
Definition nebula_config (W H : R) : Poisson.PoissonConfig :=
  Poisson.mkConfig W H 80 None (Some (2 / 10)%R).

(** How a pass ends: normally, or with the exception that a sampler
    threw (the promise returned by [regenerate] is then rejected). *)
Definition Completion : Type := option Js.error.

(** [regenerate(app)] on an application that is not destroyed, for the
    component's [seed] and a renderer of size [W] x [H].  The result is
    [None] when a sampling loop reaches the bound [fuel].

    The counts [countMicro], [countSmall], [countSparkle] and
    [nebulaCount] are computed by the source and never read; the dot and
    sparkle textures are fixed drawings.  In the sparkle loop the constant
    [sparkle] declared in the body hides the layer of the same name, so
    [sparkle.addChild(sparkle)] makes each sprite its own child and the
    layer receives none. *)
Definition regenerate (fuel : nat) (seed : Z) (W H : R) (w : World)
  : option (World * Completion) :=
  let cleared := mkLayers [] [] [] [] in
  let rng := createRandom seed in
  let (noiseTex, e) := createNoiseTexture 64 (entropy w) in
  (* L1: micro stars *)
  match Poisson.generatePoissonPoints fuel rng (micro_config W H) with
  | None => None
  | Some (Js.Throw err, _) => Some (mkWorld cleared e, Some err)
  | Some (Js.Ok microPoints, rng) =>
  let (micro_children, rng) := for_points (star_sprite micro) microPoints [] rng in
  let l1 := mkLayers [] [] [] micro_children in
  (* L2: small stars *)
  match Poisson.generatePoissonPoints fuel rng (small_config W H) with
  | None => None
  | Some (Js.Throw err, _) => Some (mkWorld l1 e, Some err)
  | Some (Js.Ok smallPoints, rng) =>
  let (small_children, rng) := for_points (star_sprite small) smallPoints [] rng in
  let l2 := mkLayers [] [] small_children micro_children in
  (* L3: sparkles *)
  match Poisson.generatePoissonPoints fuel rng (sparkle_config W H) with
  | None => None
  | Some (Js.Throw err, _) => Some (mkWorld l2 e, Some err)
  | Some (Js.Ok sparklePoints, rng) =>
  let (_, rng) := for_points sparkle_sprite sparklePoints [] rng in
  (* L4: nebula patches *)
  match Poisson.generatePoissonPoints fuel rng (nebula_config W H) with
  | None => None
  | Some (Js.Throw err, _) => Some (mkWorld l2 e, Some err)
  | Some (Js.Ok nebulaPoints, rng) =>
  let '(nebula_children, rng, e) := for_nebula_points W H nebulaPoints [] rng e in
  (* L5: background noise *)
  let noise := NoiseOverlay noiseTex W H (7 / 100)%R in
  Some (mkWorld (mkLayers (nebula_children ++ [noise]) [] small_children micro_children) e,
        None)
  end end end end.

(** *** The scene: the layers without pixel data *)

Definition Scene : Type := Layers unit.

Definition forget_patch (p : NebulaPatch Texture) : NebulaPatch unit :=
  mkPatch (patch_x p) (patch_y p) (nebula_texture_size p) (nebula_scale p)
          (nebula_alpha p) tt (noise_extent p) (noise_alpha p) (streaks p).

Definition forget_child (c : NebulaChild Texture) : NebulaChild unit :=
  match c with
  | Patch p => Patch (forget_patch p)
  | NoiseOverlay _ w h a => NoiseOverlay tt w h a
  end.

(** The placement records of the four layers, in stage order. *)
Definition scene_of (l : Layers Texture) : Scene :=
  mkLayers (map forget_child (nebula l)) (sparkle l) (small_stars l) (micro_stars l).

End SpaceCanvas.

(** * Specification vocabulary *)

Module SamplerSpec.

Import Poisson.

(** The grid cell, as (row, column), that [addPoint] files a point under. *)
Definition cell_of (c : R) (p : Point) : Z * Z :=
  (Js.floor (IZR (y p) / c), Js.floor (IZR (x p) / c)).

(** The cells [isValidPoint] can read: rows [0 .. gh-1], columns
    [0 .. gw-1]. *)
Definition all_cells (gw gh : Z) : list (Z * Z) :=
  list_prod (range 0 (gh - 1)) (range 0 (gw - 1)).

(** An earlier point [p] and a later point [q] are apart when they are at
    least [m] from each other, provided [p] lies in a readable cell (a
    later point always does). *)
Definition apart (m W H : R) (p q : Point) : Prop :=
  In (cell_of (m / sqrt 2) p)
     (all_cells (Js.ceil (W / (m / sqrt 2))) (Js.ceil (H / (m / sqrt 2)))) ->
  (m <= distance p q)%R.

(** The loop invariant of [sample] for a configuration with
    [minDistance = m] on a [W] x [H] canvas: the grid has the dimensions
    [sample] computed, every occupied cell holds a point that belongs to
    it, every accepted point still has an occupant in its cell, no two
    accepted points share a cell, all points after the first lie in
    readable cells and inside the canvas, the active list is no longer
    than the output, every point of a readable cell is the occupant of
    that cell, and every point is apart from the later ones. *)
Record Inv (m W H : R) (points : list Point) (s : PoissonSampler) : Prop := mkInv {
  inv_cell : cellSize s = (m / sqrt 2)%R;
  inv_gw : gridWidth s = Js.ceil (W / (m / sqrt 2));
  inv_gh : gridHeight s = Js.ceil (H / (m / sqrt 2));
  inv_home : forall r k q, grid s r k = Some q -> cell_of (m / sqrt 2) q = (r, k);
  inv_stored : forall q, In q points ->
      grid s (fst (cell_of (m / sqrt 2) q)) (snd (cell_of (m / sqrt 2) q)) <> None;
  inv_nodup : NoDup (map (cell_of (m / sqrt 2)) points);
  inv_tail : forall q, In q (tl points) ->
      In (cell_of (m / sqrt 2) q)
         (all_cells (Js.ceil (W / (m / sqrt 2))) (Js.ceil (H / (m / sqrt 2))));
  inv_bounds : forall q, In q (tl points) ->
      (0 <= IZR (x q) < W)%R /\ (0 <= IZR (y q) < H)%R;
  inv_active : (length (activeList s) <= length points)%nat;
  inv_exact : forall q, In q points ->
      In (cell_of (m / sqrt 2) q)
         (all_cells (Js.ceil (W / (m / sqrt 2))) (Js.ceil (H / (m / sqrt 2)))) ->
      grid s (fst (cell_of (m / sqrt 2) q)) (snd (cell_of (m / sqrt 2) q)) = Some q;
  inv_apart : ForallOrdPairs (apart m W H) points
}.

(** The sampler as [sample] sets it up, before the first point. *)
Definition fresh_sampler (m W H : R) (r : Random.Mulberry32) : PoissonSampler :=
  mkSampler r (fun _ _ => None) (m / sqrt 2)
            (Js.ceil (W / (m / sqrt 2))) (Js.ceil (H / (m / sqrt 2))) [].



(** How many numbers one call of [generateRandomPointAround] takes from
    the generator: angle and radius, and the bias test when [centerBias]
    is positive. *)
Definition draws_per_candidate (centerBias : R) : nat :=
  if Js.ltb 0 centerBias then 3 else 2.

(** The quantity that every pass through the loop body decreases. *)
Definition measure (m W H : R) (points : list Point) (s : PoissonSampler) : nat :=
  2 * (S (length (all_cells (Js.ceil (W / (m / sqrt 2))) (Js.ceil (H / (m / sqrt 2)))))
       - length points)
  + length (activeList s).

End SamplerSpec.

(** The layer generator as the specification words it (section 4.3):
    for each point, in order, one size value, then one colour selection,
    then one alpha value, each taken from the shared generator. *)
Module LayerSpec.

Import Random.
#[local] Open Scope rand_scope.

(** The attribute-distribution rules of a layer: the size and the alpha
    are functions of one draw each; the colour is chosen by one draw,
    which either settles it or asks for a second draw. *)
Record AttributeRules : Type := mkRules {
  size_rule : R -> R;
  color_rule : R -> option Z + (R -> option Z);
  alpha_rule : R -> R
}.

(** A placement record without its [kind] tag. *)
Record PlacementRecord : Type := mkPlacement {
  point : Poisson.Point;
  size : R;
  color : option Z;
  alpha : R
}.

(** The draws for one point: size, then colour, then alpha. *)
Definition place (rules : AttributeRules) (pt : Poisson.Point) : Rand PlacementRecord :=
  u <- next ;;
  let size := size_rule rules u in
  w <- next ;;
  color <- match color_rule rules w with
           | inl c => ret c
           | inr second => (v <- next ;; ret (second v))
           end ;;
  a <- next ;;
  let alpha := alpha_rule rules a in
  ret (mkPlacement pt size color alpha).

(** [generate(rng, layerSpec, points)]: the points in their given order,
    each one finished before the next is begun. *)
Fixpoint generateLayer (rules : AttributeRules) (points : list Poisson.Point)
  : Rand (list PlacementRecord) :=
  match points with
  | [] => ret []
  | pt :: rest =>
      record <- place rules pt ;;
      records <- generateLayer rules rest ;;
      ret (record :: records)
  end.

(** The four point layers of [regenerate]. *)
Inductive LayerKind : Type := MicroLayer | SmallLayer | SparkleLayer | NebulaLayer.

(** The placement a sprite stands for. *)
Definition record_of_sprite (s : SpaceCanvas.Sprite) : PlacementRecord :=
  mkPlacement (Poisson.mkPoint (SpaceCanvas.sprite_x s) (SpaceCanvas.sprite_y s))
              (IZR (SpaceCanvas.scale s)) (SpaceCanvas.tint s) (SpaceCanvas.sprite_alpha s).

(** The placement a nebula child stands for: its position, its radius
    (half the extent of its noise overlay) and the alpha of its nebula
    sprite; a patch has no tint. *)
Definition record_of_child (c : SpaceCanvas.NebulaChild Browser.Texture) : PlacementRecord :=
  match c with
  | SpaceCanvas.Patch p =>
      mkPlacement (Poisson.mkPoint (Paint.patch_x p) (Paint.patch_y p))
                  (Paint.noise_extent p / 2) None (Paint.nebula_alpha p)
  | SpaceCanvas.NoiseOverlay _ w h a =>
      mkPlacement (Poisson.mkPoint 0 0) w None a
  end.

(** The loop of [regenerate] for one layer, from the source: the
    placements it builds for [points] and the generator it leaves. *)
Definition code_layer (k : LayerKind) (W H : R) (points : list Poisson.Point)
    (rng : Mulberry32) (e : Browser.Entropy) : list PlacementRecord * Mulberry32 :=
  match k with
  | MicroLayer =>
      let (sprites, rng) :=
        SpaceCanvas.for_points (SpaceCanvas.star_sprite Paint.micro) points [] rng in
      (map record_of_sprite sprites, rng)
  | SmallLayer =>
      let (sprites, rng) :=
        SpaceCanvas.for_points (SpaceCanvas.star_sprite Paint.small) points [] rng in
      (map record_of_sprite sprites, rng)
  | SparkleLayer =>
      let (sprites, rng) :=
        SpaceCanvas.for_points SpaceCanvas.sparkle_sprite points [] rng in
      (map record_of_sprite sprites, rng)
  | NebulaLayer =>
      let '(children, rng, _) :=
        SpaceCanvas.for_nebula_points W H points [] rng e in
      (map record_of_child children, rng)
  end.

(** The loop of layer [k] is the specification's generator for some
    attribute rules: same records, same generator state afterwards. *)
Definition follows_attribute_order (k : LayerKind) : Prop :=
  exists rules : AttributeRules,
    forall W H points rng e,
      code_layer k W H points rng e = generateLayer rules points rng.

(** The rules the source implements for its three attribute layers. *)
Definition star_rules (layer : Paint.StarLayer) : AttributeRules :=
  let isMicro := match layer with Paint.micro => true | Paint.small => false end in
  mkRules
    (fun u => if isMicro
              then IZR (if Js.ltb u (1 / 2) then 1 else 2)
              else IZR (Js.floor (u * IZR (3 - 1)) + 1))
    (fun w => if Js.ltb (w * (1 - 0) + 0) (if isMicro then 8 / 10 else 6 / 10)
              then inl (Paint.palette_get Paint.SPACE_PALETTE 0)
              else inr (fun v => if Js.ltb (v * (1 - 0) + 0) (7 / 10)
                                 then Paint.palette_get Paint.SPACE_PALETTE 1
                                 else Paint.palette_get Paint.SPACE_PALETTE 3))
    (fun a => if isMicro
              then (a * (1 - 75 / 100) + 75 / 100)%R
              else (a * (8 / 10 - 5 / 10) + 5 / 10)%R).

Definition sparkle_rules : AttributeRules :=
  mkRules
    (fun u => IZR (Js.floor (u * IZR (6 - 3)) + 3))
    (fun w => inl (Paint.palette_get Paint.SPACE_PALETTE
                     (Js.floor (w * IZR (Z.of_nat (length Paint.SPACE_PALETTE) - 0)) + 0)))
    (fun a => (a * (35 / 100 - 2 / 10) + 2 / 10)%R).

End LayerSpec.

(** * Properties *)

(** ** 32-bit conversions and real-number helpers *)

Section JsFacts.

#[local] Open Scope Z_scope.

Lemma toInt32_range z : - 2 ^ 31 <= Js.toInt32 z < 2 ^ 31.
Proof.
  unfold Js.toInt32.
  pose proof (Z.mod_pos_bound (z + 2 ^ 31) (2 ^ 32) ltac:(lia)). lia.
Qed.

Lemma toInt32_add_l a b : Js.toInt32 (Js.toInt32 a + b) = Js.toInt32 (a + b).
Proof.
  unfold Js.toInt32. f_equal.
  replace ((a + 2 ^ 31) mod 2 ^ 32 - 2 ^ 31 + b + 2 ^ 31)
    with ((a + 2 ^ 31) mod 2 ^ 32 + b) by ring.
  rewrite Z.add_mod_idemp_l by lia. f_equal. ring.
Qed.

Lemma bor_0_r a : Js.bor a 0 = Js.toInt32 a.
Proof. unfold Js.bor. change (Js.toInt32 0) with 0. apply Z.lor_0_r. Qed.

Lemma ushr_0_range a : 0 <= Js.ushr a 0 < 2 ^ 32.
Proof.
  unfold Js.ushr, Js.toUint32. change (0 mod 32) with 0.
  rewrite Z.shiftr_0_r. apply Z.mod_pos_bound. lia.
Qed.

#[local] Open Scope R_scope.

Lemma round_eq (z : Z) (r : R) : IZR z - / 2 <= r < IZR z + / 2 -> Js.round r = z.
Proof. intros Hb. unfold Js.round. apply Zfloor_eq. lra. Qed.

Lemma round_bound (r : R) : IZR (Js.round r) - / 2 <= r < IZR (Js.round r) + / 2.
Proof. unfold Js.round. pose proof (Zfloor_bound (r + / 2)). lra. Qed.

Lemma round_IZR (z : Z) : Js.round (IZR z) = z.
Proof. apply round_eq. lra. Qed.

Lemma ltb_true a b : a < b -> Js.ltb a b = true.
Proof. intros Hab. unfold Js.ltb. destruct (Rlt_dec a b); [reflexivity | contradiction]. Qed.

Lemma ltb_false a b : b <= a -> Js.ltb a b = false.
Proof. intros Hab. unfold Js.ltb. destruct (Rlt_dec a b); [lra | reflexivity]. Qed.

Lemma ltb_spec a b : Js.ltb a b = true <-> a < b.
Proof.
  unfold Js.ltb. destruct (Rlt_dec a b); split; intros; try assumption;
    try reflexivity; try discriminate; contradiction.
Qed.



Lemma geb_false a b : a < b -> Js.geb a b = false.
Proof. intros Hab. unfold Js.geb. destruct (Rle_dec b a); [lra | reflexivity]. Qed.

End JsFacts.

(** ** The generator *)

Section RandomFacts.

Import Random.
#[local] Open Scope Z_scope.

Lemma advance_eq s : advance s = Js.toInt32 (s + 0x6d2b79f5).
Proof. unfold advance. rewrite !bor_0_r. apply toInt32_add_l. Qed.

Lemma next_fst s : fst (next s) = (IZR (temper (advance s)) / 4294967296)%R.
Proof. reflexivity. Qed.

Lemma next_snd s : snd (next s) = advance s.
Proof. reflexivity. Qed.

Lemma after_S n s : after (S n) s = advance (after n s).
Proof.
  revert s. induction n as [|n IH]; intros s; [reflexivity|].
  change (after (S (S n)) s) with (after (S n) (snd (next s))).
  rewrite IH. reflexivity.
Qed.

Lemma after_add n m s : after (n + m) s = after m (after n s).
Proof.
  revert s. induction n as [|n IH]; intros s; [reflexivity|].
  simpl. apply IH.
Qed.

Lemma after_after a b s : after b (after a s) = after (a + b) s.
Proof. symmetry. apply after_add. Qed.

(** The state word is a counter: after [n + 1] draws it is the seed plus
    [n + 1] times the increment, reduced to 32 bits. *)
Lemma after_closed_form n seed :
  after (S n) seed = Js.toInt32 (seed + (Z.of_nat n + 1) * 0x6d2b79f5).
Proof.
  induction n as [|n IH].
  - simpl. rewrite advance_eq. f_equal.
  - rewrite after_S, IH, advance_eq, toInt32_add_l. f_equal. lia.
Qed.

Lemma temper_range s : 0 <= temper s < 2 ^ 32.
Proof. unfold temper. apply ushr_0_range. Qed.

Lemma next_range s : (0 <= fst (next s) < 1)%R.
Proof.
  rewrite next_fst. pose proof (temper_range (advance s)) as [Hlo Hhi].
  apply IZR_le in Hlo. apply IZR_lt in Hhi.
  change (2 ^ 32) with 4294967296 in Hhi.
  split.
  - apply Rmult_le_pos; [exact Hlo | lra].
  - apply Rmult_lt_reg_r with 4294967296%R; [lra|].
    unfold Rdiv. rewrite Rmult_assoc, Rinv_l by lra. lra.
Qed.

Lemma draw_range s n : (0 <= draw s n < 1)%R.
Proof. apply next_range. Qed.

Lemma next_eq s : next s = (draw s 0, after 1 s).
Proof. reflexivity. Qed.

Lemma nextFloat_eq lo hi s :
  nextFloat lo hi s = ((draw s 0 * (hi - lo) + lo)%R, after 1 s).
Proof. reflexivity. Qed.

Lemma nextInt_eq lo hi s :
  nextInt lo hi s = (Js.floor (draw s 0 * IZR (hi - lo)) + lo, after 1 s).
Proof. reflexivity. Qed.

Lemma draw_after s n m : draw (after n s) m = draw s (n + m).
Proof. unfold draw. rewrite after_add. reflexivity. Qed.

(** [nextInt(lo, hi)] with [lo < hi] lands in [lo, hi). *)
Lemma nextInt_range lo hi s :
  lo < hi -> lo <= fst (nextInt lo hi s) < hi.
Proof.
  intros Hlt. rewrite nextInt_eq. simpl.
  pose proof (draw_range s 0) as [Hlo Hhi].
  assert (Hd : (0 < IZR (hi - lo))%R) by (apply IZR_lt; lia).
  pose proof (Zfloor_bound (draw s 0 * IZR (hi - lo))) as [Hf1 Hf2].
  split.
  - assert (0 <= Js.floor (draw s 0 * IZR (hi - lo))); [|lia].
    apply Zfloor_lub. simpl. apply Rmult_le_pos; lra.
  - assert (Js.floor (draw s 0 * IZR (hi - lo)) < hi - lo); [|lia].
    apply lt_IZR. unfold Js.floor.
    eapply Rle_lt_trans; [exact Hf1|]. nra.
Qed.

End RandomFacts.

(** From here on the 32-bit arithmetic of [next] is used through the
    lemmas above and by evaluation only. *)
#[global] Opaque Random.advance Random.temper.

Lemma draw_closed_form seed n :
  Random.draw seed n
  = (IZR (Random.temper (Js.toInt32 (seed + (Z.of_nat n + 1) * 0x6d2b79f5))) / 4294967296)%R.
Proof.
  unfold Random.draw. rewrite next_fst, <- after_S, after_closed_form. reflexivity.
Qed.

(** Replaces [draw seed n], for numerals [seed] and [n], by the quotient
    of its evaluated 32-bit word. *)
Ltac draw_eval :=
  repeat match goal with
         | |- context [Random.draw ?s ?n] =>
             rewrite (draw_closed_form s n);
             match goal with
             | |- context [Random.temper ?w] =>
                 let v := eval vm_compute in (Random.temper w) in
                 replace (Random.temper w) with v by (vm_compute; reflexivity)
             end
         end.

(** Collects nested [after]s into one. *)
Ltac after_norm :=
  repeat match goal with
         | |- context [Random.after ?b (Random.after ?a ?s)] =>
             rewrite (after_after a b s)
         end.

(** ** The sampler: grid geometry *)

Section GridGeometry.

Import Poisson.
#[local] Open Scope R_scope.

Lemma range_In lo hi i : In i (range lo hi) <-> (lo <= i <= hi)%Z.
Proof.
  unfold range. rewrite in_map_iff. split.
  - intros [k [Hk Hin]]. apply in_seq in Hin. lia.
  - intros Hi. exists (Z.to_nat (i - lo)). split; [lia|].
    apply in_seq. lia.
Qed.

Lemma sqrt2_pos : 0 < sqrt 2.
Proof. apply sqrt_lt_R0. lra. Qed.

Lemma sqrt2_sq : sqrt 2 * sqrt 2 = 2.
Proof. apply sqrt_sqrt. lra. Qed.

Lemma cell_pos m : 0 < m -> 0 < m / sqrt 2.
Proof. intros Hm. apply Rdiv_lt_0_compat; [exact Hm | exact sqrt2_pos]. Qed.

Lemma cell_sq m : 2 * ((m / sqrt 2) * (m / sqrt 2)) = m * m.
Proof.
  pose proof sqrt2_pos as Hs. pose proof sqrt2_sq as Hq.
  unfold Rdiv.
  replace (2 * (m * / sqrt 2 * (m * / sqrt 2)))
    with (m * m * (2 * (/ sqrt 2 * / sqrt 2))) by ring.
  rewrite <- Rinv_mult, Hq. field.
Qed.

(** Two coordinates with the same grid index are less than one cell
    apart. *)
Lemma same_index_close (c : R) (a b : Z) :
  0 < c ->
  Js.floor (IZR a / c) = Js.floor (IZR b / c) ->
  (IZR a - IZR b) ^ 2 < c * c.
Proof.
  intros Hc Heq. unfold Js.floor in Heq.
  pose proof (Zfloor_bound (IZR a / c)) as [Ha1 Ha2].
  pose proof (Zfloor_bound (IZR b / c)) as [Hb1 Hb2].
  rewrite Heq in Ha1, Ha2.
  set (k := IZR (Zfloor (IZR b / c))) in *.
  assert (Ea : IZR a = IZR a / c * c) by (field; lra).
  assert (Eb : IZR b = IZR b / c * c) by (field; lra).
  set (u := IZR a / c) in *. set (v := IZR b / c) in *.
  rewrite Ea, Eb.
  assert (Hd : -1 < u - v < 1) by lra.
  replace ((u * c - v * c) ^ 2) with ((u - v) * (u - v) * (c * c)) by ring.
  assert (Hsq : (u - v) * (u - v) < 1) by nra.
  assert (Hcc : 0 < c * c) by nra.
  nra.
Qed.

(** Two points of one cell are closer than [minDistance]: the cell's
    diagonal is [cellSize * sqrt 2 = minDistance], and the cell is
    half-open. *)
Lemma same_cell_close (m : R) (p q : Point) :
  0 < m ->
  Js.floor (IZR (x p) / (m / sqrt 2)) = Js.floor (IZR (x q) / (m / sqrt 2)) ->
  Js.floor (IZR (y p) / (m / sqrt 2)) = Js.floor (IZR (y q) / (m / sqrt 2)) ->
  distance p q < m.
Proof.
  intros Hm Hx Hy.
  pose proof (cell_pos m Hm) as Hc.
  pose proof (same_index_close _ _ _ Hc Hx) as Dx.
  pose proof (same_index_close _ _ _ Hc Hy) as Dy.
  pose proof (cell_sq m) as Hsq.
  unfold distance.
  rewrite <- (sqrt_square m) by lra.
  apply sqrt_lt_1_alt. split.
  - apply Rplus_le_le_0_compat; apply pow2_ge_0.
  - lra.
Qed.

Lemma distance_sym p q : distance p q = distance q p.
Proof. unfold distance. f_equal. ring. Qed.

(** A lower bound on one coordinate difference bounds the distance. *)
Lemma distance_lower p q d :
  0 <= d ->
  d * d <= (IZR (x p) - IZR (x q)) ^ 2 \/ d * d <= (IZR (y p) - IZR (y q)) ^ 2 ->
  d <= distance p q.
Proof.
  intros Hd Hsq. unfold distance.
  rewrite <- (sqrt_square d) by exact Hd.
  apply sqrt_le_1_alt.
  pose proof (pow2_ge_0 (IZR (x p) - IZR (x q))).
  pose proof (pow2_ge_0 (IZR (y p) - IZR (y q))).
  destruct Hsq; lra.
Qed.

(** Coordinates whose grid indices differ by three or more are more than
    two cells apart. *)
Lemma far_index (c : R) (a b : Z) :
  0 < c ->
  (Js.floor (IZR a / c) + 3 <= Js.floor (IZR b / c))%Z ->
  2 * c < IZR b - IZR a.
Proof.
  intros Hc Hfar. unfold Js.floor in Hfar.
  pose proof (Zfloor_bound (IZR a / c)) as [Ha1 Ha2].
  pose proof (Zfloor_bound (IZR b / c)) as [Hb1 Hb2].
  apply IZR_le in Hfar. rewrite plus_IZR in Hfar.
  assert (Ea : IZR a = IZR a / c * c) by (field; lra).
  assert (Eb : IZR b = IZR b / c * c) by (field; lra).
  set (u := IZR a / c) in *. set (v := IZR b / c) in *.
  rewrite Ea, Eb. assert (2 < v - u) by lra. nra.
Qed.

(** Two cells are two cells or more: [2 * cellSize = sqrt 2 *
    minDistance]. *)
Lemma two_cells m : 0 < m -> m <= 2 * (m / sqrt 2).
Proof.
  intros Hm. pose proof sqrt2_pos as Hs. pose proof sqrt2_sq as Hq.
  assert (Hs2 : sqrt 2 <= 2) by nra.
  apply Rmult_le_reg_r with (sqrt 2); [exact Hs|].
  replace (2 * (m / sqrt 2) * sqrt 2) with (2 * m) by (field; lra). nra.
Qed.

(** Points whose cells are three or more rows or columns apart are at
    least [minDistance] apart: the 5 x 5 neighbourhood of [isValidPoint]
    misses no point that matters. *)
Lemma far_cells_apart (m : R) (p q : Point) :
  0 < m ->
  (Js.floor (IZR (x p) / (m / sqrt 2)) + 3 <= Js.floor (IZR (x q) / (m / sqrt 2))
   \/ Js.floor (IZR (x q) / (m / sqrt 2)) + 3 <= Js.floor (IZR (x p) / (m / sqrt 2))
   \/ Js.floor (IZR (y p) / (m / sqrt 2)) + 3 <= Js.floor (IZR (y q) / (m / sqrt 2))
   \/ Js.floor (IZR (y q) / (m / sqrt 2)) + 3 <= Js.floor (IZR (y p) / (m / sqrt 2)))%Z ->
  m <= distance p q.
Proof.
  intros Hm Hfar.
  pose proof (cell_pos m Hm) as Hc. pose proof (two_cells m Hm) as H2.
  apply distance_lower; [lra|].
  destruct Hfar as [Hf|[Hf|[Hf|Hf]]]; apply far_index in Hf; try exact Hc;
    [left | left | right | right]; nra.
Qed.

(** A coordinate inside the canvas has its grid index inside the grid. *)
Lemma index_in_grid (c extent : R) (a : Z) :
  0 < c -> 0 <= IZR a -> IZR a < extent ->
  (0 <= Js.floor (IZR a / c) < Js.ceil (extent / c))%Z.
Proof.
  intros Hc Ha0 Ha1. unfold Js.floor, Js.ceil.
  pose proof (Zfloor_bound (IZR a / c)) as [Hf1 Hf2].
  pose proof (Zceil_bound (extent / c)) as [Hc1 Hc2].
  assert (H0 : 0 <= IZR a / c).
  { apply Rmult_le_pos; [exact Ha0|]. left. apply Rinv_0_lt_compat. exact Hc. }
  assert (H1 : IZR a / c < extent / c).
  { unfold Rdiv. apply Rmult_lt_compat_r; [apply Rinv_0_lt_compat; exact Hc | exact Ha1]. }
  split.
  - apply Zfloor_lub. exact H0.
  - apply lt_IZR. lra.
Qed.

End GridGeometry.

(** ** The sampler: loop invariant and termination *)

Section SamplerInvariant.

Import Random Poisson SamplerSpec.

Variables m W H : R.
Hypothesis m_pos : (0 < m)%R.

Let c : R := (m / sqrt 2)%R.
Let gw : Z := Js.ceil (W / c).
Let gh : Z := Js.ceil (H / c).

Lemma all_cells_In r k : In (r, k) (all_cells gw gh) <-> (0 <= r < gh /\ 0 <= k < gw)%Z.
Proof.
  unfold all_cells. rewrite in_prod_iff, !range_In. lia.
Qed.

Lemma isValidPoint_set_rng s r p :
  isValidPoint (set_rng s r) p m W H = isValidPoint s p m W H.
Proof. reflexivity. Qed.

Lemma Inv_set_rng points s r : Inv m W H points s -> Inv m W H points (set_rng s r).
Proof. intros [? ? ? ? ? ? ? ? ? ? ?]. constructor; assumption. Qed.

Lemma valid_in_bounds s p :
  isValidPoint s p m W H = true ->
  (0 <= IZR (x p) < W)%R /\ (0 <= IZR (y p) < H)%R.
Proof.
  unfold isValidPoint.
  destruct (Js.ltb (IZR (x p)) 0) eqn:E1; [discriminate|].
  destruct (Js.geb (IZR (x p)) W) eqn:E2; [discriminate|].
  destruct (Js.ltb (IZR (y p)) 0) eqn:E3; [discriminate|].
  destruct (Js.geb (IZR (y p)) H) eqn:E4; [discriminate|].
  intros _.
  unfold Js.ltb in E1, E3. unfold Js.geb in E2, E4.
  destruct (Rlt_dec (IZR (x p)) 0); [discriminate|].
  destruct (Rle_dec W (IZR (x p))); [discriminate|].
  destruct (Rlt_dec (IZR (y p)) 0); [discriminate|].
  destruct (Rle_dec H (IZR (y p))); [discriminate|].
  lra.
Qed.

(** What the two nested loops of [isValidPoint] establish. *)
Lemma valid_scan s p :
  isValidPoint s p m W H = true ->
  forall r k e,
    (Z.max 0 (Js.floor (IZR (y p) / cellSize s) - 2) <= r
       <= Z.min (gridHeight s - 1) (Js.floor (IZR (y p) / cellSize s) + 2))%Z ->
    (Z.max 0 (Js.floor (IZR (x p) / cellSize s) - 2) <= k
       <= Z.min (gridWidth s - 1) (Js.floor (IZR (x p) / cellSize s) + 2))%Z ->
    grid s r k = Some e ->
    (m <= distance p e)%R.
Proof.
  unfold isValidPoint.
  destruct (_ || _ || _ || _); [discriminate|].
  intros Hscan r k e Hr Hk He.
  rewrite forallb_forall in Hscan.
  specialize (Hscan r (proj2 (range_In _ _ _) Hr)).
  rewrite forallb_forall in Hscan.
  specialize (Hscan k (proj2 (range_In _ _ _) Hk)).
  rewrite He in Hscan.
  apply negb_true_iff in Hscan.
  unfold Js.ltb in Hscan. destruct (Rlt_dec (distance p e) m); [discriminate|].
  lra.
Qed.

(** A valid candidate lies in a readable cell. *)
Lemma valid_cell_in_grid s p :
  isValidPoint s p m W H = true ->
  In (cell_of c p) (all_cells gw gh).
Proof.
  intros Hv. apply valid_in_bounds in Hv as [[Hx0 Hx1] [Hy0 Hy1]].
  unfold cell_of. apply all_cells_In.
  pose proof (cell_pos m m_pos) as Hc.
  split; apply index_in_grid; assumption.
Qed.

(** A valid candidate lies in an empty cell: an occupant would belong to
    the same cell and so be closer than [minDistance]. *)
Lemma valid_cell_free points s p :
  Inv m W H points s ->
  isValidPoint s p m W H = true ->
  grid s (fst (cell_of c p)) (snd (cell_of c p)) = None.
Proof.
  intros HI Hv.
  destruct (grid s (fst (cell_of c p)) (snd (cell_of c p))) as [e|] eqn:He; [|reflexivity].
  exfalso.
  pose proof (valid_cell_in_grid s p Hv) as Hin.
  pose proof (inv_home _ _ _ _ _ HI _ _ _ He) as Hhome. fold c in Hhome.
  assert (Hd : (m <= distance p e)%R).
  { apply (valid_scan s p Hv (fst (cell_of c p)) (snd (cell_of c p)) e); [| |exact He];
      rewrite (inv_cell _ _ _ _ _ HI), ?(inv_gw _ _ _ _ _ HI), ?(inv_gh _ _ _ _ _ HI);
      fold c; fold gw; fold gh;
      destruct (cell_of c p) as [r k] eqn:Ec; apply all_cells_In in Hin;
      unfold cell_of in Ec; injection Ec as Er Ek; simpl; lia. }
  assert (Hclose : (distance p e < m)%R).
  { unfold cell_of in Hhome. simpl in Hhome. injection Hhome as Hy Hx.
    apply same_cell_close; [exact m_pos| |]; fold c; symmetry; assumption. }
  lra.
Qed.

Lemma FOP_snoc {A} (R : A -> A -> Prop) (l : list A) (a : A) :
  ForallOrdPairs R l -> Forall (fun b => R b a) l -> ForallOrdPairs R (l ++ [a]).
Proof.
  induction 1 as [|b l Hb Hl IH]; intros Hall; simpl.
  - repeat constructor.
  - inversion Hall as [|? ? Hba Hrest]; subst. constructor.
    + apply Forall_app. split; [exact Hb | repeat constructor; exact Hba].
    + apply IH. exact Hrest.
Qed.

Lemma tl_snoc {A} (l : list A) (a : A) q :
  In q (tl (l ++ [a])) -> In q (tl l) \/ (q = a /\ l <> []).
Proof.
  destruct l as [|b l]; simpl.
  - intros [].
  - intros Hin. apply in_app_or in Hin as [Hin|[Hin|[]]].
    + left. exact Hin.
    + right. split; [symmetry; exact Hin | discriminate].
Qed.

(** Accepting a valid candidate keeps the invariant. *)
Lemma addPoint_valid points s p :
  Inv m W H points s ->
  isValidPoint s p m W H = true ->
  exists s',
    addPoint p points s = Js.Ok (points ++ [p], s')
    /\ Inv m W H (points ++ [p]) s'
    /\ activeList s' = activeList s ++ [p]
    /\ rng s' = rng s.
Proof.
  intros HI Hv.
  pose proof (valid_cell_in_grid s p Hv) as Hin.
  pose proof (valid_cell_free points s p HI Hv) as Hfree.
  pose proof (valid_in_bounds s p Hv) as Hb.
  pose proof (valid_scan s p Hv) as Hscan.
  destruct HI as [Hc Hgw Hgh Hhome Hst Hnd Htl Hbd Hact Hex Hap].
  fold c in Hex. fold c gw gh in Hex. rewrite Hc, Hgw, Hgh in Hscan.
  fold c in Hscan. fold gw gh in Hscan.
  fold c in Hc, Hhome, Hst, Hnd, Htl. fold c gw in Hgw. fold c gh in Hgh.
  fold c gw gh in Htl.
  unfold addPoint. cbn [cellSize gridHeight set_activeList].
  rewrite Hc, Hgh.
  assert (Hrow : (0 <=? Js.floor (IZR (y p) / c))%Z
                 && (Js.floor (IZR (y p) / c) <? gh)%Z = true).
  { unfold cell_of in Hin. apply all_cells_In in Hin.
    apply andb_true_iff. split; [apply Z.leb_le | apply Z.ltb_lt]; lia. }
  rewrite Hrow.
  eexists. split; [reflexivity|]. split; [|split; reflexivity].
  constructor; cbn [cellSize gridWidth gridHeight grid activeList set_grid set_activeList];
    fold c; fold gw; fold gh; try assumption.
  - intros r k q.
    destruct ((r =? Js.floor (IZR (y p) / c))%Z && (k =? Js.floor (IZR (x p) / c))%Z) eqn:E.
    + intros Hq. injection Hq as <-. apply andb_true_iff in E as [E1 E2].
      apply Z.eqb_eq in E1, E2. subst. reflexivity.
    + apply Hhome.
  - intros q Hq.
    destruct ((fst (cell_of c q) =? Js.floor (IZR (y p) / c))%Z
              && (snd (cell_of c q) =? Js.floor (IZR (x p) / c))%Z) eqn:E; [discriminate|].
    apply in_app_or in Hq as [Hq|[<-|[]]].
    + apply Hst. exact Hq.
    + unfold cell_of in E. simpl in E. rewrite !Z.eqb_refl in E. discriminate.
  - rewrite map_app. apply NoDup_app; [exact Hnd | repeat constructor; intros [] |].
    intros a Ha [<-|[]].
    apply in_map_iff in Ha as [q [Eq Hq]].
    apply (Hst q Hq). rewrite Eq. exact Hfree.
  - intros q Hq. apply tl_snoc in Hq as [Hq|[-> _]]; [apply Htl; exact Hq | exact Hin].
  - intros q Hq. apply tl_snoc in Hq as [Hq|[-> _]]; [apply Hbd; exact Hq | exact Hb].
  - rewrite !length_app. simpl. lia.
  - intros q Hq Hqin.
    apply in_app_or in Hq as [Hq|[<-|[]]].
    + destruct ((fst (cell_of c q) =? Js.floor (IZR (y p) / c))%Z
                && (snd (cell_of c q) =? Js.floor (IZR (x p) / c))%Z) eqn:E.
      * exfalso. apply andb_true_iff in E as [E1 E2]. apply Z.eqb_eq in E1, E2.
        apply (Hst q Hq). rewrite E1, E2. exact Hfree.
      * apply Hex; assumption.
    + unfold cell_of. simpl. rewrite !Z.eqb_refl. reflexivity.
  - apply FOP_snoc; [exact Hap|].
    apply Forall_forall. intros q Hq Hqin. fold c gw gh in Hqin.
    pose proof (Hex q Hq Hqin) as Hgq.
    unfold cell_of in Hin, Hqin, Hgq. cbn [fst snd] in Hgq.
    apply all_cells_In in Hin, Hqin.
    rewrite distance_sym.
    set (rq := Js.floor (IZR (y q) / c)) in *. set (kq := Js.floor (IZR (x q) / c)) in *.
    set (rp := Js.floor (IZR (y p) / c)) in *. set (kp := Js.floor (IZR (x p) / c)) in *.
    destruct (Z_le_dec (rp - 2) rq) as [H1|H1];
      [destruct (Z_le_dec rq (rp + 2)) as [H2|H2];
       [destruct (Z_le_dec (kp - 2) kq) as [H3|H3];
        [destruct (Z_le_dec kq (kp + 2)) as [H4|H4]|]|]|].
    + apply (Hscan rq kq q); [lia | lia | exact Hgq].
    + apply far_cells_apart; [exact m_pos|]. fold c kp kq rp rq. lia.
    + apply far_cells_apart; [exact m_pos|]. fold c kp kq rp rq. lia.
    + apply far_cells_apart; [exact m_pos|]. fold c kp kq rp rq. lia.
    + apply far_cells_apart; [exact m_pos|]. fold c kp kq rp rq. lia.
Qed.

(** The [for] loop under the invariant: it cannot throw; it either finds
    nothing and leaves everything but the generator as it was, or appends
    exactly one point to the output and to the active list. *)
Lemma attempts_inv cb n : forall point points s,
  Inv m W H points s ->
  exists found points' s',
    attempts n point m W H cb points s = Js.Ok (found, points', s')
    /\ Inv m W H points' s'
    /\ (found = false -> points' = points /\ activeList s' = activeList s)
    /\ (found = true -> exists p, points' = points ++ [p]
                                 /\ activeList s' = activeList s ++ [p]).
Proof.
  induction n as [|n IH]; intros point points s HI.
  - exists false, points, s. simpl.
    split; [reflexivity|]. split; [exact HI|].
    split; [intros _; split; reflexivity | discriminate].
  - simpl. unfold with_rng.
    destruct (generateRandomPointAround point m W H cb (rng s)) as [newPoint r1] eqn:Eg.
    rewrite isValidPoint_set_rng.
    destruct (isValidPoint s newPoint m W H) eqn:Ev.
    + destruct (addPoint_valid points (set_rng s r1) newPoint) as [s2 [E2 [HI2 [Ha2 _]]]].
      * apply Inv_set_rng. exact HI.
      * rewrite isValidPoint_set_rng. exact Ev.
      * rewrite E2. exists true, (points ++ [newPoint]), s2.
        split; [reflexivity|]. split; [exact HI2|].
        split; [discriminate|].
        intros _. exists newPoint. split; [reflexivity | exact Ha2].
    + destruct (IH point points (set_rng s r1) (Inv_set_rng _ _ r1 HI))
        as [found [points' [s' [E [HI' [Hf Ht]]]]]].
      exists found, points', s'.
      split; [exact E|]. split; [exact HI'|]. split; [exact Hf | exact Ht].
Qed.

Lemma array_get_Some {T} (l : list T) (i : Z) :
  (0 <= i < Z.of_nat (length l))%Z -> exists a, array_get l i = Some a.
Proof.
  intros Hi. unfold array_get.
  destruct (i <? 0)%Z eqn:E; [apply Z.ltb_lt in E; lia|].
  destruct (nth_error l (Z.to_nat i)) as [a|] eqn:En; [exists a; reflexivity|].
  apply nth_error_None in En. lia.
Qed.

Lemma splice1_length {T} (l : list T) (i : Z) :
  (0 <= i < Z.of_nat (length l))%Z -> S (length (splice1 l i)) = length l.
Proof.
  intros Hi. unfold splice1.
  rewrite length_app, length_firstn, length_skipn. lia.
Qed.

(** One pass through the loop body under the invariant: no exception,
    the invariant again, the output only extended, and a smaller
    measure. *)
Lemma while_body_inv ma cb points s :
  Inv m W H points s ->
  activeList s <> [] ->
  exists points' s',
    while_body m W H ma cb points s = Js.Ok (points', s')
    /\ Inv m W H points' s'
    /\ (exists ext, points' = points ++ ext)
    /\ ((points' = points /\ S (length (activeList s')) = length (activeList s))
        \/ (length points' = S (length points)
            /\ length (activeList s') = S (length (activeList s)))).
Proof.
  intros HI Hne. unfold while_body, with_rng.
  destruct (nextInt 0 (Z.of_nat (length (activeList s))) (rng s)) as [idx r1] eqn:Ei.
  assert (Hidx : (0 <= idx < Z.of_nat (length (activeList s)))%Z).
  { pose proof (nextInt_range 0 (Z.of_nat (length (activeList s))) (rng s)) as Hr.
    rewrite Ei in Hr. simpl in Hr. apply Hr.
    destruct (activeList s); [contradiction | simpl; lia]. }
  cbn [activeList set_rng].
  destruct (array_get_Some (activeList s) idx Hidx) as [point Ep]. rewrite Ep.
  destruct (attempts_inv cb (attempt_count ma) point points (set_rng s r1)
              (Inv_set_rng _ _ r1 HI))
    as [found [points' [s2 [E [HI2 [Hf Ht]]]]]].
  rewrite E. destruct found.
  - destruct (Ht eq_refl) as [p [-> Ha]]. cbn [activeList set_rng] in Ha.
    exists (points ++ [p]), s2. split; [reflexivity|]. split; [exact HI2|].
    split; [exists [p]; reflexivity|]. right.
    rewrite Ha, !length_app. simpl. lia.
  - destruct (Hf eq_refl) as [-> Ha]. cbn [activeList set_rng] in Ha.
    exists points, (set_activeList s2 (splice1 (activeList s2) idx)).
    split; [reflexivity|].
    assert (Hlen : S (length (splice1 (activeList s2) idx)) = length (activeList s)).
    { rewrite Ha. apply splice1_length. exact Hidx. }
    split.
    + destruct HI2 as [? ? ? ? ? ? ? ? Hact ? ?]. rewrite Ha in Hact.
      constructor; cbn [cellSize gridWidth gridHeight grid activeList set_activeList];
        try assumption. lia.
    + split; [exists []; symmetry; apply app_nil_r|]. left.
      split; [reflexivity | exact Hlen].
Qed.

(** The output never has more points than one per readable cell, plus
    the first point. *)
Lemma Inv_length points s :
  Inv m W H points s -> (length points <= S (length (all_cells gw gh)))%nat.
Proof.
  intros HI. destruct points as [|p0 rest]; [simpl; lia|].
  simpl. apply le_n_S.
  pose proof (inv_nodup _ _ _ _ _ HI) as Hnd. pose proof (inv_tail _ _ _ _ _ HI) as Htl.
  simpl in Hnd, Htl. fold c gw gh in Hnd, Htl.
  apply NoDup_cons_iff in Hnd as [_ Hnd].
  rewrite <- (length_map (cell_of c) rest).
  apply NoDup_incl_length; [exact Hnd|].
  intros a Ha. apply in_map_iff in Ha as [q [<- Hq]]. apply Htl. exact Hq.
Qed.

(** The loop terminates: with fuel above the measure it returns a list,
    which extends the output so far and satisfies the invariant. *)
Lemma while_active_terminates ma cb : forall fuel points s,
  Inv m W H points s ->
  (measure m W H points s < fuel)%nat ->
  exists l r s',
    while_active fuel m W H ma cb points s = Some (Js.Ok l, r)
    /\ (exists ext, l = points ++ ext)
    /\ Inv m W H l s' /\ activeList s' = [] /\ rng s' = r.
Proof.
  induction fuel as [|fuel IH]; intros points s HI Hlt; [lia|].
  simpl. destruct (activeList s) as [|a rest] eqn:Ea.
  - exists points, (rng s), s. split; [reflexivity|].
    split; [exists []; symmetry; apply app_nil_r|].
    split; [exact HI|]. split; [exact Ea | reflexivity].
  - destruct (while_body_inv ma cb points s HI) as [points' [s' [E [HI' [[ext Hext] Hm]]]]].
    { rewrite Ea. discriminate. }
    rewrite E.
    pose proof (Inv_length _ _ HI') as Hlen'.
    destruct (IH points' s' HI') as [l [r [sf [El [[ext' Hext'] Hfin]]]]].
    { unfold measure in *. fold c gw gh in Hlt, Hlen' |- *.
      rewrite Ea in Hm, Hlt. cbn [length] in Hm, Hlt.
      pose proof (Inv_length _ _ HI) as Hlen.
      destruct Hm as [[-> Hm]|[Hm1 Hm2]]; lia. }
    exists l, r, sf. split; [exact El|]. split; [|exact Hfin].
    exists (ext ++ ext'). rewrite Hext', Hext. symmetry. apply app_assoc.
Qed.

(** More fuel does not change a result. *)
Lemma while_active_mono ma cb : forall fuel fuel' points s out,
  while_active fuel m W H ma cb points s = Some out ->
  (fuel <= fuel')%nat ->
  while_active fuel' m W H ma cb points s = Some out.
Proof.
  induction fuel as [|fuel IH]; intros fuel' points s out E Hle; [discriminate|].
  destruct fuel' as [|fuel']; [lia|].
  simpl in E |- *. destruct (activeList s); [exact E|].
  destruct (while_body m W H ma cb points s) as [[points' s']|e]; [|exact E].
  apply IH; [exact E | lia].
Qed.

(** [sample] past its grid allocation. *)
Lemma sample_started fuel ma cb r0 :
  (0 <= gh <= 4294967295)%Z -> (0 < gh -> 0 <= gw <= 4294967295)%Z ->
  sample fuel (mkConfig W H m ma cb) r0 =
    let (firstPoint, r1) :=
      generateRandomPoint W H (match cb with Some b => b | None => 0%R end) r0 in
    match addPoint firstPoint [] (fresh_sampler m W H r1) with
    | Js.Throw e => Some (Js.Throw e, r1)
    | Js.Ok (points, s) =>
        while_active fuel m W H (match ma with Some n => n | None => 30%R end)
                     (match cb with Some b => b | None => 0%R end) points s
    end.
Proof.
  intros Hgh Hgw. unfold sample. cbn [width height minDistance maxAttempts centerBias].
  fold c. destruct (Req_dec_T c 0) as [E|_].
  { pose proof (cell_pos m m_pos) as Hc. fold c in Hc. lra. }
  fold gw gh.
  assert (Ealloc : negb (valid_length gh) || (0 <? gh)%Z && negb (valid_length gw) = false).
  { unfold valid_length. apply orb_false_iff. split.
    - apply negb_false_iff, andb_true_iff. split; apply Z.leb_le; lia.
    - destruct (0 <? gh)%Z eqn:E; [|reflexivity]. apply Z.ltb_lt in E.
      simpl. apply negb_false_iff, andb_true_iff. split; apply Z.leb_le; apply Hgw in E; lia. }
  rewrite Ealloc. unfold with_rng. cbn [rng set_rng].
  destruct (generateRandomPoint W H _ r0) as [p0 r1].
  reflexivity.
Qed.

(** [sample] stopped by its grid allocation. *)
Lemma sample_bad_length fuel ma cb r0 :
  (gh < 0 \/ (0 < gh /\ gw < 0))%Z ->
  sample fuel (mkConfig W H m ma cb) r0 = Some (Js.Throw Js.RangeError, r0).
Proof.
  intros Hbad. unfold sample. cbn [width height minDistance maxAttempts centerBias].
  fold c. destruct (Req_dec_T c 0) as [E|_]; [reflexivity|].
  fold gw gh.
  assert (Ealloc : negb (valid_length gh) || (0 <? gh)%Z && negb (valid_length gw) = true).
  { unfold valid_length. apply orb_true_iff. destruct Hbad as [Hb|[Hb1 Hb2]].
    - left. apply negb_true_iff, andb_false_iff. left. apply Z.leb_gt. exact Hb.
    - right. apply andb_true_iff. split; [apply Z.ltb_lt; exact Hb1|].
      apply negb_true_iff, andb_false_iff. left. apply Z.leb_gt. exact Hb2. }
  rewrite Ealloc. reflexivity.
Qed.

(** [sample] stopped by a grid dimension above the largest array
    length. *)
Lemma sample_oversized fuel ma cb r0 :
  (4294967295 < gh \/ (0 < gh /\ 4294967295 < gw))%Z ->
  sample fuel (mkConfig W H m ma cb) r0 = Some (Js.Throw Js.RangeError, r0).
Proof.
  intros Hbad. unfold sample. cbn [width height minDistance maxAttempts centerBias].
  fold c. destruct (Req_dec_T c 0) as [E|_]; [reflexivity|].
  fold gw gh.
  assert (Ealloc : negb (valid_length gh) || (0 <? gh)%Z && negb (valid_length gw) = true).
  { unfold valid_length. apply orb_true_iff. destruct Hbad as [Hb|[Hb1 Hb2]].
    - left. apply negb_true_iff, andb_false_iff. right. apply Z.leb_gt. exact Hb.
    - right. apply andb_true_iff. split; [apply Z.ltb_lt; exact Hb1|].
      apply negb_true_iff, andb_false_iff. right. apply Z.leb_gt. exact Hb2. }
  rewrite Ealloc. reflexivity.
Qed.

(** Storing the first point: a [TypeError] when its row does not exist,
    and otherwise the invariant with which the loop starts. *)
Lemma addPoint_first r p0 :
  let row := Js.floor (IZR (y p0) / c) in
  ((0 <= row < gh)%Z ->
     exists s, addPoint p0 [] (fresh_sampler m W H r) = Js.Ok ([p0], s)
               /\ Inv m W H [p0] s /\ activeList s = [p0] /\ rng s = r
               /\ forall gy gx, grid s gy gx =
                     if ((gy =? row) && (gx =? Js.floor (IZR (x p0) / c)))%Z
                     then Some p0 else None)
  /\ (~ (0 <= row < gh)%Z ->
     addPoint p0 [] (fresh_sampler m W H r) = Js.Throw Js.TypeError).
Proof.
  intros row. unfold addPoint, fresh_sampler.
  cbn [cellSize gridHeight set_activeList activeList]. fold c gh row. split; intros Hrow.
  - assert (E : (0 <=? row)%Z && (row <? gh)%Z = true).
    { apply andb_true_iff. split; [apply Z.leb_le | apply Z.ltb_lt]; lia. }
    rewrite E. eexists. split; [reflexivity|].
    split; [|split; [reflexivity | split; [reflexivity | reflexivity]]].
    constructor; cbn [cellSize gridWidth gridHeight grid activeList set_grid set_activeList];
      fold c; fold gw; fold gh; try reflexivity.
    + intros r' k q.
      destruct ((r' =? row)%Z && (k =? Js.floor (IZR (x p0) / c))%Z) eqn:Ek; [|discriminate].
      intros Hq. injection Hq as <-. apply andb_true_iff in Ek as [E1 E2].
      apply Z.eqb_eq in E1, E2. subst r' k. reflexivity.
    + intros q [<-|[]]. unfold cell_of. simpl. fold row. rewrite !Z.eqb_refl. discriminate.
    + repeat constructor. intros [].
    + intros q [].
    + intros q [].
    + intros q [<-|[]] _. unfold cell_of. simpl. fold row. rewrite !Z.eqb_refl. reflexivity.
    + repeat constructor.
  - assert (E : (0 <=? row)%Z && (row <? gh)%Z = false).
    { apply andb_false_iff.
      destruct (Z.leb_spec 0 row); [right; apply Z.ltb_ge; lia | left; reflexivity]. }
    rewrite E. reflexivity.
Qed.

(** Every run of [sample] with a positive [minDistance] ends: for all
    fuel above a bound that depends on the grid size only, it throws
    while allocating the grid or storing the first point, or it returns a
    list that starts with the first point and satisfies the invariant. *)
Lemma sample_total ma cb r0 :
  let centerBias := match cb with Some b => b | None => 0%R end in
  let p0 := fst (generateRandomPoint W H centerBias r0) in
  forall fuel, (2 * S (length (all_cells gw gh)) < fuel)%nat ->
    sample fuel (mkConfig W H m ma cb) r0 = Some (Js.Throw Js.RangeError, r0)
    \/ (~ (0 <= Js.floor (IZR (y p0) / c) < gh)%Z
        /\ exists r, sample fuel (mkConfig W H m ma cb) r0 = Some (Js.Throw Js.TypeError, r))
    \/ exists ext r s,
         sample fuel (mkConfig W H m ma cb) r0 = Some (Js.Ok (p0 :: ext), r)
         /\ Inv m W H (p0 :: ext) s.
Proof.
  intros centerBias p0 fuel Hfuel.
  destruct (Z_lt_dec gh 0) as [Hgh|Hgh].
  { left. apply sample_bad_length. left. exact Hgh. }
  destruct (Z_lt_dec 4294967295 gh) as [Hgh2|Hgh2].
  { left. apply sample_oversized. left. exact Hgh2. }
  destruct (Z_lt_dec 0 gh) as [Hgh'|Hgh'].
  2:{ right. left.
      assert (Hrow : ~ (0 <= Js.floor (IZR (y p0) / c) < gh)%Z) by lia.
      split; [exact Hrow|].
      rewrite sample_started by lia. fold centerBias.
      unfold p0 in Hrow. destruct (generateRandomPoint W H centerBias r0) as [q r1].
      simpl in Hrow. rewrite (proj2 (addPoint_first r1 q) Hrow). eexists. reflexivity. }
  destruct (Z_lt_dec gw 0) as [Hgw|Hgw].
  { left. apply sample_bad_length. right. split; assumption. }
  destruct (Z_lt_dec 4294967295 gw) as [Hgw2|Hgw2].
  { left. apply sample_oversized. right. split; assumption. }
  right. rewrite sample_started by lia. fold centerBias.
  unfold p0. destruct (generateRandomPoint W H centerBias r0) as [q r1]. simpl.
  destruct (addPoint_first r1 q) as [Hok Hthrow].
  destruct (Z_lt_dec (Js.floor (IZR (y q) / c)) 0) as [Hr0|Hr0].
  { left. assert (Hrow : ~ (0 <= Js.floor (IZR (y q) / c) < gh)%Z) by lia.
    split; [exact Hrow|]. rewrite (Hthrow Hrow). eexists. reflexivity. }
  destruct (Z_lt_dec (Js.floor (IZR (y q) / c)) gh) as [Hr1|Hr1].
  2:{ left. assert (Hrow : ~ (0 <= Js.floor (IZR (y q) / c) < gh)%Z) by lia.
      split; [exact Hrow|]. rewrite (Hthrow Hrow). eexists. reflexivity. }
  right. destruct Hok as [s [E [HI [Ha [Hr _]]]]]; [lia|]. rewrite E.
  destruct (while_active_terminates
              (match ma with Some n => n | None => 30%R end) centerBias fuel [q] s HI)
    as [l [r [sf [El [[ext Hext] [HIl _]]]]]].
  { unfold measure. fold c gw gh. rewrite Ha. simpl. simpl in Hfuel. lia. }
  exists ext, r, sf. rewrite El. subst l. split; [reflexivity | exact HIl].
Qed.

End SamplerInvariant.

(** ** The generator: range, purity, and the circle transform *)

Section GeneratorProperties.

Import Random.
#[local] Open Scope R_scope.

(** The first five words of the stream for seed 42; [next] returns each
    divided by 2^32. *)
Example stream_42 :
  map (fun n => temper (after (S n) (createRandom 42))) (seq 0 5)
  = [2581720956; 1925393290; 3661312704; 2876485805; 750819978]%Z.
Proof.
  unfold createRandom. cbn [map seq]. rewrite !after_closed_form.
  vm_compute. reflexivity.
Qed.

(** C6.  For every seed (zero and negative integers included) the
    generator is created without failure, and the call of [next] that
    follows [n] earlier calls returns a number in [0, 1) that is a
    function of the seed and of [n] alone: the tempering of the 32-bit
    word [seed + (n + 1) * 0x6d2b79f5]. *)
Theorem next_unit_interval_pure (seed : Z) (n : nat) :
  let rng := createRandom seed in
  let word := Js.toInt32 (seed + (Z.of_nat n + 1) * 0x6d2b79f5) in
  0 <= draw rng n < 1
  /\ draw rng n = IZR (temper word) / 4294967296
  /\ after (S n) rng = word.
Proof.
  intros rng word. split; [apply draw_range|].
  assert (Hword : after (S n) rng = word) by apply after_closed_form.
  split; [|exact Hword].
  unfold draw. rewrite next_fst, <- after_S, Hword. reflexivity.
Qed.

(** [pointInCircle] in terms of the two draws it takes. *)
Lemma pointInCircle_eq (radius : R) (rng : Mulberry32) :
  pointInCircle radius rng
  = ({| vx := cos (draw rng 0 * (PI * 2)) * (sqrt (draw rng 1) * radius);
        vy := sin (draw rng 0 * (PI * 2)) * (sqrt (draw rng 1) * radius) |},
     after 2 rng).
Proof.
  unfold pointInCircle, bind, ret. rewrite nextFloat_eq, next_eq.
  rewrite draw_after. simpl Nat.add.
  replace (draw rng 0 * (PI * 2 - 0) + 0) with (draw rng 0 * (PI * 2)) by ring.
  apply f_equal2; [reflexivity | symmetry; apply (after_add 1 1)].
Qed.

(** C7.  [pointInCircle(radius)] takes exactly two numbers from the
    generator: the first is scaled to the angle, the second goes through
    the square root before it is scaled by the radius.  The squared
    distance of the point from the centre is therefore the second draw
    times [radius^2]. *)
Theorem pointInCircle_two_draws_sqrt (radius : R) (rng : Mulberry32) :
  let angle := draw rng 0 * (PI * 2) in
  let r := sqrt (draw rng 1) * radius in
  pointInCircle radius rng = ({| vx := cos angle * r; vy := sin angle * r |}, after 2 rng)
  /\ vx (fst (pointInCircle radius rng)) ^ 2 + vy (fst (pointInCircle radius rng)) ^ 2
     = draw rng 1 * radius ^ 2.
Proof.
  intros angle r.
  pose proof (pointInCircle_eq radius rng) as E. fold angle in E. fold r in E.
  split; [exact E|].
  rewrite E. simpl fst. cbn [vx vy].
  pose proof (draw_range rng 1) as [Hu _].
  pose proof (sin2_cos2 angle) as Hsc. unfold Rsqr in Hsc.
  pose proof (sqrt_sqrt (draw rng 1) Hu) as Hs.
  unfold r.
  replace ((cos angle * (sqrt (draw rng 1) * radius)) ^ 2
           + (sin angle * (sqrt (draw rng 1) * radius)) ^ 2)
    with ((sin angle * sin angle + cos angle * cos angle)
          * (sqrt (draw rng 1) * sqrt (draw rng 1)) * radius ^ 2) by ring.
  rewrite Hsc, Hs. ring.
Qed.

End GeneratorProperties.

(** ** The density formula *)

Section DensityFormula.

Import Poisson.
#[local] Open Scope R_scope.

(** Evaluates the binary64 operations of a count and the integer powers
    in the value that results. *)
Ltac binary64_eval :=
  unfold calculatePointCount, Js.round64, Js.float_value;
  repeat match goal with
         | |- context [FloatOps.Prim2SF ?f] =>
             let v := eval vm_compute in (FloatOps.Prim2SF f) in
             replace (FloatOps.Prim2SF f) with v by (vm_compute; reflexivity)
         end;
  cbv beta iota zeta;
  repeat match goal with
         | |- context [(0 <=? ?e)%Z] =>
             let b := eval vm_compute in (0 <=? e)%Z in
             change (0 <=? e)%Z with b
         end;
  cbv beta iota;
  repeat match goal with
         | |- context [IZR (?a ^ ?b)] =>
             let v := eval vm_compute in (a ^ b)%Z in
             change (a ^ b)%Z with v
         | |- context [IZR (?a * ?b)] =>
             let v := eval vm_compute in (a * b)%Z in
             change (a * b)%Z with v
         end;
  cbn [option_map].

(** C9, refuted as stated.  The count is not the rounding of
    [densityPerK * width * height / 1000].  For a 150 x 75 canvas at
    density 2.8 that number is 31.5, which rounds to 32; the code
    multiplies and divides in binary64, gets 8866461766385663 / 2^48
    (just below 31.5) and returns 31.  Taking the density to be the
    binary64 number that the literal [2.8] denotes does not save the
    formula: for a 50 x 25 canvas its exact value is just below 3.5 and
    rounds to 3, while the binary64 product is 3500, the quotient 3.5,
    and the code returns 4. *)
Lemma calculatePointCount_off_by_one :
  calculatePointCount (Js.number 150 0) (Js.number 75 0) density_2_8 = Some 31%Z
  /\ Js.round (28 / 10 * 150 * 75 / 1000) = 32%Z
  /\ calculatePointCount (Js.number 50 0) (Js.number 25 0) density_2_8 = Some 4%Z
  /\ Js.float_value density_2_8 = Some (6305039478318694 / 2251799813685248)
  /\ Js.round (6305039478318694 / 2251799813685248 * 50 * 25 / 1000) = 3%Z.
Proof.
  unfold density_2_8.
  split; [|split; [|split; [|split]]].
  - binary64_eval. f_equal. apply round_eq. lra.
  - apply round_eq. lra.
  - binary64_eval. f_equal. apply round_eq. lra.
  - binary64_eval. reflexivity.
  - apply round_eq. lra.
Qed.

(** C9, amended.  [calculatePointCount] is [Math.round] of the binary64
    quotient [(densityPerK * (width * height)) / 1000], each of the three
    operations rounded to binary64: whenever that quotient is finite the
    count is the integer nearest to its exact value, a half going up,
    and otherwise it is no integer.  For a 1000 x 1000 canvas at density
    2.8 the count is 2800. *)
Theorem calculatePointCount_binary64 :
  (forall width height densityPerK : Js.binary64,
     let quotient :=
       PrimFloat.div (PrimFloat.mul densityPerK (PrimFloat.mul width height))
                     (Js.number 1000 0) in
     match calculatePointCount width height densityPerK, Js.float_value quotient with
     | Some n, Some v => IZR n - / 2 <= v < IZR n + / 2
     | None, None => True
     | _, _ => False
     end)
  /\ calculatePointCount (Js.number 1000 0) (Js.number 1000 0) density_2_8 = Some 2800%Z.
Proof.
  split.
  - intros width height densityPerK quotient.
    unfold calculatePointCount, Js.round64. fold quotient.
    destruct (Js.float_value quotient) as [v|]; cbn [option_map]; [|exact I].
    apply round_bound.
  - unfold density_2_8. binary64_eval. f_equal. apply round_eq. lra.
Qed.

End DensityFormula.

(** ** The sampler: runs in which no candidate is accepted *)

Section SolitaryRun.

Import Random Poisson SamplerSpec.
#[local] Open Scope R_scope.

Variables m W H cb : R.

(** The shape of a candidate: both coordinates are clamped, then
    rounded. *)
Lemma candidate_shape q r :
  exists X Y,
    generateRandomPointAround q m W H cb r
    = ({| x := Js.round (Js.max 0 (Js.min (W - 1) X));
          y := Js.round (Js.max 0 (Js.min (H - 1) Y)) |},
       after (draws_per_candidate cb) r).
Proof.
  unfold generateRandomPointAround, draws_per_candidate.
  rewrite (nextFloat_eq 0 (PI * 2) r). cbv beta iota.
  rewrite (nextFloat_eq m (m * 2) (after 1 r)). cbv beta iota zeta.
  destruct (Js.ltb 0 cb);
    [unfold bind, ret; rewrite next_eq; cbv beta iota zeta|];
    (eexists; eexists; apply f_equal2; [reflexivity | after_norm; reflexivity]).
Qed.

Lemma round_clamp_nonneg lim v : (0 <= Js.round (Js.max 0 (Js.min lim v)))%Z.
Proof.
  unfold Js.round, Js.max. apply Zfloor_lub.
  pose proof (Rmax_l 0 (Js.min lim v)). simpl. lra.
Qed.

Lemma round_clamp_le (k : Z) v : (0 <= k)%Z -> (Js.round (Js.max 0 (Js.min (IZR k) v)) <= k)%Z.
Proof.
  intros Hk. rewrite <- (round_IZR k) at 2. unfold Js.round, Js.max, Js.min.
  apply Zfloor_le.
  assert (Rmax 0 (Rmin (IZR k) v) <= IZR k); [|lra].
  apply Rmax_lub; [apply IZR_le; exact Hk | apply Rmin_l].
Qed.

Lemma round_clamp_zero lim v : lim <= 0 -> Js.round (Js.max 0 (Js.min lim v)) = 0%Z.
Proof.
  intros Hlim. unfold Js.max, Js.min.
  replace (Rmax 0 (Rmin lim v)) with 0; [apply (round_IZR 0)|].
  symmetry. apply Rmax_left. pose proof (Rmin_l lim v). lra.
Qed.


Lemma set_rng_rng s : set_rng s (rng s) = s.
Proof. destruct s. reflexivity. Qed.

(** When no candidate can be valid in the grid of [s], the [for] loop
    runs all its [n] attempts, finds nothing, and only advances the
    generator. *)
Lemma attempts_rejected s :
  (forall q r, isValidPoint s (fst (generateRandomPointAround q m W H cb r)) m W H = false) ->
  forall n point points r,
    attempts n point m W H cb points (set_rng s r)
    = Js.Ok (false, points, set_rng s (after (n * draws_per_candidate cb) r)).
Proof.
  intros Hrej. induction n as [|n IH]; intros point points r; [reflexivity|].
  simpl attempts. unfold with_rng. cbn [rng set_rng].
  pose proof (Hrej point r) as Hr.
  destruct (candidate_shape point r) as [X [Y E]]. rewrite E in Hr |- *.
  simpl fst in Hr.
  rewrite !isValidPoint_set_rng, Hr.
  change (set_rng (set_rng s r) (after (draws_per_candidate cb) r))
    with (set_rng s (after (draws_per_candidate cb) r)).
  rewrite IH. after_norm.
  replace (S n * draws_per_candidate cb)%nat
    with (draws_per_candidate cb + n * draws_per_candidate cb)%nat by lia.
  reflexivity.
Qed.

Lemma attempts_S n point points s :
  attempts (S n) point m W H cb points s
  = let (newPoint, s1) :=
      with_rng (generateRandomPointAround point m W H cb) s in
    if isValidPoint s1 newPoint m W H
    then match addPoint newPoint points s1 with
         | Js.Ok (points', s2) => Js.Ok (true, points', s2)
         | Js.Throw e => Js.Throw e
         end
    else attempts n point m W H cb points s1.
Proof. reflexivity. Qed.

Lemma while_active_S fuel ma points s :
  while_active (S fuel) m W H ma cb points s
  = match activeList s with
    | [] => Some (Js.Ok points, rng s)
    | _ :: _ =>
        match while_body m W H ma cb points s with
        | Js.Throw e => Some (Js.Throw e, rng s)
        | Js.Ok (points', s') => while_active fuel m W H ma cb points' s'
        end
    end.
Proof. reflexivity. Qed.

(** The loop body on a single active point whose candidates are all
    rejected (or which gets no attempt at all): one index draw, the
    attempts, and the removal of the point from the active list. *)
Lemma solitary_body ma s p0 :
  activeList s = [p0] ->
  (attempt_count ma = O
   \/ forall q r, isValidPoint s (fst (generateRandomPointAround q m W H cb r)) m W H = false) ->
  while_body m W H ma cb [p0] s
  = Js.Ok ([p0],
           set_activeList
             (set_rng s (after (1 + attempt_count ma * draws_per_candidate cb) (rng s))) []).
Proof.
  intros Ha Hrej.
  unfold while_body, with_rng. rewrite Ha. cbn [length]. change (Z.of_nat 1) with 1%Z.
  pose proof (nextInt_range 0 1 (rng s) ltac:(lia)) as Hidx.
  rewrite nextInt_eq in Hidx |- *. cbn [fst] in Hidx.
  match type of Hidx with (_ <= ?i < _)%Z => assert (E0 : i = 0%Z) by lia; rewrite E0 end.
  clear Hidx E0.
  cbn [activeList set_rng]. rewrite Ha.
  change (array_get [p0] 0) with (Some p0). cbv beta iota.
  assert (Eatt : attempts (attempt_count ma) p0 m W H cb [p0] (set_rng s (after 1 (rng s)))
                 = Js.Ok (false, [p0],
                          set_rng s (after (attempt_count ma * draws_per_candidate cb)
                                           (after 1 (rng s))))).
  { destruct Hrej as [E0|Hrej].
    - rewrite E0. reflexivity.
    - apply attempts_rejected. exact Hrej. }
  rewrite Eatt. cbn [activeList set_rng]. rewrite Ha.
  change (splice1 [p0] 0) with (@nil Point).
  after_norm. reflexivity.
Qed.

(** The whole loop in that case: the output is the single point. *)
Lemma solitary_run ma s p0 fuel :
  activeList s = [p0] ->
  (attempt_count ma = O
   \/ forall q r, isValidPoint s (fst (generateRandomPointAround q m W H cb r)) m W H = false) ->
  (2 <= fuel)%nat ->
  while_active fuel m W H ma cb [p0] s
  = Some (Js.Ok [p0], after (1 + attempt_count ma * draws_per_candidate cb) (rng s)).
Proof.
  intros Ha Hrej Hfuel.
  destruct fuel as [|[|fuel]]; [lia | lia |].
  rewrite while_active_S, Ha, (solitary_body ma s p0 Ha Hrej).
  rewrite while_active_S. reflexivity.
Qed.

End SolitaryRun.

(** ** The sampler: the first point *)

Section FirstPoint.

Import Random Poisson SamplerSpec.
#[local] Open Scope R_scope.

Lemma sqrt2_lt_2 : sqrt 2 < 2.
Proof. pose proof sqrt2_pos. pose proof sqrt2_sq. nra. Qed.

Lemma sqrt2_gt_1 : 1 < sqrt 2.
Proof. pose proof sqrt2_pos. pose proof sqrt2_sq. nra. Qed.

Lemma Zceil_IZR (z : Z) : Zceil (IZR z) = z.
Proof. apply Zceil_eq. lra. Qed.

Lemma attempt_count_30 : attempt_count 30 = 30%nat.
Proof. unfold attempt_count, Js.ceil. rewrite Zceil_IZR. reflexivity. Qed.


(** Without centre bias the first point takes two numbers: [x] from the
    first, [y] from the second. *)
Lemma generateRandomPoint_unbiased W H cb r :
  cb <= 0 ->
  generateRandomPoint W H cb r
  = ({| x := Js.round (draw r 0 * W); y := Js.round (draw r 1 * H) |}, after 2 r).
Proof.
  intros Hcb. unfold generateRandomPoint. rewrite (ltb_false 0 cb Hcb).
  unfold bind, ret. rewrite (nextFloat_eq 0 W r). cbv beta iota.
  rewrite (nextFloat_eq 0 H (after 1 r)). cbv beta iota.
  rewrite draw_after. after_norm. cbn [Nat.add].
  replace (draw r 0 * (W - 0) + 0) with (draw r 0 * W) by ring.
  replace (draw r 1 * (H - 0) + 0) with (draw r 1 * H) by ring.
  reflexivity.
Qed.

(** The rounding of [u * extent] for a draw [u] lies in [0, extent], the
    upper end included. *)
Lemma round_scaled_range (u : R) (k : Z) :
  0 <= u < 1 -> (0 <= k)%Z -> (0 <= Js.round (u * IZR k) <= k)%Z.
Proof.
  intros [Hu0 Hu1] Hk. apply IZR_le in Hk.
  pose proof (round_bound (u * IZR k)) as [Hb1 Hb2].
  assert (H0 : 0 <= u * IZR k) by (apply Rmult_le_pos; assumption).
  assert (H1 : u * IZR k <= IZR k) by nra.
  split.
  - apply Zfloor_lub. simpl. lra.
  - assert (Js.round (u * IZR k) < k + 1)%Z; [|lia].
    apply lt_IZR. rewrite plus_IZR. lra.
Qed.

(** With centre bias on a 1 x 1 canvas, and without it, the first point
    has both coordinates in {0, 1}. *)
Lemma first_point_unit_canvas cb r :
  let p0 := fst (generateRandomPoint 1 1 cb r) in
  (0 <= x p0 <= 1)%Z /\ (0 <= y p0 <= 1)%Z.
Proof.
  intros p0. assert (Hp : p0 = fst (generateRandomPoint 1 1 cb r)) by reflexivity.
  clearbody p0. unfold generateRandomPoint in Hp.
  destruct (Js.ltb 0 cb) eqn:Ecb.
  - unfold bind at 1 in Hp. unfold ret at 1 in Hp. rewrite next_eq in Hp.
    cbv beta iota in Hp.
    destruct (Js.ltb (draw r 0) cb).
    + unfold bind, ret in Hp.
      rewrite (pointInCircle_eq (Js.min 1 1 * (3 / 10)) (after 1 r)) in Hp. cbv beta iota in Hp. cbn [fst vx vy] in Hp.
      subst p0. cbn [x y].
      set (a := draw (after 1 r) 0 * (PI * 2)).
      pose proof (draw_range (after 1 r) 1) as [Hu0 Hu1].
      set (u := draw (after 1 r) 1) in *.
      assert (Hs : 0 <= sqrt u <= 1).
      { split; [apply sqrt_pos|]. rewrite <- sqrt_1. apply sqrt_le_1_alt. lra. }
      assert (Emin : Js.min 1 1 = 1) by (unfold Js.min; apply Rmin_left; lra).
      rewrite Emin.
      assert (Hbound : forall t, -1 <= t <= 1 ->
                (0 <= Js.round (1 / 2 + t * (sqrt u * (1 * (3 / 10)))) <= 1)%Z).
      { intros t Ht.
        assert (Hv : -(3/10) <= t * (sqrt u * (1 * (3 / 10))) <= 3/10) by nra.
        pose proof (round_bound (1 / 2 + t * (sqrt u * (1 * (3 / 10))))) as [Hb1 Hb2].
        split.
        - apply Zfloor_lub. simpl. lra.
        - assert (Js.round (1 / 2 + t * (sqrt u * (1 * (3 / 10)))) < 1 + 1)%Z; [|lia].
          apply lt_IZR. rewrite plus_IZR. lra. }
      split; apply Hbound; [apply COS_bound | apply SIN_bound].
    + unfold bind, ret in Hp. rewrite !nextFloat_eq in Hp. cbv beta iota in Hp.
      cbn [fst] in Hp. subst p0. cbn [x y].
      replace (draw (after 1 r) 0 * (1 - 0) + 0) with (draw (after 1 r) 0 * IZR 1) by ring.
      replace (draw (after 1 (after 1 r)) 0 * (1 - 0) + 0)
        with (draw (after 1 (after 1 r)) 0 * IZR 1) by ring.
      split; apply round_scaled_range; try lia; apply draw_range.
  - unfold bind, ret in Hp. rewrite !nextFloat_eq in Hp. cbv beta iota in Hp.
    cbn [fst] in Hp. subst p0. cbn [x y].
    replace (draw r 0 * (1 - 0) + 0) with (draw r 0 * IZR 1) by ring.
    replace (draw (after 1 r) 0 * (1 - 0) + 0) with (draw (after 1 r) 0 * IZR 1) by ring.
    split; apply round_scaled_range; try lia; apply draw_range.
Qed.

End FirstPoint.

(** ** The sampler on a canvas smaller than one cell *)

Section DegenerateCanvas.

Import Random Poisson SamplerSpec.
#[local] Open Scope R_scope.

Lemma cell_100_big : 1 < 100 / sqrt 2.
Proof.
  pose proof sqrt2_pos as Hp. pose proof sqrt2_lt_2 as Hl.
  apply Rmult_lt_reg_r with (sqrt 2); [exact Hp|].
  unfold Rdiv. rewrite Rmult_assoc, Rinv_l by lra. lra.
Qed.

Lemma ceil_unit_100 : Js.ceil (1 / (100 / sqrt 2)) = 1%Z.
Proof.
  pose proof cell_100_big as Hc.
  unfold Js.ceil. apply Zceil_eq.
  assert (H0 : 0 < 1 / (100 / sqrt 2)) by (apply Rdiv_lt_0_compat; lra).
  assert (H1 : 1 / (100 / sqrt 2) < 1).
  { apply Rmult_lt_reg_r with (100 / sqrt 2); [lra|].
    unfold Rdiv at 1. rewrite Rmult_assoc, Rinv_l by lra. lra. }
  simpl. lra.
Qed.

Lemma floor_small_100 (k : Z) : (0 <= k <= 1)%Z -> Js.floor (IZR k / (100 / sqrt 2)) = 0%Z.
Proof.
  intros [Hk0 Hk1]. pose proof cell_100_big as Hc.
  apply IZR_le in Hk0, Hk1.
  unfold Js.floor. apply Zfloor_eq.
  assert (H0 : 0 <= IZR k / (100 / sqrt 2)).
  { apply Rmult_le_pos; [exact Hk0|]. left. apply Rinv_0_lt_compat. lra. }
  assert (H1 : IZR k / (100 / sqrt 2) < 1).
  { apply Rmult_lt_reg_r with (100 / sqrt 2); [lra|].
    unfold Rdiv at 1. rewrite Rmult_assoc, Rinv_l by lra. lra. }
  simpl. lra.
Qed.

Lemma range_0_0 : range 0 0 = [0%Z].
Proof. reflexivity. Qed.

(** On the 1 x 1 canvas with [minDistance = 100], once the first point
    sits in the only cell, the point (0, 0) - the only candidate there is
    - is too close to it. *)
Lemma origin_rejected s p0 :
  cellSize s = 100 / sqrt 2 -> gridWidth s = 1%Z -> gridHeight s = 1%Z ->
  grid s 0%Z 0%Z = Some p0 ->
  (0 <= x p0 <= 1)%Z -> (0 <= y p0 <= 1)%Z ->
  isValidPoint s (mkPoint 0 0) 100 1 1 = false.
Proof.
  intros Hc Hgw Hgh Hg [Hx0 Hx1] [Hy0 Hy1].
  unfold isValidPoint. cbn [x y].
  rewrite (ltb_false 0 0) by lra. rewrite (geb_false 0 1) by lra.
  cbn [orb]. rewrite Hc, Hgw, Hgh, (floor_small_100 0) by lia.
  change (Z.max 0 (0 - 2)) with 0%Z. change (Z.min (1 - 1) (0 + 2)) with 0%Z.
  rewrite range_0_0. cbn [forallb]. rewrite Hg.
  rewrite ltb_true; [reflexivity|].
  unfold distance. cbn [x y].
  apply IZR_le in Hx0, Hx1, Hy0, Hy1.
  apply Rlt_le_trans with (sqrt (100 * 100)); [|rewrite sqrt_square; lra].
  apply sqrt_lt_1_alt. split; [apply Rplus_le_le_0_compat; apply pow2_ge_0 | nra].
Qed.

(** The run on the degenerate canvas, for any attempt limit and centre
    bias: the output is the first point alone, and the generator has
    advanced by the draws of the first point, one index draw, and the
    draws of all the attempts. *)
Lemma degenerate_run ma cb r fuel :
  let maxAttempts := match ma with Some n => n | None => 30 end in
  let centerBias := match cb with Some b => b | None => 0 end in
  let first := generateRandomPoint 1 1 centerBias r in
  sample (S (S fuel)) (mkConfig 1 1 100 ma cb) r
  = Some (Js.Ok [fst first],
          after (1 + attempt_count maxAttempts * draws_per_candidate centerBias) (snd first)).
Proof.
  intros maxAttempts centerBias first.
  rewrite sample_started; [|lra|rewrite ceil_unit_100; lia|rewrite ceil_unit_100; lia].
  fold centerBias maxAttempts.
  pose proof (first_point_unit_canvas centerBias r) as [Hx Hy]. fold first in Hx, Hy.
  change (generateRandomPoint 1 1 centerBias r) with first.
  destruct first as [p0 r1]. cbn [fst snd] in *.
  destruct (addPoint_first 100 1 1 r1 p0) as [Hok _].
  destruct Hok as [s [E [HI [Ha [Hr Hg]]]]].
  { rewrite (floor_small_100 (y p0) Hy), ceil_unit_100. lia. }
  rewrite E.
  rewrite (floor_small_100 (y p0) Hy), (floor_small_100 (x p0) Hx) in Hg.
  rewrite (solitary_run 100 1 1 centerBias maxAttempts s p0 (S (S fuel)) Ha);
    [rewrite Hr; reflexivity | | lia].
  right. intros q r'.
  destruct (candidate_shape 100 1 1 centerBias q r') as [X [Y Ec]]. rewrite Ec. cbn [fst].
  rewrite !round_clamp_zero by lra.
  apply (origin_rejected s p0).
  - exact (inv_cell _ _ _ _ _ HI).
  - rewrite (inv_gw _ _ _ _ _ HI). apply ceil_unit_100.
  - rewrite (inv_gh _ _ _ _ _ HI). apply ceil_unit_100.
  - rewrite Hg. reflexivity.
  - exact Hx.
  - exact Hy.
Qed.

(** C8.  On a 1 x 1 canvas with [minDistance = 100] (default attempt
    limit 30, no centre bias), from every generator state and for every
    bound of at least two loop tests, [sample] returns exactly one point,
    the first one.  The generator ends 63 draws on: two for the first
    point, one to pick it from the active list, and two for each of the
    30 candidates around it, all rejected. *)
Theorem degenerate_canvas_one_point (rng : Mulberry32) (fuel : nat) :
  sample (S (S fuel)) (mkConfig 1 1 100 None None) rng
  = Some (Js.Ok [fst (generateRandomPoint 1 1 0 rng)], after 63 rng).
Proof.
  rewrite degenerate_run. cbv zeta.
  rewrite generateRandomPoint_unbiased by lra. cbn [fst snd].
  rewrite attempt_count_30. unfold draws_per_candidate.
  rewrite (ltb_false 0 0) by lra. after_norm. reflexivity.
Qed.

End DegenerateCanvas.

(** ** The first point is not confined to the canvas *)

Section FirstPointEscapes.

Import Random Poisson SamplerSpec.
#[local] Open Scope R_scope.

(** For seed 42 the first two draws are 2581720956 / 2^32 (about 0.601)
    and 1925393290 / 2^32 (about 0.448): on a canvas of width 1 the first
    rounds to [x = 1]. *)
Lemma first_point_seed_42 :
  generateRandomPoint 1 1 0 (createRandom 42) = (mkPoint 1 0, after 2 42%Z).
Proof.
  unfold createRandom. rewrite generateRandomPoint_unbiased by lra.
  draw_eval. f_equal. f_equal; apply round_eq; lra.
Qed.

(** C3, evaluated at a failing input.  With seed 42 on the 1 x 1 canvas
    ([minDistance = 100]) [sample] returns the single point (1, 0), whose
    [x] equals the width: the first point is rounded without being
    clamped or checked, so [x < width] fails for it. *)
Theorem first_point_outside_bounds :
  let config := mkConfig 1 1 100 None None in
  sample 2 config (createRandom 42) = Some (Js.Ok [mkPoint 1 0], after 63 42%Z)
  /\ ~ (IZR (x (mkPoint 1 0)) < width config).
Proof.
  split.
  - rewrite degenerate_run. cbv zeta. rewrite first_point_seed_42. cbn [fst snd].
    rewrite attempt_count_30. unfold draws_per_candidate.
    rewrite (ltb_false 0 0) by lra. after_norm. reflexivity.
  - cbn [x width]. lra.
Qed.

Lemma cell_4 : 4 * sqrt 2 / sqrt 2 = 4.
Proof. pose proof sqrt2_pos. field. lra. Qed.

Lemma min_4_pos : 0 < 4 * sqrt 2.
Proof. pose proof sqrt2_pos. lra. Qed.

(** For seed 10 the first two draws are 2156039273 / 2^32 (about 0.502)
    and 3940575822 / 2^32 (about 0.917): on a 1 x 4 canvas the first
    point is (1, 4). *)
Lemma first_point_seed_10 :
  generateRandomPoint 1 4 0 (createRandom 10) = (mkPoint 1 4, after 2 10%Z).
Proof.
  unfold createRandom. rewrite generateRandomPoint_unbiased by lra.
  draw_eval. f_equal. f_equal; apply round_eq; lra.
Qed.

(** C10, evaluated at a failing input.  On a 1 x 4 canvas with
    [minDistance = 4 * sqrt 2] the cell size is 4 and the grid has one
    row.  With seed 10 the first point is (1, 4), whose row index is 1:
    [addPoint] writes to a row that does not exist and [sample] throws a
    [TypeError] before the loop is entered, whatever the fuel. *)
Theorem first_point_row_missing (fuel : nat) :
  sample fuel (mkConfig 1 4 (4 * sqrt 2) None None) (createRandom 10)
  = Some (Js.Throw Js.TypeError, after 2 10%Z).
Proof.
  assert (Hgh : Js.ceil (4 / (4 * sqrt 2 / sqrt 2)) = 1%Z).
  { rewrite cell_4. unfold Js.ceil. apply Zceil_eq. simpl. lra. }
  assert (Hgw : Js.ceil (1 / (4 * sqrt 2 / sqrt 2)) = 1%Z).
  { rewrite cell_4. unfold Js.ceil. apply Zceil_eq. simpl. lra. }
  rewrite sample_started; [|exact min_4_pos|rewrite Hgh; lia|rewrite Hgw; lia].
  rewrite first_point_seed_10.
  destruct (addPoint_first (4 * sqrt 2) 1 4 (after 2 10%Z) (mkPoint 1 4)) as [_ Hthrow].
  rewrite Hthrow; [reflexivity|].
  cbn [y]. rewrite Hgh, cell_4.
  replace (Js.floor (4 / 4)) with 1%Z; [lia|].
  symmetry. unfold Js.floor. apply Zfloor_eq. simpl. lra.
Qed.

End FirstPointEscapes.

(** ** A first point filed outside the grid is invisible to the check *)

Section UnseenFirstPoint.

Import Random Poisson SamplerSpec.
#[local] Open Scope R_scope.

(** The loop body when the first candidate around the only active point
    is valid: the candidate is appended. *)
Lemma while_body_accepts m W H ma cb s p0 n :
  0 < m ->
  Inv m W H [p0] s -> activeList s = [p0] -> attempt_count ma = S n ->
  let c1 := fst (generateRandomPointAround p0 m W H cb (after 1 (rng s))) in
  isValidPoint s c1 m W H = true ->
  exists s2, while_body m W H ma cb [p0] s = Js.Ok ([p0; c1], s2)
             /\ Inv m W H [p0; c1] s2.
Proof.
  intros Hm HI Ha Hn c1 Hv.
  unfold while_body, with_rng. rewrite Ha. cbn [length]. change (Z.of_nat 1) with 1%Z.
  pose proof (nextInt_range 0 1 (rng s) ltac:(lia)) as Hidx.
  rewrite nextInt_eq in Hidx |- *. cbn [fst] in Hidx.
  match type of Hidx with (_ <= ?i < _)%Z => assert (E0 : i = 0%Z) by lia; rewrite E0 end.
  clear Hidx E0.
  cbn [activeList set_rng]. rewrite Ha.
  change (array_get [p0] 0) with (Some p0). cbv beta iota.
  rewrite Hn, attempts_S. unfold with_rng. cbn [rng set_rng].
  fold c1.
  destruct (generateRandomPointAround p0 m W H cb (after 1 (rng s))) as [c r'] eqn:Eg.
  cbn [fst] in c1. subst c1.
  rewrite !isValidPoint_set_rng, Hv.
  destruct (addPoint_valid m W H Hm [p0] (set_rng (set_rng s (after 1 (rng s))) r') c)
    as [s2 [E2 [HI2 _]]].
  - apply Inv_set_rng, Inv_set_rng. exact HI.
  - rewrite !isValidPoint_set_rng. exact Hv.
  - rewrite E2. exists s2. split; [reflexivity | exact HI2].
Qed.

(** For seed 4 the first two draws are 3966987260 / 2^32 (about 0.924)
    and 1430421160 / 2^32 (about 0.333): on a 4 x 1 canvas the first
    point is (4, 0). *)
Lemma first_point_seed_4 :
  generateRandomPoint 4 1 0 (createRandom 4) = (mkPoint 4 0, after 2 4%Z).
Proof.
  unfold createRandom. rewrite generateRandomPoint_unbiased by lra.
  draw_eval. f_equal. f_equal; apply round_eq; lra.
Qed.

Lemma floor_quarter (k : Z) : (0 <= k <= 3)%Z -> Js.floor (IZR k / 4) = 0%Z.
Proof.
  intros [Hk0 Hk1]. apply IZR_le in Hk0, Hk1.
  unfold Js.floor. apply Zfloor_eq. simpl. lra.
Qed.

(** C2, evaluated at a failing input.  On a 4 x 1 canvas with
    [minDistance = 4 * sqrt 2] (about 5.66) the cell size is 4 and the
    grid is a single cell.  With seed 4 the first point is (4, 0); it is
    filed in column 1, which is outside the grid and never read.  The
    first candidate is therefore accepted into the empty cell (0, 0), at
    distance at most 4 from the first point: the returned list holds two
    distinct points closer than [minDistance - 1]. *)
Theorem min_distance_violated :
  let config := mkConfig 4 1 (4 * sqrt 2) None None in
  exists fuel l r,
    sample fuel config (createRandom 4) = Some (Js.Ok l, r)
    /\ exists p q, In p l /\ In q l /\ p <> q
                   /\ distance p q < minDistance config - 1.
Proof.
  intros config. unfold config.
  pose proof min_4_pos as Hm.
  assert (Hgh : Js.ceil (1 / (4 * sqrt 2 / sqrt 2)) = 1%Z).
  { rewrite cell_4. unfold Js.ceil. apply Zceil_eq. simpl. lra. }
  assert (Hgw : Js.ceil (4 / (4 * sqrt 2 / sqrt 2)) = 1%Z).
  { rewrite cell_4. unfold Js.ceil. apply Zceil_eq. simpl. lra. }
  set (p0 := mkPoint 4 0).
  destruct (addPoint_first (4 * sqrt 2) 4 1 (after 2 4%Z) p0) as [Hok _].
  destruct Hok as [s [E [HI [Ha [Hr Hg]]]]].
  { cbn [y p0]. rewrite Hgh, cell_4, (floor_quarter 0); lia. }
  cbn [x y p0] in Hg. rewrite cell_4, (floor_quarter 0) in Hg by lia.
  replace (Js.floor (4 / 4)) with 1%Z in Hg
    by (symmetry; unfold Js.floor; apply Zfloor_eq; simpl; lra).
  (* the first candidate *)
  set (c1 := fst (generateRandomPointAround p0 (4 * sqrt 2) 4 1 0 (after 1 (rng s)))).
  assert (Hc1 : (0 <= x c1 <= 3)%Z /\ y c1 = 0%Z).
  { unfold c1.
    destruct (candidate_shape (4 * sqrt 2) 4 1 0 p0 (after 1 (rng s))) as [X [Y Ec]].
    rewrite Ec. cbn [fst x y]. split; [split|].
    - apply round_clamp_nonneg.
    - replace (4 - 1) with (IZR 3) by (simpl; lra). apply round_clamp_le. lia.
    - apply round_clamp_zero. lra. }
  destruct Hc1 as [Hx Hy].
  assert (Hv : isValidPoint s c1 (4 * sqrt 2) 4 1 = true).
  { unfold isValidPoint. rewrite Hy.
    pose proof (IZR_le _ _ (proj1 Hx)) as Hx0. pose proof (IZR_le _ _ (proj2 Hx)) as Hx1.
    rewrite (ltb_false (IZR (x c1)) 0) by exact Hx0.
    rewrite (geb_false (IZR (x c1)) 4) by lra.
    rewrite (ltb_false 0 0) by lra. rewrite (geb_false 0 1) by lra. cbn [orb].
    rewrite (inv_cell _ _ _ _ _ HI), (inv_gw _ _ _ _ _ HI), (inv_gh _ _ _ _ _ HI).
    rewrite Hgw, Hgh, cell_4, (floor_quarter (x c1) Hx), (floor_quarter 0) by lia.
    change (Z.max 0 (0 - 2)) with 0%Z. change (Z.min (1 - 1) (0 + 2)) with 0%Z.
    rewrite range_0_0. cbn [forallb]. rewrite Hg. reflexivity. }
  destruct (while_body_accepts (4 * sqrt 2) 4 1 30 0 s p0 29 Hm HI Ha) as [s2 [Eb HI2]].
  { rewrite attempt_count_30. reflexivity. }
  { exact Hv. }
  fold c1 in Eb, HI2.
  set (fuel := S (measure (4 * sqrt 2) 4 1 [p0; c1] s2)).
  destruct (while_active_terminates (4 * sqrt 2) 4 1 Hm 30 0 fuel [p0; c1] s2 HI2)
    as [l [r [sf [El [[ext Hext] _]]]]]; [unfold fuel; lia|].
  exists (S fuel), l, r. split.
  - rewrite sample_started; [|exact Hm|rewrite Hgh; lia|rewrite Hgw; lia].
    rewrite first_point_seed_4. fold p0. rewrite E.
    rewrite while_active_S, Ha, Eb. exact El.
  - exists p0, c1. subst l. split; [left; reflexivity|].
    split; [right; left; reflexivity|]. split.
    + intros Heq. apply (f_equal x) in Heq. cbn [x p0] in Heq. lia.
    + cbn [minDistance]. unfold distance. cbn [x y p0]. rewrite Hy.
      pose proof (IZR_le _ _ (proj1 Hx)) as Hx0. pose proof (IZR_le _ _ (proj2 Hx)) as Hx1.
      pose proof sqrt2_gt_1 as Hs1. pose proof sqrt2_sq as Hsq.
      assert (Hs : 14 / 10 < sqrt 2) by nra.
      apply Rle_lt_trans with (sqrt (4 * 4)); [|rewrite sqrt_square; lra].
      apply sqrt_le_1_alt. nra.
Qed.

End UnseenFirstPoint.

(** ** Configurations the specification calls invalid *)

Section InvalidConfig.

Import Random Poisson SamplerSpec.
#[local] Open Scope R_scope.








End InvalidConfig.

(** ** The layer loops against the specification's generator *)

Section LayerOrder.

Import Random Browser Paint SpaceCanvas LayerSpec.
#[local] Open Scope R_scope.

Lemma nextBoolean_eq s : nextBoolean s = (Js.ltb (draw s 0) (1 / 2), after 1 s).
Proof. reflexivity. Qed.

Lemma for_points_nil {C} (body : Poisson.Point -> Rand C) children rng :
  for_points body [] children rng = (children, rng).
Proof. reflexivity. Qed.

Lemma for_points_cons {C} (body : Poisson.Point -> Rand C) pt points children rng :
  for_points body (pt :: points) children rng
  = for_points body points (children ++ [fst (body pt rng)]) (snd (body pt rng)).
Proof.
  unfold for_points. cbn [fold_left fst snd].
  destruct (body pt rng) as [child r]. reflexivity.
Qed.

(** The children a loop appends do not depend on the children already
    there. *)
Lemma for_points_acc {C} (body : Poisson.Point -> Rand C) points :
  forall children rng,
    for_points body points children rng
    = (children ++ fst (for_points body points [] rng),
       snd (for_points body points [] rng)).
Proof.
  induction points as [|pt points IH]; intros children rng.
  - rewrite !for_points_nil. cbn [fst snd]. rewrite app_nil_r. reflexivity.
  - rewrite !for_points_cons. rewrite (IH (children ++ _)), (IH ([] ++ _)).
    cbn [fst snd app]. rewrite <- app_assoc. reflexivity.
Qed.

(** A loop whose body agrees with [place] agrees with [generateLayer]. *)
Lemma loop_refines rules (body : Poisson.Point -> Rand Sprite) :
  (forall pt rng,
     (record_of_sprite (fst (body pt rng)), snd (body pt rng)) = place rules pt rng) ->
  forall points rng,
    (map record_of_sprite (fst (for_points body points [] rng)),
     snd (for_points body points [] rng))
    = generateLayer rules points rng.
Proof.
  intros Hbody. induction points as [|pt points IH]; intros rng; [reflexivity|].
  rewrite for_points_cons, for_points_acc. cbn [fst snd app].
  cbn [generateLayer]. unfold bind at 1. rewrite <- Hbody.
  unfold bind at 1. rewrite <- IH. unfold ret. reflexivity.
Qed.

Lemma snap_IZR z : snap (IZR z) = z.
Proof. apply round_IZR. Qed.

(** Unfolds the calls of the generator's methods one after the other. *)
Ltac run_draws :=
  unfold bind, ret;
  repeat (first [ rewrite nextBoolean_eq | rewrite nextFloat_eq
                | rewrite nextInt_eq | rewrite next_eq ];
          cbv beta iota).

Lemma star_sprite_place layer pt rng :
  (record_of_sprite (fst (star_sprite layer pt rng)), snd (star_sprite layer pt rng))
  = place (star_rules layer) pt rng.
Proof.
  unfold star_sprite, generateStarConfig, place, record_of_sprite.
  destruct pt as [px py]. cbn [Poisson.x Poisson.y]. rewrite !snap_IZR.
  destruct layer; cbn [star_rules size_rule color_rule alpha_rule]; run_draws.
  - destruct (Js.ltb (draw (after 1 rng) 0 * (1 - 0) + 0) (8 / 10)); run_draws;
      reflexivity.
  - destruct (Js.ltb (draw (after 1 rng) 0 * (1 - 0) + 0) (6 / 10)); run_draws;
      reflexivity.
Qed.

Lemma sparkle_sprite_place pt rng :
  (record_of_sprite (fst (sparkle_sprite pt rng)), snd (sparkle_sprite pt rng))
  = place sparkle_rules pt rng.
Proof.
  unfold sparkle_sprite, generateSparkleConfig, place, record_of_sprite.
  destruct pt as [px py]. cbn [Poisson.x Poisson.y]. rewrite !snap_IZR.
  cbn [sparkle_rules size_rule color_rule alpha_rule]. run_draws. reflexivity.
Qed.

(** The draws of the specification's generator for one point, by their
    position in the stream: the size from the first, the colour from the
    second (and the third when the second asks for it), the alpha from
    the one after the colour. *)
Lemma place_draws rules pt rng :
  place rules pt rng
  = match color_rule rules (draw rng 1) with
    | inl c =>
        (mkPlacement pt (size_rule rules (draw rng 0)) c
                     (alpha_rule rules (draw rng 2)), after 3 rng)
    | inr second =>
        (mkPlacement pt (size_rule rules (draw rng 0)) (second (draw rng 2))
                     (alpha_rule rules (draw rng 3)), after 4 rng)
    end.
Proof.
  unfold place. run_draws. rewrite draw_after. cbn [Nat.add].
  destruct (color_rule rules (draw rng 1)) as [c|second]; run_draws;
    rewrite !draw_after; after_norm; reflexivity.
Qed.

Lemma createRibbonStreak_rng radius r : snd (createRibbonStreak radius r) = after 4 r.
Proof. unfold createRibbonStreak. run_draws. cbn [snd]. after_norm. reflexivity. Qed.

Lemma ribbon_streaks_rng n radius : forall r,
  snd (ribbon_streaks n radius r) = after (4 * n) r.
Proof.
  induction n as [|n IH]; intros r; [reflexivity|].
  cbn [ribbon_streaks]. unfold bind at 1.
  pose proof (createRibbonStreak_rng radius r) as Hs.
  destruct (createRibbonStreak radius r) as [streak r1]. cbn [snd] in Hs. subst r1.
  unfold bind at 1. specialize (IH (after 4 r)).
  destruct (ribbon_streaks n radius (after 4 r)) as [rest r2]. cbn [snd] in IH. subst r2.
  unfold ret. cbn [snd]. after_norm.
  replace (4 + 4 * n)%nat with (4 * S n)%nat by lia. reflexivity.
Qed.

(** One nebula patch takes 12, 16 or 20 numbers from the generator: the
    radius, two alphas, the streak count, and four per streak. *)
Lemma nebula_patch_rng W H pt rng e :
  exists k, (2 <= k <= 4)%nat
            /\ snd (fst (nebula_patch W H pt rng e)) = after (4 + 4 * k) rng.
Proof.
  unfold nebula_patch. rewrite nextFloat_eq. cbv beta iota zeta.
  unfold createNebulaPatch. rewrite nextFloat_eq. cbv beta iota zeta.
  destruct (createNoiseTexture 64 e) as [tex e'].
  rewrite nextFloat_eq. cbv beta iota zeta.
  pose proof (nextInt_range 2 5 (after 1 (after 1 (after 1 rng))) ltac:(lia)) as Hk.
  destruct (nextInt 2 5 (after 1 (after 1 (after 1 rng)))) as [count r4] eqn:Ec.
  rewrite nextInt_eq in Ec. apply (f_equal snd) in Ec. cbn [snd] in Ec. subst r4.
  cbn [fst] in Hk.
  match goal with
  | |- context [ribbon_streaks ?n ?rad ?st] =>
      pose proof (ribbon_streaks_rng n rad st) as Hs;
      destruct (ribbon_streaks n rad st) as [streaks r5]
  end.
  cbn [snd] in Hs. subst r5.
  cbn [fst snd]. exists (Z.to_nat count). split; [lia|].
  after_norm. cbn [Nat.add]. reflexivity.
Qed.

Lemma generateLayer_single rules pt rng :
  snd (generateLayer rules [pt] rng) = after 3 rng
  \/ snd (generateLayer rules [pt] rng) = after 4 rng.
Proof.
  cbn [generateLayer]. unfold bind, ret. rewrite place_draws.
  destruct (color_rule rules (draw rng 1)); [left | right]; reflexivity.
Qed.

(** Draw counts that differ by less than 2^32 leave different states:
    here for the counts that matter, from state 0. *)
Lemma after_0_distinct k :
  (2 <= k <= 4)%nat ->
  after (4 + 4 * k) 0%Z <> after 3 0%Z /\ after (4 + 4 * k) 0%Z <> after 4 0%Z.
Proof.
  intros Hk.
  assert (Hcases : k = 2%nat \/ k = 3%nat \/ k = 4%nat) by lia.
  destruct Hcases as [ -> | [ -> | -> ] ]; cbn [Nat.add Nat.mul];
    rewrite !after_closed_form; split; vm_compute; discriminate.
Qed.

(** C5, refuted as stated.  The nebula layer does not follow the order
    size, colour, alpha: for each point it draws the radius, then the
    alpha of the nebula sprite, the alpha of the noise overlay, the
    number of streaks, and width, length, angle and alpha of every
    streak - at least twelve numbers, none of them a colour - where the
    specification's generator takes three or four. *)
Lemma nebula_layer_breaks_order : ~ follows_attribute_order NebulaLayer.
Proof.
  intros [rules Hrules].
  set (e := mkEntropy (fun _ => 0) 0).
  set (pt := Poisson.mkPoint 0 0).
  specialize (Hrules 1 1 [pt] 0%Z e).
  apply (f_equal snd) in Hrules.
  unfold code_layer, for_nebula_points in Hrules. cbn [fold_left] in Hrules.
  destruct (nebula_patch_rng 1 1 pt 0%Z e) as [k [Hk Hrng]].
  destruct (nebula_patch 1 1 pt 0%Z e) as [[patch r] e'].
  cbn [fst snd app] in Hrng, Hrules. rewrite Hrng in Hrules.
  destruct (after_0_distinct k Hk) as [H3 H4].
  destruct (generateLayer_single rules pt 0%Z) as [E|E]; rewrite E in Hrules;
    [exact (H3 Hrules) | exact (H4 Hrules)].
Qed.

Lemma layer_refines rules (body : Poisson.Point -> Rand Sprite) points rng :
  (forall pt r,
     (record_of_sprite (fst (body pt r)), snd (body pt r)) = place rules pt r) ->
  (let (sprites, rng') := for_points body points [] rng in
   (map record_of_sprite sprites, rng'))
  = generateLayer rules points rng.
Proof.
  intros Hbody. rewrite <- (loop_refines rules body Hbody).
  destruct (for_points body points [] rng). reflexivity.
Qed.

(** C5, amended.  For the micro, small and sparkle layers the loop of
    [regenerate] is the specification's generator: it goes through the
    points in the order given and, for each point, takes the size from
    the next draw, then the colour from the draw after it (and from one
    more when the first colour draw does not settle it, as in the star
    layers), then the alpha from the draw after the colour; the next
    point begins at the state the alpha draw leaves. *)
Theorem attribute_layers_follow_order :
  follows_attribute_order MicroLayer
  /\ follows_attribute_order SmallLayer
  /\ follows_attribute_order SparkleLayer
  /\ (forall rules pt rest rng,
        generateLayer rules (pt :: rest) rng
        = (let (record, rng') := place rules pt rng in
           let (records, rng'') := generateLayer rules rest rng' in
           (record :: records, rng''))
        /\ place rules pt rng
           = match color_rule rules (draw rng 1) with
             | inl c =>
                 (mkPlacement pt (size_rule rules (draw rng 0)) c
                              (alpha_rule rules (draw rng 2)), after 3 rng)
             | inr second =>
                 (mkPlacement pt (size_rule rules (draw rng 0)) (second (draw rng 2))
                              (alpha_rule rules (draw rng 3)), after 4 rng)
             end).
Proof.
  split; [|split; [|split]].
  - exists (star_rules micro). intros W H points rng e.
    apply layer_refines. intros pt r. apply star_sprite_place.
  - exists (star_rules small). intros W H points rng e.
    apply layer_refines. intros pt r. apply star_sprite_place.
  - exists sparkle_rules. intros W H points rng e.
    apply layer_refines. intros pt r. apply sparkle_sprite_place.
  - intros rules pt rest rng. split; [reflexivity | apply place_draws].
Qed.

End LayerOrder.

(** ** The whole pass: one scene per seed and canvas *)

Section Determinism.

Import Random Browser Paint SpaceCanvas SamplerSpec.
#[local] Open Scope R_scope.

(** More fuel does not change what [sample] returns. *)
Lemma sample_mono fuel fuel' config rng0 out :
  Poisson.sample fuel config rng0 = Some out ->
  (fuel <= fuel')%nat ->
  Poisson.sample fuel' config rng0 = Some out.
Proof.
  unfold Poisson.sample. intros E Hle.
  destruct (Req_dec_T _ 0); [exact E|].
  destruct (negb _ || _); [exact E|].
  destruct (Poisson.with_rng _ _) as [p0 s].
  destruct (Poisson.addPoint p0 [] s) as [[points s']|e]; [|exact E].
  eapply while_active_mono; eassumption.
Qed.

(** [sample] with a positive [minDistance] has one outcome, reached by
    every large enough fuel. *)
Lemma sample_terminates m W H ma cb rng0 :
  0 < m ->
  exists fuel0 out r,
    forall fuel, (fuel0 <= fuel)%nat ->
      Poisson.sample fuel (Poisson.mkConfig W H m ma cb) rng0 = Some (out, r).
Proof.
  intros Hm.
  set (fuel0 := S (2 * S (length (all_cells (Js.ceil (W / (m / sqrt 2)))
                                            (Js.ceil (H / (m / sqrt 2))))))).
  assert (Hsome : exists out r,
             Poisson.sample fuel0 (Poisson.mkConfig W H m ma cb) rng0 = Some (out, r)).
  { destruct (sample_total m W H Hm ma cb rng0 fuel0) as [E|[[_ [r E]]|[ext [r [s [E _]]]]]];
      [unfold fuel0; lia | | |]; rewrite E; eexists; eexists; reflexivity. }
  destruct Hsome as [out [r E]].
  exists fuel0, out, r. intros fuel Hle. eapply sample_mono; eassumption.
Qed.

(** A nebula patch depends on [Math.random] through the pixels of its
    noise overlay only. *)
Lemma nebula_patch_entropy W H pt rng e1 e2 :
  forget_patch (fst (fst (nebula_patch W H pt rng e1)))
  = forget_patch (fst (fst (nebula_patch W H pt rng e2)))
  /\ snd (fst (nebula_patch W H pt rng e1)) = snd (fst (nebula_patch W H pt rng e2)).
Proof.
  unfold nebula_patch. destruct (nextFloat (28 / 100) (35 / 100) rng) as [u r1].
  unfold createNebulaPatch.
  destruct (nextFloat (3 / 100) (8 / 100) r1) as [na r2].
  destruct (createNoiseTexture 64 e1) as [t1 e1'].
  destruct (createNoiseTexture 64 e2) as [t2 e2'].
  destruct (nextFloat (6 / 100) (1 / 10) r2) as [noa r3].
  destruct (nextInt 2 5 r3) as [count r4].
  destruct (ribbon_streaks (Z.to_nat count) (u * Js.min W H) r4) as [st r5].
  split; reflexivity.
Qed.

Lemma for_nebula_points_entropy W H points :
  forall ch1 ch2 rng e1 e2,
    map forget_child ch1 = map forget_child ch2 ->
    map forget_child (fst (fst (for_nebula_points W H points ch1 rng e1)))
    = map forget_child (fst (fst (for_nebula_points W H points ch2 rng e2)))
    /\ snd (fst (for_nebula_points W H points ch1 rng e1))
       = snd (fst (for_nebula_points W H points ch2 rng e2)).
Proof.
  induction points as [|pt points IH]; intros ch1 ch2 rng e1 e2 Hch.
  - split; [exact Hch | reflexivity].
  - unfold for_nebula_points. cbn [fold_left].
    destruct (nebula_patch_entropy W H pt rng e1 e2) as [Hp Hr].
    destruct (nebula_patch W H pt rng e1) as [[p1 r1] e1'].
    destruct (nebula_patch W H pt rng e2) as [[p2 r2] e2'].
    cbn [fst snd] in Hp, Hr. subst r2.
    apply IH. rewrite !map_app, Hch. cbn [map forget_child]. rewrite Hp. reflexivity.
Qed.

(** More fuel does not change what a pass returns. *)
Lemma regenerate_mono fuel fuel' seed W H w out :
  regenerate fuel seed W H w = Some out ->
  (fuel <= fuel')%nat ->
  regenerate fuel' seed W H w = Some out.
Proof.
  unfold regenerate, Poisson.generatePoissonPoints. intros E Hle.
  destruct (createNoiseTexture 64 (entropy w)) as [tex e].
  destruct (Poisson.sample fuel (micro_config W H) (createRandom seed))
    as [[o1 r1]|] eqn:E1; [|discriminate].
  rewrite (sample_mono _ _ _ _ _ E1 Hle).
  destruct o1 as [pts1|err1]; [|exact E].
  destruct (for_points (star_sprite micro) pts1 [] r1) as [mc r1'].
  destruct (Poisson.sample fuel (small_config W H) r1') as [[o2 r2]|] eqn:E2; [|discriminate].
  rewrite (sample_mono _ _ _ _ _ E2 Hle).
  destruct o2 as [pts2|err2]; [|exact E].
  destruct (for_points (star_sprite small) pts2 [] r2) as [sc r2'].
  destruct (Poisson.sample fuel (sparkle_config W H) r2') as [[o3 r3]|] eqn:E3; [|discriminate].
  rewrite (sample_mono _ _ _ _ _ E3 Hle).
  destruct o3 as [pts3|err3]; [|exact E].
  destruct (for_points sparkle_sprite pts3 [] r3) as [sp r3'].
  destruct (Poisson.sample fuel (nebula_config W H) r3') as [[o4 r4]|] eqn:E4; [|discriminate].
  rewrite (sample_mono _ _ _ _ _ E4 Hle).
  destruct o4 as [pts4|err4]; exact E.
Qed.

(** The source of [Math.random] used to name the scene; any other
    gives the same one. *)
Let quiet : Entropy := mkEntropy (fun _ => 0) O.

(** One scene and one way of ending per seed and canvas. *)
Lemma regenerate_scene (seed : Z) (W H : R) :
  exists (fuel0 : nat) (scene : Scene) (completion : Completion),
    forall (fuel : nat) (w : World),
      exists w', regenerate (fuel0 + fuel) seed W H w = Some (w', completion)
                 /\ scene_of (layers w') = scene.
Proof.
  destruct (sample_terminates 8 W H None (Some (5 / 10)) (createRandom seed))
    as [f1 [o1 [r1 H1]]]; [lra|].
  destruct o1 as [pts1|err1].
  2:{ exists f1, (mkLayers [] [] [] []), (Some err1). intros fuel w.
      unfold regenerate. destruct (createNoiseTexture 64 (entropy w)) as [tex e].
      unfold Poisson.generatePoissonPoints, micro_config. rewrite H1 by lia.
      eexists. split; reflexivity. }
  destruct (for_points (star_sprite micro) pts1 [] r1) as [mc r1'] eqn:E1.
  destruct (sample_terminates 12 W H None (Some (5 / 10)) r1')
    as [f2 [o2 [r2 H2]]]; [lra|].
  destruct o2 as [pts2|err2].
  2:{ exists (f1 + f2)%nat, (mkLayers [] [] [] mc), (Some err2). intros fuel w.
      unfold regenerate. destruct (createNoiseTexture 64 (entropy w)) as [tex e].
      unfold Poisson.generatePoissonPoints, micro_config, small_config.
      rewrite H1 by lia. rewrite E1. rewrite H2 by lia.
      eexists. split; reflexivity. }
  destruct (for_points (star_sprite small) pts2 [] r2) as [sc r2'] eqn:E2.
  destruct (sample_terminates 20 W H None (Some (3 / 10)) r2')
    as [f3 [o3 [r3 H3]]]; [lra|].
  destruct o3 as [pts3|err3].
  2:{ exists (f1 + f2 + f3)%nat, (mkLayers [] [] sc mc), (Some err3). intros fuel w.
      unfold regenerate. destruct (createNoiseTexture 64 (entropy w)) as [tex e].
      unfold Poisson.generatePoissonPoints, micro_config, small_config, sparkle_config.
      rewrite H1 by lia. rewrite E1. rewrite H2 by lia. rewrite E2. rewrite H3 by lia.
      eexists. split; reflexivity. }
  destruct (for_points sparkle_sprite pts3 [] r3) as [sp r3'] eqn:E3.
  destruct (sample_terminates 80 W H None (Some (2 / 10)) r3')
    as [f4 [o4 [r4 H4]]]; [lra|].
  destruct o4 as [pts4|err4].
  2:{ exists (f1 + f2 + f3 + f4)%nat, (mkLayers [] [] sc mc), (Some err4). intros fuel w.
      unfold regenerate. destruct (createNoiseTexture 64 (entropy w)) as [tex e].
      unfold Poisson.generatePoissonPoints, micro_config, small_config, sparkle_config,
        nebula_config.
      rewrite H1 by lia. rewrite E1. rewrite H2 by lia. rewrite E2. rewrite H3 by lia.
      rewrite E3. rewrite H4 by lia.
      eexists. split; reflexivity. }
  exists (f1 + f2 + f3 + f4)%nat,
         (mkLayers (map forget_child (fst (fst (for_nebula_points W H pts4 [] r4 quiet)))
                    ++ [NoiseOverlay tt W H (7 / 100)]) [] sc mc),
         None.
  intros fuel w.
  unfold regenerate. destruct (createNoiseTexture 64 (entropy w)) as [tex e].
  unfold Poisson.generatePoissonPoints, micro_config, small_config, sparkle_config,
    nebula_config.
  rewrite H1 by lia. rewrite E1. rewrite H2 by lia. rewrite E2. rewrite H3 by lia.
  rewrite E3. rewrite H4 by lia.
  destruct (for_nebula_points_entropy W H pts4 [] [] r4 e quiet eq_refl) as [Hch _].
  destruct (for_nebula_points W H pts4 [] r4 e) as [[nc r5] e5].
  cbn [fst] in Hch.
  eexists. split; [reflexivity|].
  unfold scene_of. cbn [layers nebula sparkle small_stars micro_stars].
  rewrite map_app, Hch. reflexivity.
Qed.

(** Any two passes that return, from whatever worlds and with whatever
    fuel, end the same way with the same scene. *)
Lemma regenerate_twice seed W H fuel1 fuel2 w1 w2 out1 out2 :
  regenerate fuel1 seed W H w1 = Some out1 ->
  regenerate fuel2 seed W H w2 = Some out2 ->
  snd out1 = snd out2
  /\ scene_of (layers (fst out1)) = scene_of (layers (fst out2)).
Proof.
  intros E1 E2.
  destruct (regenerate_scene seed W H) as [fuel0 [scene [completion Hall]]].
  destruct (Hall fuel1 w1) as [w1' [F1 S1]]. destruct (Hall fuel2 w2) as [w2' [F2 S2]].
  rewrite (regenerate_mono _ _ _ _ _ _ _ E1 (Nat.le_add_l fuel1 fuel0)) in F1.
  rewrite (regenerate_mono _ _ _ _ _ _ _ E2 (Nat.le_add_l fuel2 fuel0)) in F2.
  injection F1 as ->. injection F2 as ->. cbn [fst snd].
  split; [reflexivity | rewrite S1, S2; reflexivity].
Qed.

(** C1.  For every seed and every canvas width and height, any two runs
    of the generation pass with that seed and canvas - from whatever the
    layers held before, whatever [Math.random] returns, and whatever fuel
    lets them finish - end the same way (normally, or with the exception
    of a sampler) and leave the same scene: the four layers in stage
    order, each with the same placement records in the same order.  And
    the runs do finish: there is one scene and one way of ending that
    every run with enough fuel produces. *)
Theorem regenerate_deterministic (seed : Z) (W H : R) :
  (forall fuel1 fuel2 w1 w2 out1 out2,
     regenerate fuel1 seed W H w1 = Some out1 ->
     regenerate fuel2 seed W H w2 = Some out2 ->
     snd out1 = snd out2
     /\ scene_of (layers (fst out1)) = scene_of (layers (fst out2)))
  /\ exists (fuel0 : nat) (scene : Scene) (completion : Completion),
       forall (fuel : nat) (w : World),
         exists w', regenerate (fuel0 + fuel) seed W H w = Some (w', completion)
                    /\ scene_of (layers w') = scene.
Proof.
  split.
  - intros fuel1 fuel2 w1 w2 out1 out2. apply regenerate_twice.
  - exact (regenerate_scene seed W H).
Qed.

End Determinism.

(** ** What holds of every list [sample] returns *)

Section ReturnedList.

Import Random Poisson SamplerSpec.
#[local] Open Scope R_scope.

Variables m W H : R.
Hypothesis m_pos : 0 < m.
Variables ma cb : option R.

Let c : R := m / sqrt 2.
Let gw : Z := Js.ceil (W / c).
Let gh : Z := Js.ceil (H / c).
Let bias : R := match cb with Some b => b | None => 0 end.

(** A returned list starts with the first point and satisfies the loop
    invariant. *)
Lemma sample_result_inv rng0 fuel l r :
  sample fuel (mkConfig W H m ma cb) rng0 = Some (Js.Ok l, r) ->
  exists ext s,
    l = fst (generateRandomPoint W H bias rng0) :: ext /\ Inv m W H l s.
Proof.
  intros E.
  set (big := S (2 * S (length (all_cells gw gh)))).
  assert (Ebig : sample (Nat.max fuel big) (mkConfig W H m ma cb) rng0 = Some (Js.Ok l, r)).
  { eapply sample_mono; [exact E | apply Nat.le_max_l]. }
  destruct (sample_total m W H m_pos ma cb rng0 (Nat.max fuel big))
    as [E1|[[_ [r1 E1]]|[ext [r1 [s [E1 HI]]]]]].
  - unfold big. fold c gw gh. lia.
  - rewrite E1 in Ebig. discriminate.
  - rewrite E1 in Ebig. discriminate.
  - rewrite E1 in Ebig. injection Ebig as <- _.
    exists ext, s. split; [reflexivity | exact HI].
Qed.

(** Every returned point after the first lies inside the canvas. *)
Lemma sample_tail_in_bounds rng0 fuel l r :
  sample fuel (mkConfig W H m ma cb) rng0 = Some (Js.Ok l, r) ->
  forall q, In q (tl l) -> (0 <= IZR (x q) < W) /\ (0 <= IZR (y q) < H).
Proof.
  intros E. destruct (sample_result_inv rng0 fuel l r E) as [ext [s [_ HI]]].
  exact (inv_bounds _ _ _ _ _ HI).
Qed.

Lemma apart_readable l :
  ForallOrdPairs (apart m W H) l ->
  (forall p, In p l -> In (cell_of c p) (all_cells gw gh)) ->
  ForallOrdPairs (fun p q => m <= distance p q) l.
Proof.
  induction 1 as [|a l Ha Hl IH]; intros Hread; constructor.
  - apply Forall_forall. intros q Hq.
    rewrite Forall_forall in Ha. apply (Ha q Hq). apply Hread. left. reflexivity.
  - apply IH. intros p Hp. apply Hread. right. exact Hp.
Qed.

(** When the first point is filed in a readable cell, all returned
    points are pairwise at least [minDistance] apart, with no slack. *)
Lemma sample_min_distance rng0 fuel l r :
  sample fuel (mkConfig W H m ma cb) rng0 = Some (Js.Ok l, r) ->
  In (cell_of c (fst (generateRandomPoint W H bias rng0))) (all_cells gw gh) ->
  ForallOrdPairs (fun p q => m <= distance p q) l.
Proof.
  intros E Hfirst. destruct (sample_result_inv rng0 fuel l r E) as [ext [s [El HI]]].
  apply apart_readable; [exact (inv_apart _ _ _ _ _ HI)|].
  intros p Hp. rewrite El in Hp. destruct Hp as [<-|Hp]; [exact Hfirst|].
  apply (inv_tail _ _ _ _ _ HI). rewrite El. exact Hp.
Qed.


End ReturnedList.

(** ** Integer configurations: the first point is always readable *)

Section IntegerConfig.

Import Random Poisson SamplerSpec.

#[local] Open Scope Z_scope.

(** The square root of 2 is irrational, in integer form. *)
Lemma no_square_double : forall (k : nat) (n w : Z),
  (Z.abs_nat n <= k)%nat -> w <> 0 -> n * n <> 2 * (w * w).
Proof.
  induction k as [|k IH]; intros n w Hk Hw E.
  - assert (n = 0) by lia. subst n. nia.
  - assert (Heven : Z.even n = true).
    { destruct (Z.even n) eqn:En; [reflexivity|].
      assert (Ho : Z.even (n * n) = false) by (rewrite Z.even_mul, En; reflexivity).
      rewrite E, Z.even_mul in Ho. discriminate. }
    apply Z.even_spec in Heven. destruct Heven as [n' ->].
    assert (E' : w * w = 2 * (n' * n')) by nia.
    assert (Hn' : n' <> 0) by nia.
    apply (IH w n'); [|exact Hn'|exact E']. nia.
Qed.

#[local] Open Scope R_scope.

(** For positive integers [extent] and [m], the quotient of [extent] by
    the cell size [m / sqrt 2] is not an integer. *)
Lemma quotient_not_integer (extent m k : Z) :
  (0 < extent)%Z -> (0 < m)%Z -> IZR extent / (IZR m / sqrt 2) <> IZR k.
Proof.
  intros He Hm E.
  pose proof sqrt2_pos as Hs. pose proof sqrt2_sq as Hq.
  assert (HmR : 0 < IZR m) by (apply IZR_lt; exact Hm).
  assert (E1 : IZR extent * sqrt 2 = IZR k * IZR m).
  { rewrite <- E. field. lra. }
  assert (E2 : IZR (k * m * (k * m)) = IZR (2 * (extent * extent))).
  { rewrite !mult_IZR. rewrite <- E1.
    replace (IZR extent * sqrt 2 * (IZR extent * sqrt 2))
      with (IZR extent * IZR extent * (sqrt 2 * sqrt 2)) by ring.
    rewrite Hq. ring. }
  apply eq_IZR in E2.
  apply (no_square_double (Z.abs_nat (k * m)) (k * m) extent); [lia | lia | exact E2].
Qed.

(** So a coordinate up to the extent itself has its index inside the
    grid. *)
Lemma index_in_grid_closed (extent m a : Z) :
  (0 < extent)%Z -> (0 < m)%Z -> (0 <= a <= extent)%Z ->
  (0 <= Js.floor (IZR a / (IZR m / sqrt 2)) < Js.ceil (IZR extent / (IZR m / sqrt 2)))%Z.
Proof.
  intros He Hm [Ha0 Ha1].
  assert (Hc : 0 < IZR m / sqrt 2) by (apply cell_pos, IZR_lt; exact Hm).
  apply IZR_le in Ha0, Ha1.
  set (c := IZR m / sqrt 2) in *.
  unfold Js.floor, Js.ceil.
  pose proof (Zfloor_bound (IZR a / c)) as [Hf1 Hf2].
  pose proof (Zceil_bound (IZR extent / c)) as [Hc1 Hc2].
  assert (H0 : 0 <= IZR a / c).
  { apply Rmult_le_pos; [exact Ha0|]. left. apply Rinv_0_lt_compat. exact Hc. }
  assert (H1 : IZR a / c <= IZR extent / c).
  { unfold Rdiv. apply Rmult_le_compat_r; [left; apply Rinv_0_lt_compat; exact Hc | exact Ha1]. }
  split; [apply Zfloor_lub; exact H0|].
  assert (Hne : IZR extent / c <> IZR (Zceil (IZR extent / c))).
  { apply quotient_not_integer; assumption. }
  apply lt_IZR. lra.
Qed.

(** On a canvas with positive integer sides the first point has both
    coordinates between 0 and the side, the side included. *)
Lemma first_point_closed_range (W H : Z) (bias : R) rng0 :
  (0 < W)%Z -> (0 < H)%Z ->
  let p0 := fst (generateRandomPoint (IZR W) (IZR H) bias rng0) in
  (0 <= x p0 <= W)%Z /\ (0 <= y p0 <= H)%Z.
Proof.
  intros HW HH p0.
  assert (Hp : p0 = fst (generateRandomPoint (IZR W) (IZR H) bias rng0)) by reflexivity.
  clearbody p0. unfold generateRandomPoint in Hp.
  assert (HWR : 1 <= IZR W) by (apply IZR_le; lia).
  assert (HHR : 1 <= IZR H) by (apply IZR_le; lia).
  assert (Hplain : forall r,
            let q := fst ((px <- nextFloat 0 (IZR W) ;; py <- nextFloat 0 (IZR H) ;;
                           ret {| x := Js.round px; y := Js.round py |})%rand r) in
            (0 <= x q <= W)%Z /\ (0 <= y q <= H)%Z).
  { intros r. unfold bind, ret. rewrite !nextFloat_eq. cbv beta iota zeta. cbn [fst x y].
    replace (draw r 0 * (IZR W - 0) + 0) with (draw r 0 * IZR W) by ring.
    replace (draw (after 1 r) 0 * (IZR H - 0) + 0) with (draw (after 1 r) 0 * IZR H) by ring.
    split; apply round_scaled_range; try lia; apply draw_range. }
  destruct (Js.ltb 0 bias).
  - unfold bind at 1 in Hp. unfold ret at 1 in Hp. rewrite next_eq in Hp.
    cbv beta iota in Hp.
    destruct (Js.ltb (draw rng0 0) bias); [|subst p0; apply Hplain].
    unfold bind, ret in Hp.
    rewrite (pointInCircle_eq (Js.min (IZR W) (IZR H) * (3 / 10)) (after 1 rng0)) in Hp. cbv beta iota in Hp. cbn [fst vx vy] in Hp.
    subst p0. cbn [x y].
    set (a := draw (after 1 rng0) 0 * (PI * 2)).
    pose proof (draw_range (after 1 rng0) 1) as [Hu0 Hu1].
    set (u := draw (after 1 rng0) 1) in *.
    assert (Hs : 0 <= sqrt u <= 1).
    { split; [apply sqrt_pos|]. rewrite <- sqrt_1. apply sqrt_le_1_alt. lra. }
    set (mn := Js.min (IZR W) (IZR H)).
    assert (Hmn : 0 < mn /\ mn <= IZR W /\ mn <= IZR H).
    { unfold mn, Js.min. split; [apply Rmin_glb_lt; lra|].
      split; [apply Rmin_l | apply Rmin_r]. }
    assert (Hbound : forall (t : R) (side : Z),
              -1 <= t <= 1 -> mn <= IZR side ->
              (0 <= Js.round (IZR side / 2 + t * (sqrt u * (mn * (3 / 10)))) <= side)%Z).
    { intros t side Ht Hside.
      assert (Hr : 0 <= sqrt u * (mn * (3 / 10)) <= mn * (3 / 10)) by nra.
      assert (Hv : - (mn * (3 / 10)) <= t * (sqrt u * (mn * (3 / 10))) <= mn * (3 / 10)) by nra.
      pose proof (round_bound (IZR side / 2 + t * (sqrt u * (mn * (3 / 10))))) as [Hb1 Hb2].
      split.
      - apply Zfloor_lub. simpl. lra.
      - assert (Js.round (IZR side / 2 + t * (sqrt u * (mn * (3 / 10)))) < side + 1)%Z; [|lia].
        apply lt_IZR. rewrite plus_IZR. lra. }
    split; apply Hbound; try apply COS_bound; try apply SIN_bound; lra.
  - subst p0. apply Hplain.
Qed.

(** With positive integer width, height and [minDistance], and grid
    dimensions that are array lengths, there is no exception: [sample]
    returns a list for every large enough fuel, every point of it after
    the first lies inside the canvas, and all its points are pairwise at
    least [minDistance] apart.  The irrational cell size keeps every grid
    boundary off the integer coordinates, so a first point on the right
    or bottom edge is still filed inside the grid. *)
Lemma integer_config_sound (W H m : Z) ma cb rng0 :
  (0 < W)%Z -> (0 < H)%Z -> (0 < m)%Z ->
  (Js.ceil (IZR W / (IZR m / sqrt 2)) <= 4294967295)%Z ->
  (Js.ceil (IZR H / (IZR m / sqrt 2)) <= 4294967295)%Z ->
  exists fuel0 l r,
    (forall fuel, (fuel0 <= fuel)%nat ->
       sample fuel (mkConfig (IZR W) (IZR H) (IZR m) ma cb) rng0 = Some (Js.Ok l, r))
    /\ (forall q, In q (tl l) -> (0 <= x q < W)%Z /\ (0 <= y q < H)%Z)
    /\ ForallOrdPairs (fun p q => IZR m <= distance p q) l.
Proof.
  intros HW HH Hm Hgw Hgh.
  assert (HmR : 0 < IZR m) by (apply IZR_lt; exact Hm).
  set (bias := match cb with Some b => b | None => 0 end).
  pose proof (first_point_closed_range W H bias rng0 HW HH) as [Hx Hy].
  set (p0 := fst (generateRandomPoint (IZR W) (IZR H) bias rng0)) in *.
  pose proof (index_in_grid_closed W m (x p0) HW Hm Hx) as Hcol.
  pose proof (index_in_grid_closed H m (y p0) HH Hm Hy) as Hrow.
  set (big := S (2 * S (length (all_cells (Js.ceil (IZR W / (IZR m / sqrt 2)))
                                          (Js.ceil (IZR H / (IZR m / sqrt 2))))))).
  assert (Ebig : exists l r,
             sample big (mkConfig (IZR W) (IZR H) (IZR m) ma cb) rng0 = Some (Js.Ok l, r)).
  { destruct (sample_total (IZR m) (IZR W) (IZR H) HmR ma cb rng0 big)
      as [E1|[[Hno _]|[ext [r1 [s [E1 _]]]]]].
    - unfold big. lia.
    - exfalso. rewrite sample_started in E1; [|exact HmR|lia|lia].
      fold bias in E1. fold p0 in Hrow.
      destruct (generateRandomPoint (IZR W) (IZR H) bias rng0) as [q r1] eqn:Eg.
      cbn [fst] in p0. subst p0.
      destruct (addPoint_first (IZR m) (IZR W) (IZR H) r1 q) as [Hok _].
      destruct Hok as [s [Es [HI [Ha _]]]]; [exact Hrow|]. rewrite Es in E1.
      destruct (while_active_terminates (IZR m) (IZR W) (IZR H) HmR
                  (match ma with Some n => n | None => 30 end) bias big [q] s HI)
        as [l [r [sf [El _]]]].
      + unfold measure, big. rewrite Ha. simpl. lia.
      + rewrite El in E1. discriminate.
    - exfalso. apply Hno. fold bias. exact Hrow.
    - eexists. eexists. exact E1. }
  destruct Ebig as [l [r Ebig]].
  exists big, l, r. split; [intros fuel Hle; eapply sample_mono; eassumption|].
  split.
  - intros q Hq.
    destruct (sample_tail_in_bounds (IZR m) (IZR W) (IZR H) HmR ma cb rng0 big l r Ebig q Hq)
      as [[Hx0 Hx1] [Hy0 Hy1]].
    apply le_IZR in Hx0, Hy0. apply lt_IZR in Hx1, Hy1. lia.
  - apply (sample_min_distance (IZR m) (IZR W) (IZR H) HmR ma cb rng0 big l r Ebig).
    unfold cell_of. apply all_cells_In. fold bias. fold p0. split; assumption.
Qed.

End IntegerConfig.

(** ** The generator's other methods *)

Section GeneratorMethods.

Import Random.
#[local] Open Scope Z_scope.

(** [nextInt] with bounds in the wrong order, or equal, stays between
    them. *)
Lemma nextInt_reversed lo hi s :
  hi <= lo -> hi <= fst (nextInt lo hi s) <= lo.
Proof.
  intros Hle. rewrite nextInt_eq. cbn [fst].
  pose proof (draw_range s 0) as [Hlo Hhi].
  assert (Hd : (IZR (hi - lo) <= 0)%R) by (apply IZR_le; lia).
  pose proof (Zfloor_bound (draw s 0 * IZR (hi - lo))) as [Hf1 Hf2].
  unfold Js.floor. split.
  - assert (hi - lo <= Zfloor (draw s 0 * IZR (hi - lo))); [|lia].
    apply Zfloor_lub. nra.
  - assert (Zfloor (draw s 0 * IZR (hi - lo)) < 1); [|lia].
    apply lt_IZR. nra.
Qed.



(** X2.  [nextInt] on an empty or reversed range: with [max <= min] the
    result lies between [max] and [min], both included; in particular
    [nextInt(n, n)] is [n]. *)
Theorem nextInt_empty_range (min max : Z) (rng : Mulberry32) :
  (max <= min -> max <= fst (nextInt min max rng) <= min)
  /\ fst (nextInt min min rng) = min.
Proof.
  split; [apply nextInt_reversed|].
  pose proof (nextInt_reversed min min rng (Z.le_refl min)). lia.
Qed.

#[local] Open Scope R_scope.

(** X3.  [nextFloat(min, max)] with [min < max] returns a number of the
    half-open range [min, max); with [min = max] it returns [min]. *)
Theorem nextFloat_half_open (min max : R) (rng : Mulberry32) :
  min <= max ->
  min <= fst (nextFloat min max rng) <= max
  /\ (min < max -> fst (nextFloat min max rng) < max)
  /\ snd (nextFloat min max rng) = after 1 rng.
Proof.
  intros Hle. rewrite nextFloat_eq. cbn [fst snd].
  pose proof (draw_range rng 0) as [Hlo Hhi].
  split; [split; nra|]. split; [intros Hlt; nra | reflexivity].
Qed.

Lemma nextFloat_half_open_witness :
  (2 / 10 <= fst (nextFloat (2 / 10) (35 / 100) 1337%Z) <= 35 / 100)
  /\ (2 / 10 < 35 / 100 -> fst (nextFloat (2 / 10) (35 / 100) 1337%Z) < 35 / 100)
  /\ snd (nextFloat (2 / 10) (35 / 100) 1337%Z) = after 1 1337%Z.
Proof. apply (nextFloat_half_open (2 / 10) (35 / 100) 1337%Z). lra. Defined.

(** X4.  [choice(array)] returns an element of a non-empty array, and
    [undefined] exactly when the array is empty; either way it takes one
    number from the generator. *)
Theorem choice_member {T} (array : list T) (rng : Mulberry32) :
  match fst (choice array rng) with
  | Some a => In a array
  | None => array = []
  end
  /\ snd (choice array rng) = after 1 rng.
Proof.
  unfold choice, bind, ret. rewrite nextInt_eq. cbv beta iota. cbn [fst snd].
  split; [|reflexivity].
  destruct array as [|a0 rest].
  - destruct (Z.to_nat _); reflexivity.
  - pose proof (nextInt_range 0 (Z.of_nat (length (a0 :: rest))) rng) as Hr.
    rewrite nextInt_eq in Hr. cbn [fst] in Hr.
    assert (Hpos : (0 < Z.of_nat (length (a0 :: rest)))%Z) by (cbn [length]; lia).
    specialize (Hr Hpos).
    destruct (nth_error (a0 :: rest) _) as [a|] eqn:E.
    + apply nth_error_In in E. exact E.
    + apply nth_error_None in E. lia.
Qed.

(** X5.  [pointInCircle(radius)] returns a point of the closed disc of
    that radius around the origin, and a point strictly inside when the
    radius is not 0. *)
Theorem pointInCircle_inside (radius : R) (rng : Mulberry32) :
  let p := fst (pointInCircle radius rng) in
  vx p * vx p + vy p * vy p <= radius * radius
  /\ (radius <> 0 -> vx p * vx p + vy p * vy p < radius * radius).
Proof.
  intros p. subst p. rewrite pointInCircle_eq. cbn [fst vx vy].
  set (a := draw rng 0 * (PI * 2)).
  pose proof (draw_range rng 1) as [Hu0 Hu1].
  set (u := draw rng 1) in *.
  assert (Hsq : sqrt u * sqrt u = u) by (apply sqrt_sqrt; exact Hu0).
  pose proof (sin2_cos2 a) as Hsc. unfold Rsqr in Hsc.
  assert (E : cos a * (sqrt u * radius) * (cos a * (sqrt u * radius))
              + sin a * (sqrt u * radius) * (sin a * (sqrt u * radius))
              = u * (radius * radius)).
  { transitivity ((sin a * sin a + cos a * cos a) * (sqrt u * sqrt u) * (radius * radius));
      [ring|]. rewrite Hsc, Hsq. ring. }
  rewrite E. split; [nra|].
  intros Hr. assert (0 < radius * radius) by nra. nra.
Qed.

(** X6.  [pointInRect(width, height)] with positive sides returns a point
    of the half-open rectangle [0, width) x [0, height), from two numbers
    of the generator. *)
Theorem pointInRect_inside (width height : R) (rng : Mulberry32) :
  0 < width -> 0 < height ->
  let p := fst (pointInRect width height rng) in
  (0 <= vx p < width) /\ (0 <= vy p < height)
  /\ snd (pointInRect width height rng) = after 2 rng.
Proof.
  intros Hw Hh p. subst p. unfold pointInRect, bind, ret.
  rewrite !nextFloat_eq. cbv beta iota. cbn [fst snd vx vy].
  pose proof (draw_range rng 0) as [Ha0 Ha1].
  pose proof (draw_range (after 1 rng) 0) as [Hb0 Hb1].
  split; [split; nra|]. split; [split; nra|].
  after_norm. reflexivity.
Qed.

Lemma pointInRect_inside_witness :
  let p := fst (pointInRect 800 600 1337%Z) in
  (0 <= vx p < 800) /\ (0 <= vy p < 600)
  /\ snd (pointInRect 800 600 1337%Z) = after 2 1337%Z.
Proof. apply (pointInRect_inside 800 600 1337%Z); lra. Defined.

End GeneratorMethods.

(** ** [shuffle] and the period of the generator *)

Section ShuffleAndPeriod.

Import Random.
#[local] Open Scope Z_scope.

Lemma array_set_length {T} (l : list T) : forall i v,
  length (array_set l i v) = length l.
Proof.
  induction l as [|a l IH]; intros [|i] v; cbn [array_set length]; try reflexivity.
  rewrite IH. reflexivity.
Qed.

Lemma nth_error_array_set_eq {T} (l : list T) : forall i a v,
  nth_error l i = Some a -> nth_error (array_set l i v) i = Some v.
Proof.
  induction l as [|b l IH]; intros [|i] a v E; cbn [array_set nth_error] in *;
    try discriminate; [reflexivity | eapply IH; exact E].
Qed.

Lemma nth_error_array_set_neq {T} (l : list T) : forall i j v,
  i <> j -> nth_error (array_set l i v) j = nth_error l j.
Proof.
  induction l as [|b l IH]; intros [|i] [|j] v Hne; cbn [array_set nth_error];
    try reflexivity; [contradiction | apply IH; congruence].
Qed.

(** Writing [v] over the element [a] at an index exchanges the two. *)
Lemma array_set_perm {T} (l : list T) : forall i a v,
  nth_error l i = Some a -> Permutation (a :: array_set l i v) (v :: l).
Proof.
  induction l as [|b l IH]; intros [|i] a v E; cbn [array_set nth_error] in *;
    try discriminate.
  - injection E as ->. apply perm_swap.
  - eapply perm_trans; [apply perm_swap|].
    eapply perm_trans; [apply perm_skip, (IH i a v E)|]. apply perm_swap.
Qed.

Lemma swap_perm {T} (l : list T) i j : Permutation (swap l i j) l.
Proof.
  unfold swap. destruct (nth_error l i) as [a|] eqn:Ei; [|reflexivity].
  destruct (nth_error l j) as [b|] eqn:Ej; [|reflexivity].
  assert (Ej' : nth_error (array_set l i b) j = Some b).
  { destruct (Nat.eq_dec i j) as [<-|Hne].
    - eapply nth_error_array_set_eq. exact Ei.
    - rewrite nth_error_array_set_neq by exact Hne. exact Ej. }
  apply (Permutation_cons_inv (a := b)).
  eapply perm_trans; [apply (array_set_perm _ j b a Ej')|].
  apply (array_set_perm _ i a b Ei).
Qed.

Lemma shuffle_from_spec {T} (i : nat) : forall (array : list T) rng,
  Permutation (fst (shuffle_from i array rng)) array
  /\ snd (shuffle_from i array rng) = after i rng.
Proof.
  induction i as [|i IH]; intros array rng.
  - split; reflexivity.
  - cbn [shuffle_from]. unfold bind. rewrite nextInt_eq. cbv beta iota.
    match goal with
    | |- context [shuffle_from i ?l ?r] => destruct (IH l r) as [Hp Hs]
    end.
    split.
    + eapply perm_trans; [exact Hp | apply swap_perm].
    + rewrite Hs. apply (after_after 1 i rng).
Qed.

(** X7.  [shuffle(array)] returns a rearrangement of the array: the same
    elements with the same multiplicities.  It takes one number from the
    generator per element but one, and leaves an array of at most one
    element as it is. *)
Theorem shuffle_permutation {T} (array : list T) (rng : Mulberry32) :
  Permutation (fst (shuffle array rng)) array
  /\ length (fst (shuffle array rng)) = length array
  /\ snd (shuffle array rng) = after (length array - 1) rng
  /\ ((length array <= 1)%nat -> shuffle array rng = (array, rng)).
Proof.
  unfold shuffle.
  destruct (shuffle_from_spec (length array - 1) array rng) as [Hp Hs].
  split; [exact Hp|]. split; [apply Permutation_length; exact Hp|].
  split; [exact Hs|].
  intros Hlen. replace (length array - 1)%nat with O by lia. reflexivity.
Qed.

(** The 32-bit conversion identifies exactly the integers that differ by
    a multiple of 2^32. *)
Lemma toInt32_eq_iff a b :
  Js.toInt32 a = Js.toInt32 b <-> (a - b) mod 2 ^ 32 = 0.
Proof.
  unfold Js.toInt32. split; intros E.
  - assert (E' : (a + 2 ^ 31) mod 2 ^ 32 = (b + 2 ^ 31) mod 2 ^ 32) by lia.
    apply Z.cong_iff_0 in E'. replace (a - b) with (a + 2 ^ 31 - (b + 2 ^ 31)) by lia.
    exact E'.
  - f_equal. apply Z.cong_iff_0.
    replace (a + 2 ^ 31 - (b + 2 ^ 31)) with (a - b) by lia. exact E.
Qed.

(** The increment of the state is odd, so multiplying by it loses
    nothing modulo 2^32. *)
Lemma increment_cancel d :
  (d * 0x6d2b79f5) mod 2 ^ 32 = 0 <-> d mod 2 ^ 32 = 0.
Proof.
  rewrite !Z.mod_divide by (vm_compute; discriminate).
  split; intros Hd.
  - apply (Z.gauss _ 0x6d2b79f5).
    + rewrite Z.mul_comm. exact Hd.
    + vm_compute. reflexivity.
  - apply Z.divide_mul_l. exact Hd.
Qed.

(** X8.  The state of the generator has period exactly 2^32: the states
    after two numbers of draws are equal if and only if the numbers differ
    by a multiple of 2^32, whatever the seed; draws at positions that
    differ by a multiple of 2^32 are equal. *)
Theorem generator_period (seed : Z) (n k : nat) :
  (after (S n) seed = after (S k) seed
   <-> (Z.of_nat n - Z.of_nat k) mod 2 ^ 32 = 0)
  /\ ((Z.of_nat n - Z.of_nat k) mod 2 ^ 32 = 0 -> draw seed n = draw seed k).
Proof.
  assert (Hiff : after (S n) seed = after (S k) seed
                 <-> (Z.of_nat n - Z.of_nat k) mod 2 ^ 32 = 0).
  { rewrite !after_closed_form, toInt32_eq_iff.
    replace (seed + (Z.of_nat n + 1) * 0x6d2b79f5 - (seed + (Z.of_nat k + 1) * 0x6d2b79f5))
      with ((Z.of_nat n - Z.of_nat k) * 0x6d2b79f5) by ring.
    apply increment_cancel. }
  split; [exact Hiff|].
  intros E. apply Hiff in E.
  unfold draw. rewrite !next_fst, <- !after_S, E. reflexivity.
Qed.

End ShuffleAndPeriod.

(** ** What the sampler returns, whatever the configuration *)

Section SamplerOutput.

Import Random Poisson SamplerSpec.
#[local] Open Scope R_scope.

Lemma round_mono a b : a <= b -> (Js.round a <= Js.round b)%Z.
Proof. intros Hab. unfold Js.round. apply Zfloor_le. lra. Qed.

Lemma round_0 : Js.round 0 = 0%Z.
Proof. apply (round_IZR 0). Qed.

Lemma floor_0_div c : Js.floor (IZR 0 / c) = 0%Z.
Proof.
  unfold Js.floor, Rdiv. rewrite Rmult_0_l. apply (Zfloor_eq 0 0). simpl. lra.
Qed.

(** A point inside the canvas that is at least [minDistance] away from
    every point stored in the grid passes [isValidPoint]. *)
Lemma isValidPoint_accepts (s : PoissonSampler) (p : Point) (m W H : R) :
  (0 <= IZR (x p) < W) -> (0 <= IZR (y p) < H) ->
  (forall r k q,
     (0 <= r < gridHeight s)%Z -> (0 <= k < gridWidth s)%Z ->
     grid s r k = Some q -> m <= distance p q) ->
  isValidPoint s p m W H = true.
Proof.
  intros [Hx0 Hx1] [Hy0 Hy1] Hfar. unfold isValidPoint.
  rewrite (ltb_false (IZR (x p)) 0), (geb_false (IZR (x p)) W),
    (ltb_false (IZR (y p)) 0), (geb_false (IZR (y p)) H) by assumption.
  cbn [orb]. apply forallb_forall. intros r Hr. apply forallb_forall. intros k Hk.
  apply range_In in Hr, Hk.
  destruct (grid s r k) as [q|] eqn:Hq; [|reflexivity].
  apply negb_true_iff, ltb_false. apply (Hfar r k q); [lia | lia | exact Hq].
Qed.

(** Without centre bias a candidate takes two numbers: the angle from the
    first, the radius from the second. *)
Lemma candidate_unbiased (q : Point) (m W H cb : R) (r : Mulberry32) :
  cb <= 0 ->
  generateRandomPointAround q m W H cb r
  = ({| x := Js.round (Js.max 0 (Js.min (W - 1)
                 (IZR (x q) + cos (draw r 0 * (PI * 2)) * (draw r 1 * m + m))));
        y := Js.round (Js.max 0 (Js.min (H - 1)
                 (IZR (y q) + sin (draw r 0 * (PI * 2)) * (draw r 1 * m + m)))) |},
     after 2 r).
Proof.
  intros Hcb. unfold generateRandomPointAround.
  rewrite (nextFloat_eq 0 (PI * 2) r). cbv beta iota.
  rewrite (nextFloat_eq m (m * 2) (after 1 r)). cbv beta iota zeta.
  rewrite (ltb_false 0 cb Hcb). rewrite draw_after. after_norm. cbn [Nat.add].
  replace (draw r 0 * (PI * 2 - 0) + 0) with (draw r 0 * (PI * 2)) by ring.
  replace (draw r 1 * (m * 2 - m) + m) with (draw r 1 * m + m) by ring.
  reflexivity.
Qed.

(** For seed 3 the first two draws are 3093350482 / 2^32 (about 0.720)
    and 166052715 / 2^32 (about 0.039): on a 100 x 1 canvas the first
    point is (72, 0). *)
Lemma first_point_seed_3 :
  generateRandomPoint 100 1 0 (createRandom 3) = (mkPoint 72 0, after 2 3%Z).
Proof.
  unfold createRandom. rewrite generateRandomPoint_unbiased by lra.
  draw_eval. f_equal. f_equal; apply round_eq; lra.
Qed.

(** A run that returns two points or more.  On a 100 x 1 canvas with
    [minDistance = 8] and seed 3 the first point is (72, 0).  The first
    candidate around it has the angle 2 pi * 321813351 / 2^32 (about 27
    degrees) and the radius 8 + 8 * 3277083196 / 2^32 (about 14.1): it
    lies 8 or more to the right of the first point and is accepted. *)
Lemma two_point_run :
  exists fuel c1 ext r,
    sample fuel (mkConfig 100 1 8 None None) (createRandom 3)
    = Some (Js.Ok (mkPoint 72 0 :: c1 :: ext), r)
    /\ (80 <= x c1 <= 99)%Z /\ y c1 = 0%Z.
Proof.
  assert (Hm : 0 < 8) by lra.
  pose proof sqrt2_pos as Hs0. pose proof sqrt2_sq as Hsq.
  assert (Hs : 14 / 10 < sqrt 2 < 142 / 100) by (split; nra).
  assert (Hgh : Js.ceil (1 / (8 / sqrt 2)) = 1%Z).
  { unfold Js.ceil. apply Zceil_eq.
    replace (1 / (8 / sqrt 2)) with (sqrt 2 / 8) by (field; lra). simpl. lra. }
  assert (Hgw : Js.ceil (100 / (8 / sqrt 2)) = 18%Z).
  { unfold Js.ceil. apply Zceil_eq.
    replace (100 / (8 / sqrt 2)) with (100 * sqrt 2 / 8) by (field; lra). simpl. lra. }
  set (p0 := mkPoint 72 0).
  destruct (addPoint_first 8 100 1 (after 2 3%Z) p0) as [Hok _].
  destruct Hok as [s [E [HI [Ha [Hr Hg]]]]].
  { cbn [y p0]. rewrite Hgh, floor_0_div. lia. }
  set (c1 := fst (generateRandomPointAround p0 8 100 1 0 (after 1 (rng s)))).
  assert (Hc1 : (80 <= x c1 <= 99)%Z /\ y c1 = 0%Z).
  { unfold c1. rewrite Hr. after_norm. cbn [Nat.add].
    rewrite candidate_unbiased by lra. cbn [fst x y p0].
    rewrite !draw_after. cbn [Nat.add]. draw_eval.
    set (a := 321813351 / 4294967296 * (PI * 2)).
    set (rad := 3277083196 / 4294967296 * 8 + 8).
    pose proof PI_RGT_0 as Hpi.
    assert (Ha0 : 0 <= a <= PI / 4) by (unfold a; split; lra).
    assert (Hcos : 7 / 10 <= cos a).
    { apply Rle_trans with (cos (PI / 4)).
      - rewrite cos_PI4.
        assert (Hinv : 1 / sqrt 2 * sqrt 2 = 1) by (field; lra).
        assert (Hpos : 0 < 1 / sqrt 2) by (apply Rdiv_lt_0_compat; lra).
        nra.
      - apply cos_decr_1; lra. }
    assert (Hrad : 14 <= rad) by (unfold rad; lra).
    assert (HX : 80 <= 72 + cos a * rad) by nra.
    split; [split|].
    - rewrite <- (round_IZR 80). apply round_mono.
      unfold Js.max, Js.min. eapply Rle_trans; [|apply Rmax_r].
      apply Rmin_glb; lra.
    - replace (100 - 1) with (IZR 99) by (simpl; lra). apply round_clamp_le. lia.
    - apply round_clamp_zero. lra. }
  destruct Hc1 as [Hx Hy].
  assert (Hv : isValidPoint s c1 8 100 1 = true).
  { pose proof (IZR_le _ _ (proj1 Hx)) as Hx0. pose proof (IZR_le _ _ (proj2 Hx)) as Hx1.
    apply isValidPoint_accepts.
    - lra.
    - rewrite Hy. lra.
    - intros r k q _ _ Hq. rewrite Hg in Hq.
      destruct (_ && _); [|discriminate]. injection Hq as <-.
      apply distance_lower; [lra|]. left. cbn [x p0]. nra. }
  destruct (while_body_accepts 8 100 1 30 0 s p0 29 Hm HI Ha) as [s2 [Eb HI2]].
  { rewrite attempt_count_30. reflexivity. }
  { exact Hv. }
  fold c1 in Eb, HI2.
  set (fuel := S (measure 8 100 1 [p0; c1] s2)).
  destruct (while_active_terminates 8 100 1 Hm 30 0 fuel [p0; c1] s2 HI2)
    as [l [r [sf [El [[ext Hext] _]]]]]; [unfold fuel; lia|].
  exists (S fuel), c1, ext, r. split; [|split; assumption].
  rewrite sample_started; [|exact Hm|rewrite Hgh; lia|rewrite Hgw; lia].
  rewrite first_point_seed_3. fold p0. rewrite E.
  rewrite while_active_S, Ha, Eb, El, Hext. reflexivity.
Qed.

Lemma range_length lo hi : length (range lo hi) = Z.to_nat (hi - lo + 1).
Proof. unfold range. rewrite length_map, length_seq. reflexivity. Qed.

Lemma all_cells_length gw gh :
  length (all_cells gw gh) = (Z.to_nat gh * Z.to_nat gw)%nat.
Proof.
  unfold all_cells. rewrite length_prod, !range_length.
  replace (gh - 1 - 0 + 1)%Z with gh by lia.
  replace (gw - 1 - 0 + 1)%Z with gw by lia. reflexivity.
Qed.




(** X10.  A list returned by [sample] starts with the first point, and
    has at most one point per grid cell besides it. *)
Theorem sample_size_bound (W H m : R) (ma cb : option R) (rng0 : Mulberry32)
    (fuel : nat) (l : list Point) (r : Mulberry32) :
  0 < m ->
  sample fuel (mkConfig W H m ma cb) rng0 = Some (Js.Ok l, r) ->
  let c := m / sqrt 2 in
  hd_error l
  = Some (fst (generateRandomPoint W H (match cb with Some b => b | None => 0 end) rng0))
  /\ (length l <= 1 + Z.to_nat (Js.ceil (H / c)) * Z.to_nat (Js.ceil (W / c)))%nat.
Proof.
  intros Hm E c.
  destruct (sample_result_inv m W H Hm ma cb rng0 fuel l r E) as [ext [s [El HI]]].
  split; [rewrite El; reflexivity|].
  pose proof (Inv_length m W H l s HI) as Hlen.
  rewrite all_cells_length in Hlen. fold c in Hlen. lia.
Qed.

Lemma sample_size_bound_witness :
  let p0 := fst (generateRandomPoint 1 1 0 DEFAULT_SEED) in
  hd_error [p0] = Some p0
  /\ (length [p0] <= 1 + Z.to_nat (Js.ceil (1 / (100 / sqrt 2)))
                         * Z.to_nat (Js.ceil (1 / (100 / sqrt 2))))%nat.
Proof.
  pose proof (degenerate_run None None DEFAULT_SEED 0) as E. cbv zeta in E.
  exact (sample_size_bound 1 1 100 None None DEFAULT_SEED 2 _ _ ltac:(lra) E).
Defined.

(** X11.  [sample] never returns the same point twice: no two entries of
    the list have the same coordinates. *)
Theorem sample_no_duplicates (W H m : R) (ma cb : option R) (rng0 : Mulberry32)
    (fuel : nat) (l : list Point) (r : Mulberry32) :
  0 < m ->
  sample fuel (mkConfig W H m ma cb) rng0 = Some (Js.Ok l, r) ->
  NoDup l.
Proof.
  intros Hm E.
  destruct (sample_result_inv m W H Hm ma cb rng0 fuel l r E) as [ext [s [_ HI]]].
  apply (NoDup_map_inv (cell_of (m / sqrt 2))). exact (inv_nodup _ _ _ _ _ HI).
Qed.

(** The statement above on a run that returns two points or more. *)
Lemma sample_no_duplicates_witness :
  exists fuel l r,
    sample fuel (mkConfig 100 1 8 None None) (createRandom 3) = Some (Js.Ok l, r)
    /\ (2 <= length l)%nat /\ In (mkPoint 72 0) l
    /\ NoDup l.
Proof.
  destruct two_point_run as [fuel [c1 [ext [r [E _]]]]].
  exists fuel, (mkPoint 72 0 :: c1 :: ext), r.
  split; [exact E|]. split; [cbn [length]; lia|]. split; [left; reflexivity|].
  exact (sample_no_duplicates 100 1 8 None None (createRandom 3) fuel _ r ltac:(lra) E).
Defined.





End SamplerOutput.

(** ** Where an exception of [sample] can come from *)

Section SamplerExceptions.

Import Random Poisson SamplerSpec.
#[local] Open Scope R_scope.




End SamplerExceptions.

(** ** Where the first point and the candidates can lie *)

Section PointRanges.

Import Random Poisson SamplerSpec.
#[local] Open Scope R_scope.

(** The number that [generateRandomPoint] rounds to a coordinate lies
    between 0 and the side, whichever branch is taken. *)
Lemma first_point_raw (W H bias : R) rng0 :
  0 <= W -> 0 <= H ->
  exists X Y,
    generateRandomPoint W H bias rng0
    = ({| x := Js.round X; y := Js.round Y |},
       after (if Js.ltb 0 bias then 3 else 2) rng0)
    /\ 0 <= X <= W /\ 0 <= Y <= H.
Proof.
  intros HW HH. unfold generateRandomPoint.
  assert (Hplain : forall r,
            exists X Y,
              (px <- nextFloat 0 W ;; py <- nextFloat 0 H ;;
               ret {| x := Js.round px; y := Js.round py |})%rand r
              = ({| x := Js.round X; y := Js.round Y |}, after 2 r)
              /\ 0 <= X <= W /\ 0 <= Y <= H).
  { intros r. unfold bind, ret. rewrite !nextFloat_eq. cbv beta iota.
    pose proof (draw_range r 0) as [Ha0 Ha1].
    pose proof (draw_range (after 1 r) 0) as [Hb0 Hb1].
    eexists. eexists. split; [apply f_equal2; [reflexivity | after_norm; reflexivity]|].
    split; split; nra. }
  destruct (Js.ltb 0 bias).
  - unfold bind at 1. unfold ret at 1. rewrite next_eq. cbv beta iota.
    destruct (Js.ltb (draw rng0 0) bias).
    + unfold bind, ret.
      rewrite (pointInCircle_eq (Js.min W H * (3 / 10)) (after 1 rng0)). cbv beta iota.
      cbn [vx vy].
      set (a := draw (after 1 rng0) 0 * (PI * 2)).
      pose proof (draw_range (after 1 rng0) 1) as [Hu0 Hu1].
      set (u := draw (after 1 rng0) 1) in *.
      assert (Hs : 0 <= sqrt u <= 1).
      { split; [apply sqrt_pos|]. rewrite <- sqrt_1. apply sqrt_le_1_alt. lra. }
      set (mn := Js.min W H).
      assert (Hmn : 0 <= mn /\ mn <= W /\ mn <= H).
      { unfold mn, Js.min. split; [apply Rmin_glb; lra|].
        split; [apply Rmin_l | apply Rmin_r]. }
      assert (Hbound : forall (t side : R),
                -1 <= t <= 1 -> mn <= side ->
                0 <= side / 2 + t * (sqrt u * (mn * (3 / 10))) <= side).
      { intros t side Ht Hside.
        assert (Hr : 0 <= sqrt u * (mn * (3 / 10)) <= mn * (3 / 10)) by nra.
        assert (Hv : - (mn * (3 / 10)) <= t * (sqrt u * (mn * (3 / 10))) <= mn * (3 / 10))
          by nra.
        lra. }
      eexists. eexists. split; [apply f_equal2; [reflexivity | after_norm; reflexivity]|].
      split; apply Hbound; try apply COS_bound; try apply SIN_bound; lra.
    + destruct (Hplain (after 1 rng0)) as [X [Y [E HXY]]].
      exists X, Y. split; [|exact HXY]. rewrite E. after_norm. reflexivity.
  - apply Hplain.
Qed.

(** X15.  The first point of [sample] has both coordinates between 0 and
    the rounded side of the canvas, the side itself included: it is
    rounded but not clamped.  It takes two numbers from the generator
    without centre bias and three with it. *)
Theorem first_point_range (W H bias : R) (rng0 : Mulberry32) :
  0 <= W -> 0 <= H ->
  let p0 := fst (generateRandomPoint W H bias rng0) in
  (0 <= x p0 <= Js.round W)%Z /\ (0 <= y p0 <= Js.round H)%Z
  /\ snd (generateRandomPoint W H bias rng0) = after (if Js.ltb 0 bias then 3 else 2) rng0.
Proof.
  intros HW HH p0. subst p0.
  destruct (first_point_raw W H bias rng0 HW HH) as [X [Y [E [[HX0 HX1] [HY0 HY1]]]]].
  rewrite E. cbn [fst snd x y].
  split; [|split; [|reflexivity]]; (split; [rewrite <- round_0|]); apply round_mono;
    assumption.
Qed.

Lemma first_point_range_witness :
  let p0 := fst (generateRandomPoint 800 600 (5 / 10) DEFAULT_SEED) in
  (0 <= x p0 <= Js.round 800)%Z /\ (0 <= y p0 <= Js.round 600)%Z
  /\ snd (generateRandomPoint 800 600 (5 / 10) DEFAULT_SEED)
     = after (if Js.ltb 0 (5 / 10) then 3 else 2) DEFAULT_SEED.
Proof. apply (first_point_range 800 600 (5 / 10) DEFAULT_SEED); lra. Defined.



(** X17.  The geometry behind the grid of [isValidPoint]: with cells of
    side [minDistance / sqrt 2], two points of one cell are closer than
    [minDistance], so a cell holds at most one accepted point; and two
    points whose cells are three or more rows or columns apart are at
    least [minDistance] apart, so the 5 x 5 block of cells that is
    scanned misses no point that could be too close. *)
Theorem grid_scan_geometry (m : R) (p q : Point) :
  0 < m ->
  let c := m / sqrt 2 in
  (cell_of c p = cell_of c q -> distance p q < m)
  /\ ((3 <= Z.abs (fst (cell_of c p) - fst (cell_of c q))
       \/ 3 <= Z.abs (snd (cell_of c p) - snd (cell_of c q)))%Z ->
      m <= distance p q).
Proof.
  intros Hm c. unfold cell_of. cbn [fst snd]. split.
  - intros E. injection E as Ey Ex. apply same_cell_close; assumption.
  - intros Hfar. apply far_cells_apart; [exact Hm|]. fold c. lia.
Qed.

Lemma grid_scan_geometry_witness :
  let c := 8 / sqrt 2 in
  (cell_of c (mkPoint 0 0) = cell_of c (mkPoint 3 4) -> distance (mkPoint 0 0) (mkPoint 3 4) < 8)
  /\ ((3 <= Z.abs (fst (cell_of c (mkPoint 0 0)) - fst (cell_of c (mkPoint 3 4)))
       \/ 3 <= Z.abs (snd (cell_of c (mkPoint 0 0)) - snd (cell_of c (mkPoint 3 4))))%Z ->
      8 <= distance (mkPoint 0 0) (mkPoint 3 4)).
Proof. apply (grid_scan_geometry 8 (mkPoint 0 0) (mkPoint 3 4)). lra. Defined.

(** For positive integers the number of cells along a side is at most
    twice the side: the cell size [m / sqrt 2] is above one half. *)
Lemma grid_dim_le (W m : Z) :
  (0 < W)%Z -> (0 < m)%Z -> (Js.ceil (IZR W / (IZR m / sqrt 2)) <= 2 * W)%Z.
Proof.
  intros HW Hm. pose proof sqrt2_pos as Hs0. pose proof sqrt2_lt_2 as Hs2.
  assert (HWR : 1 <= IZR W) by (apply IZR_le; lia).
  assert (HmR : 1 <= IZR m) by (apply IZR_le; lia).
  assert (E : IZR W / (IZR m / sqrt 2) = IZR W * sqrt 2 / IZR m) by (field; lra).
  assert (Hq : IZR W / (IZR m / sqrt 2) <= 2 * IZR W).
  { rewrite E. apply Rmult_le_reg_r with (IZR m); [lra|].
    unfold Rdiv. rewrite Rmult_assoc, Rinv_l by lra. nra. }
  unfold Js.ceil. pose proof (Zceil_bound (IZR W / (IZR m / sqrt 2))) as [Hc _].
  assert (Zceil (IZR W / (IZR m / sqrt 2)) < 2 * W + 1)%Z; [|lia].
  apply lt_IZR. rewrite plus_IZR, mult_IZR. lra.
Qed.



End PointRanges.

(** ** [isValidPoint] against the plain distance test *)

Section ValidPointExact.

Import Random Poisson SamplerSpec.
#[local] Open Scope R_scope.

(** For an integer [m], a distance of at least [m] between two points is
    a comparison of integers: the squared distance against [m * m]. *)
Lemma distance_sq_Z (m : Z) (p q : Point) :
  (0 <= m)%Z -> IZR m <= distance p q ->
  (m * m <= (x p - x q) ^ 2 + (y p - y q) ^ 2)%Z.
Proof.
  intros Hm Hd. apply IZR_le in Hm. unfold distance in Hd.
  set (S := (IZR (x p) - IZR (x q)) ^ 2 + (IZR (y p) - IZR (y q)) ^ 2) in *.
  assert (HS : 0 <= S) by (unfold S; apply Rplus_le_le_0_compat; apply pow2_ge_0).
  pose proof (sqrt_sqrt S HS) as Hsq. pose proof (sqrt_pos S) as Hpos.
  assert (Hle : IZR m * IZR m <= S) by nra.
  apply le_IZR. rewrite !Z.pow_2_r, plus_IZR, !mult_IZR, !minus_IZR.
  unfold S in Hle. nra.
Qed.




End ValidPointExact.

(** ** The attribute generators of [space-paint.ts] *)

Section PaintAttributes.

Import Random Browser Paint.
#[local] Open Scope R_scope.

(** Unfolds the calls of the generator's methods one after the other. *)
Ltac paint_draws :=
  unfold bind, ret;
  repeat (first [ rewrite nextBoolean_eq | rewrite nextFloat_eq
                | rewrite nextInt_eq | rewrite next_eq ];
          cbv beta iota).

Lemma palette_get_In (palette : list Z) (i : Z) :
  (0 <= i < Z.of_nat (length palette))%Z ->
  exists v, palette_get palette i = Some v /\ In v palette.
Proof.
  intros [Hi0 Hi1]. unfold palette_get.
  destruct (i <? 0)%Z eqn:E; [apply Z.ltb_lt in E; lia|].
  destruct (nth_error palette (Z.to_nat i)) as [v|] eqn:En.
  - exists v. split; [reflexivity | eapply nth_error_In; exact En].
  - apply nth_error_None in En. lia.
Qed.

Lemma scaled_draw_range (u lo hi : R) :
  0 <= u < 1 -> lo < hi -> lo <= u * (hi - lo) + lo < hi.
Proof. intros [H0 H1] Hlt. split; nra. Qed.

(** What [generateStarConfig] returns, and how many numbers it takes. *)
Lemma generateStarConfig_facts (layer : StarLayer) (palette : list Z) (rng : Mulberry32) :
  let config := fst (generateStarConfig layer palette rng) in
  (size config = 1 \/ size config = 2)%Z
  /\ (color config = palette_get palette 0 \/ color config = palette_get palette 1
      \/ color config = palette_get palette 3)
  /\ match layer with
     | micro => 75 / 100 <= alpha config < 1
     | small => 5 / 10 <= alpha config < 8 / 10
     end
  /\ (snd (generateStarConfig layer palette rng) = after 3 rng
      \/ snd (generateStarConfig layer palette rng) = after 4 rng).
Proof.
  intros config. subst config. unfold generateStarConfig.
  destruct layer; paint_draws.
  - destruct (Js.ltb (draw (after 1 rng) 0 * (1 - 0) + 0) (8 / 10)); paint_draws;
      cbn [fst snd size color alpha]; after_norm; cbn [Nat.add].
    + split; [destruct (Js.ltb (draw rng 0) (1 / 2)); [left | right]; reflexivity|].
      split; [left; reflexivity|].
      split; [apply scaled_draw_range; [apply draw_range | lra] | left; reflexivity].
    + split; [destruct (Js.ltb (draw rng 0) (1 / 2)); [left | right]; reflexivity|].
      split; [destruct (Js.ltb _ (7 / 10)); [right; left | right; right]; reflexivity|].
      split; [apply scaled_draw_range; [apply draw_range | lra] | right; reflexivity].
  - pose proof (nextInt_range 1 3 rng ltac:(lia)) as Hsz.
    rewrite nextInt_eq in Hsz. cbn [fst] in Hsz.
    destruct (Js.ltb (draw (after 1 rng) 0 * (1 - 0) + 0) (6 / 10)); paint_draws;
      cbn [fst snd size color alpha]; after_norm; cbn [Nat.add].
    + split; [lia|]. split; [left; reflexivity|].
      split; [apply scaled_draw_range; [apply draw_range | lra] | left; reflexivity].
    + split; [lia|].
      split; [destruct (Js.ltb _ (7 / 10)); [right; left | right; right]; reflexivity|].
      split; [apply scaled_draw_range; [apply draw_range | lra] | right; reflexivity].
Qed.

(** X20.  [generateStarConfig]: the size is 1 or 2; the colour is entry
    0, 1 or 3 of the palette, hence a colour of the palette when it has
    four entries or more, and [undefined] on the empty palette; the alpha
    lies in [0.75, 1) on the micro layer and in [0.5, 0.8) on the small
    layer; and three or four numbers are taken from the generator. *)
Theorem generateStarConfig_ranges (layer : StarLayer) (palette : list Z) (rng : Mulberry32) :
  let config := fst (generateStarConfig layer palette rng) in
  (size config = 1 \/ size config = 2)%Z
  /\ ((4 <= length palette)%nat -> exists v, color config = Some v /\ In v palette)
  /\ (palette = [] -> color config = None)
  /\ match layer with
     | micro => 75 / 100 <= alpha config < 1
     | small => 5 / 10 <= alpha config < 8 / 10
     end
  /\ (snd (generateStarConfig layer palette rng) = after 3 rng
      \/ snd (generateStarConfig layer palette rng) = after 4 rng).
Proof.
  intros config.
  destruct (generateStarConfig_facts layer palette rng) as [Hs [Hc [Ha Hr]]].
  fold config in Hs, Hc, Ha.
  split; [exact Hs|]. split; [|split; [|split; [exact Ha | exact Hr]]].
  - intros Hlen.
    destruct Hc as [ -> | [ -> | -> ] ]; apply palette_get_In; lia.
  - intros ->. destruct Hc as [ -> | [ -> | -> ] ]; reflexivity.
Qed.

(** X21.  [generateSparkleConfig]: the size is 3, 4 or 5; the colour is
    an entry of the palette, and [undefined] exactly when the palette is
    empty; the alpha lies in [0.2, 0.35); the core size is 1; and exactly
    three numbers are taken from the generator. *)
Theorem generateSparkleConfig_ranges (palette : list Z) (rng : Mulberry32) :
  let config := fst (generateSparkleConfig palette rng) in
  (3 <= sparkle_size config <= 5)%Z
  /\ match sparkle_color config with
     | Some v => In v palette
     | None => palette = []
     end
  /\ 2 / 10 <= sparkle_alpha config < 35 / 100
  /\ coreSize config = 1%Z
  /\ snd (generateSparkleConfig palette rng) = after 3 rng.
Proof.
  intros config. subst config. unfold generateSparkleConfig.
  pose proof (nextInt_range 3 6 rng ltac:(lia)) as Hsz.
  rewrite nextInt_eq in Hsz. cbn [fst] in Hsz.
  paint_draws. cbn [fst snd sparkle_size sparkle_color sparkle_alpha coreSize].
  split; [lia|]. split; [|split; [|split]].
  - destruct palette as [|c0 rest].
    + cbn [length]. change (Z.of_nat 0 - 0)%Z with 0%Z.
      rewrite Rmult_0_r. unfold Js.floor.
      replace (Zfloor 0) with 0%Z by (symmetry; apply (Zfloor_eq 0 0); simpl; lra).
      reflexivity.
    + pose proof (nextInt_range 0 (Z.of_nat (length (c0 :: rest))) (after 1 rng)) as Hi.
      rewrite nextInt_eq in Hi. cbn [fst] in Hi.
      assert (Hpos : (0 < Z.of_nat (length (c0 :: rest)))%Z) by (cbn [length]; lia).
      destruct (palette_get_In (c0 :: rest) _ (Hi Hpos)) as [v [Ev Hv]].
      rewrite Ev. exact Hv.
  - apply scaled_draw_range; [apply draw_range | lra].
  - reflexivity.
  - after_norm. reflexivity.
Qed.

(** X22.  [createRibbonStreak] for a positive radius: the line width is
    an integer from 6 to 14, the length lies in [radius / 2, 3 radius /
    2), the angle in [0, 2 pi), the alpha in [0.05, 0.1), and exactly
    four numbers are taken from the generator. *)
Theorem createRibbonStreak_ranges (radius : R) (rng : Mulberry32) :
  0 < radius ->
  let streak := fst (createRibbonStreak radius rng) in
  (6 <= streak_width streak <= 14)%Z
  /\ radius / 2 <= streak_length streak < 3 * radius / 2
  /\ 0 <= streak_angle streak < 2 * PI
  /\ 5 / 100 <= streak_alpha streak < 1 / 10
  /\ snd (createRibbonStreak radius rng) = after 4 rng.
Proof.
  intros Hr streak. subst streak.
  split; [|split; [|split; [|split]]]; [| | | |apply createRibbonStreak_rng];
    unfold createRibbonStreak.
  - pose proof (nextInt_range 6 15 rng ltac:(lia)) as Hw.
    rewrite nextInt_eq in Hw. cbn [fst] in Hw.
    paint_draws. cbn [fst streak_width]. lia.
  - paint_draws. cbn [fst streak_length].
    pose proof (scaled_draw_range (draw (after 1 rng) 0) (radius * (5 / 10))
                  (radius * (15 / 10)) (draw_range _ _)) as Hl.
    lra.
  - paint_draws. cbn [fst streak_angle].
    pose proof PI_RGT_0 as Hpi.
    pose proof (scaled_draw_range (draw (after 1 (after 1 rng)) 0) 0 (PI * 2)
                  (draw_range _ _)) as Ha.
    lra.
  - paint_draws. cbn [fst streak_alpha].
    apply scaled_draw_range; [apply draw_range | lra].
Qed.

Lemma createRibbonStreak_ranges_witness :
  let streak := fst (createRibbonStreak 200 DEFAULT_SEED) in
  (6 <= streak_width streak <= 14)%Z
  /\ 200 / 2 <= streak_length streak < 3 * 200 / 2
  /\ 0 <= streak_angle streak < 2 * PI
  /\ 5 / 100 <= streak_alpha streak < 1 / 10
  /\ snd (createRibbonStreak 200 DEFAULT_SEED) = after 4 DEFAULT_SEED.
Proof. apply (createRibbonStreak_ranges 200 DEFAULT_SEED). lra. Defined.

Lemma ribbon_streaks_length n radius : forall r,
  length (fst (ribbon_streaks n radius r)) = n.
Proof.
  induction n as [|n IH]; intros r; [reflexivity|].
  cbn [ribbon_streaks]. unfold bind at 1.
  destruct (createRibbonStreak radius r) as [streak r1].
  unfold bind at 1. specialize (IH r1).
  destruct (ribbon_streaks n radius r1) as [rest r2]. cbn [fst] in IH.
  unfold ret. cbn [fst length]. rewrite IH. reflexivity.
Qed.

Lemma createNoiseTexture_length size e :
  length (fst (createNoiseTexture size e)) = (size * size)%nat
  /\ taken (snd (createNoiseTexture size e)) = (taken e + size * size)%nat
  /\ math_random (snd (createNoiseTexture size e)) = math_random e.
Proof.
  unfold createNoiseTexture. cbn [fst snd taken math_random].
  rewrite length_map, length_seq. split; [reflexivity | split; reflexivity].
Qed.

Lemma toUint8Clamp_range v : (0 <= toUint8Clamp v <= 255)%Z.
Proof. unfold toUint8Clamp. lia. Qed.

(** X23.  [createNebulaPatch] places the container at the given
    position and gives it two, three or four streaks; the alpha of the
    nebula sprite lies in [0.03, 0.08) and that of the noise overlay in
    [0.06, 0.1); the generator advances by three numbers plus four per
    streak, and the noise texture takes 64 x 64 values of
    [Math.random]. *)
Theorem createNebulaPatch_shape (px py : Z) (radius : R) (rng : Mulberry32) (e : Entropy) :
  let patch := fst (fst (createNebulaPatch px py radius rng e)) in
  patch_x patch = px /\ patch_y patch = py
  /\ (2 <= length (streaks patch) <= 4)%nat
  /\ 3 / 100 <= nebula_alpha patch < 8 / 100
  /\ 6 / 100 <= noise_alpha patch < 1 / 10
  /\ length (noise_texture patch) = 4096%nat
  /\ snd (fst (createNebulaPatch px py radius rng e))
     = after (3 + 4 * length (streaks patch)) rng
  /\ taken (snd (createNebulaPatch px py radius rng e)) = (taken e + 4096)%nat.
Proof.
  intros patch. subst patch.
  unfold createNebulaPatch. rewrite nextFloat_eq. cbv beta iota zeta.
  destruct (createNoiseTexture_length 64 e) as [Hlen [Htaken _]].
  destruct (createNoiseTexture 64 e) as [tex e']. cbn [fst snd] in Hlen, Htaken.
  rewrite nextFloat_eq. cbv beta iota zeta.
  pose proof (nextInt_range 2 5 (after 1 (after 1 rng)) ltac:(lia)) as Hk.
  destruct (nextInt 2 5 (after 1 (after 1 rng))) as [count r3] eqn:Ec.
  rewrite nextInt_eq in Ec. apply (f_equal snd) in Ec. cbn [snd] in Ec. subst r3.
  cbn [fst] in Hk.
  match goal with
  | |- context [ribbon_streaks ?n ?rad ?st] =>
      pose proof (ribbon_streaks_rng n rad st) as Hs;
      pose proof (ribbon_streaks_length n rad st) as Hn;
      destruct (ribbon_streaks n rad st) as [sts r4]
  end.
  cbn [fst snd] in Hs, Hn. subst r4.
  cbn [fst snd patch_x patch_y streaks nebula_alpha noise_alpha noise_texture].
  rewrite Hn.
  split; [reflexivity|]. split; [reflexivity|]. split; [lia|].
  split; [apply scaled_draw_range; [apply draw_range | lra]|].
  split; [apply scaled_draw_range; [apply draw_range | lra]|].
  split; [exact Hlen|]. split; [|exact Htaken].
  after_norm. cbn [Nat.add]. reflexivity.
Qed.

(** X24.  [createNoiseTexture(app, size)] fills [size * size] pixels,
    each with a grey level from 0 to 255: pixel [i] is the value
    [Math.random() * 255] of the [i]-th call, as the image buffer stores
    it.  It takes exactly [size * size] values of [Math.random]. *)
Theorem createNoiseTexture_pixels (size : nat) (e : Entropy) :
  let texture := fst (createNoiseTexture size e) in
  length texture = (size * size)%nat
  /\ Forall (fun p => (0 <= p <= 255)%Z) texture
  /\ (forall i, (i < size * size)%nat ->
        nth_error texture i = Some (toUint8Clamp (math_random e (taken e + i) * 255)))
  /\ taken (snd (createNoiseTexture size e)) = (taken e + size * size)%nat
  /\ math_random (snd (createNoiseTexture size e)) = math_random e.
Proof.
  intros texture. subst texture.
  destruct (createNoiseTexture_length size e) as [Hlen [Htaken Hsame]].
  split; [exact Hlen|]. split; [|split; [|split; assumption]].
  - unfold createNoiseTexture. cbn [fst]. apply Forall_forall. intros p Hp.
    apply in_map_iff in Hp as [i [<- _]]. apply toUint8Clamp_range.
  - intros i Hi. unfold createNoiseTexture. cbn [fst].
    rewrite nth_error_map, nth_error_nth' with (d := O) by (rewrite length_seq; exact Hi).
    rewrite seq_nth by exact Hi. reflexivity.
Qed.

(** X25.  [getDepthBrightness] on a canvas with positive sides: the
    multiplier of a point of the canvas lies between 0.9 and 1.1; it is
    0.9 at the centre and 1.1 at the corner. *)
Theorem getDepthBrightness_range (x y width height : R) :
  0 < width -> 0 < height ->
  (0 <= x <= width -> 0 <= y <= height ->
   9 / 10 <= getDepthBrightness x y width height <= 11 / 10)
  /\ getDepthBrightness (width / 2) (height / 2) width height = 9 / 10
  /\ getDepthBrightness 0 0 width height = 11 / 10.
Proof.
  intros Hw Hh. unfold getDepthBrightness.
  set (cx := width / 2). set (cy := height / 2).
  assert (Hcx : 0 < cx) by (unfold cx; lra).
  assert (Hcy : 0 < cy) by (unfold cy; lra).
  assert (Hmax : 0 < sqrt (cx * cx + cy * cy)) by (apply sqrt_lt_R0; nra).
  set (mx := sqrt (cx * cx + cy * cy)) in *.
  split; [|split].
  - intros Hx Hy.
    assert (Hd0 : 0 <= sqrt ((x - cx) ^ 2 + (y - cy) ^ 2)) by apply sqrt_pos.
    assert (Hd1 : sqrt ((x - cx) ^ 2 + (y - cy) ^ 2) <= mx).
    { unfold mx. apply sqrt_le_1_alt.
      assert ((x - cx) ^ 2 <= cx * cx).
      { unfold cx in *. nra. }
      assert ((y - cy) ^ 2 <= cy * cy).
      { unfold cy in *. nra. }
      lra. }
    set (d := sqrt ((x - cx) ^ 2 + (y - cy) ^ 2)) in *.
    assert (Hn : 0 <= d / mx <= 1).
    { split.
      - apply Rmult_le_pos; [exact Hd0 | left; apply Rinv_0_lt_compat; exact Hmax].
      - apply Rmult_le_reg_r with mx; [exact Hmax|].
        unfold Rdiv. rewrite Rmult_assoc, Rinv_l by lra. lra. }
    lra.
  - replace ((cx - cx) ^ 2 + (cy - cy) ^ 2) with 0 by ring.
    rewrite sqrt_0. unfold Rdiv. rewrite Rmult_0_l. lra.
  - replace ((0 - cx) ^ 2 + (0 - cy) ^ 2) with (cx * cx + cy * cy) by ring.
    fold mx. unfold Rdiv at 2. rewrite Rinv_r by lra. lra.
Qed.

Lemma getDepthBrightness_range_witness :
  (0 <= 100 <= 800 -> 0 <= 500 <= 600 ->
   9 / 10 <= getDepthBrightness 100 500 800 600 <= 11 / 10)
  /\ getDepthBrightness (800 / 2) (600 / 2) 800 600 = 9 / 10
  /\ getDepthBrightness 0 0 800 600 = 11 / 10.
Proof. apply (getDepthBrightness_range 100 500 800 600); lra. Defined.

End PaintAttributes.

(** ** The layer loops of the generation pass *)

Section LayerLoops.

Import Random Browser Paint SpaceCanvas SamplerSpec.
#[local] Open Scope R_scope.

Lemma for_points_step {C} (body : Poisson.Point -> Rand C) pt points rng :
  for_points body (pt :: points) [] rng
  = (fst (body pt rng) :: fst (for_points body points [] (snd (body pt rng))),
     snd (for_points body points [] (snd (body pt rng)))).
Proof. rewrite for_points_cons, for_points_acc. reflexivity. Qed.

(** What holds of every child a loop body builds holds of the children
    of the loop, point by point. *)
Lemma for_points_children {C} (body : Poisson.Point -> Rand C)
    (P : Poisson.Point -> C -> Prop) :
  (forall pt r, P pt (fst (body pt r))) ->
  forall points rng, Forall2 P points (fst (for_points body points [] rng)).
Proof.
  intros Hbody. induction points as [|pt points IH]; intros rng.
  - constructor.
  - rewrite for_points_step. cbn [fst]. constructor; [apply Hbody | apply IH].
Qed.

(** A loop whose body takes between [lo] and [hi] numbers takes between
    [n * lo] and [n * hi] for [n] points. *)
Lemma for_points_draws {C} (body : Poisson.Point -> Rand C) (lo hi : nat) :
  (forall pt r, exists k, (lo <= k <= hi)%nat /\ snd (body pt r) = after k r) ->
  forall points rng,
    exists K, (length points * lo <= K <= length points * hi)%nat
              /\ snd (for_points body points [] rng) = after K rng.
Proof.
  intros Hbody. induction points as [|pt points IH]; intros rng.
  - exists O. split; [cbn [length]; lia | reflexivity].
  - rewrite for_points_step. cbn [snd].
    destruct (Hbody pt rng) as [k [Hk Ek]]. rewrite Ek.
    destruct (IH (after k rng)) as [K [HK EK]]. rewrite EK.
    exists (k + K)%nat. split; [cbn [length]; lia | apply after_after].
Qed.

Lemma Forall2_map_eq {A B} (f : B -> A) (l : list A) (l' : list B) :
  Forall2 (fun a b => f b = a) l l' -> map f l' = l.
Proof. induction 1 as [|a b l l' E _ IH]; [reflexivity | cbn [map]; rewrite E, IH; reflexivity]. Qed.

Lemma Forall2_Forall_r {A B} (P : B -> Prop) (l : list A) (l' : list B) :
  Forall2 (fun _ b => P b) l l' -> Forall P l'.
Proof. induction 1; constructor; assumption. Qed.

(** The sprite built for one star. *)
Lemma star_sprite_facts (layer : StarLayer) (pt : Poisson.Point) (rng : Mulberry32) :
  let s := fst (star_sprite layer pt rng) in
  (sprite_x s = Poisson.x pt /\ sprite_y s = Poisson.y pt)
  /\ ((scale s = 1 \/ scale s = 2)%Z
      /\ (exists v, tint s = Some v /\ In v SPACE_PALETTE)
      /\ match layer with
         | micro => 75 / 100 <= sprite_alpha s < 1
         | small => 5 / 10 <= sprite_alpha s < 8 / 10
         end)
  /\ (snd (star_sprite layer pt rng) = after 3 rng
      \/ snd (star_sprite layer pt rng) = after 4 rng).
Proof.
  intros s. subst s. unfold star_sprite.
  destruct (generateStarConfig_facts layer SPACE_PALETTE rng) as [Hs [Hc [Ha Hr]]].
  destruct (generateStarConfig layer SPACE_PALETTE rng) as [config r].
  cbn [fst snd sprite_x sprite_y scale tint sprite_alpha] in *.
  rewrite !snap_IZR.
  split; [split; reflexivity|]. split; [|exact Hr].
  split; [exact Hs|]. split; [|exact Ha].
  destruct Hc as [ -> | [ -> | -> ] ]; apply palette_get_In;
    change (length SPACE_PALETTE) with 6%nat; lia.
Qed.

(** The sprites of a star layer stand at the points, in order. *)
Lemma star_layer_positions (layer : StarLayer) (points : list Poisson.Point)
    (rng : Mulberry32) :
  map (fun s => Poisson.mkPoint (sprite_x s) (sprite_y s))
      (fst (for_points (star_sprite layer) points [] rng)) = points.
Proof.
  apply Forall2_map_eq. apply for_points_children. intros [px py] r.
  destruct (star_sprite_facts layer (Poisson.mkPoint px py) r) as [[Ex Ey] _].
  cbn [Poisson.x Poisson.y] in Ex, Ey. rewrite Ex, Ey. reflexivity.
Qed.

(** X26.  The loops over the micro and the small points: the sprites
    stand at the sampled points, one per point and in their order; each
    has scale 1 or 2, a tint from the palette and an alpha in the range
    of its layer; and the loop takes between three and four numbers per
    point from the generator. *)
Theorem star_layer_sprites (layer : StarLayer) (points : list Poisson.Point)
    (rng : Mulberry32) :
  let sprites := fst (for_points (star_sprite layer) points [] rng) in
  map (fun s => Poisson.mkPoint (sprite_x s) (sprite_y s)) sprites = points
  /\ Forall (fun s =>
       (scale s = 1 \/ scale s = 2)%Z
       /\ (exists v, tint s = Some v /\ In v SPACE_PALETTE)
       /\ match layer with
          | micro => 75 / 100 <= sprite_alpha s < 1
          | small => 5 / 10 <= sprite_alpha s < 8 / 10
          end) sprites
  /\ exists K, (3 * length points <= K <= 4 * length points)%nat
               /\ snd (for_points (star_sprite layer) points [] rng) = after K rng.
Proof.
  intros sprites. subst sprites. split; [|split].
  - apply star_layer_positions.
  - apply (Forall2_Forall_r _ points). apply for_points_children. intros pt r.
    exact (proj1 (proj2 (star_sprite_facts layer pt r))).
  - destruct (for_points_draws (star_sprite layer) 3 4) with (points := points) (rng := rng)
      as [K [HK EK]].
    + intros pt r. destruct (star_sprite_facts layer pt r) as [_ [_ [E|E]]].
      * exists 3%nat. split; [lia | exact E].
      * exists 4%nat. split; [lia | exact E].
    + exists K. split; [lia | exact EK].
Qed.

(** The sprite built for one sparkle. *)
Lemma sparkle_sprite_facts (pt : Poisson.Point) (rng : Mulberry32) :
  let s := fst (sparkle_sprite pt rng) in
  (sprite_x s = Poisson.x pt /\ sprite_y s = Poisson.y pt)
  /\ ((3 <= scale s <= 5)%Z
      /\ (exists v, tint s = Some v /\ In v SPACE_PALETTE)
      /\ 2 / 10 <= sprite_alpha s < 35 / 100)
  /\ snd (sparkle_sprite pt rng) = after 3 rng.
Proof.
  intros s. subst s. unfold sparkle_sprite, generateSparkleConfig, bind, ret.
  pose proof (nextInt_range 3 6 rng ltac:(lia)) as Hsz.
  pose proof (nextInt_range 0 (Z.of_nat (length SPACE_PALETTE)) (after 1 rng)
                ltac:(change (length SPACE_PALETTE) with 6%nat; lia)) as Hi.
  rewrite nextInt_eq in Hsz, Hi. cbn [fst] in Hsz, Hi.
  rewrite !nextInt_eq. cbv beta iota. rewrite nextFloat_eq. cbv beta iota.
  cbn [fst snd sprite_x sprite_y scale tint sprite_alpha
       sparkle_size sparkle_color sparkle_alpha].
  rewrite !snap_IZR.
  split; [split; reflexivity|]. split; [|after_norm; reflexivity].
  split; [lia|]. split; [apply palette_get_In; exact Hi|].
  apply scaled_draw_range; [apply draw_range | lra].
Qed.

(** X27.  The loop over the sparkle points builds one sprite per point,
    at the point and in the order of the points, with scale 3, 4 or 5, a
    tint from the palette and an alpha in [0.2, 0.35), and takes exactly
    three numbers per point from the generator. *)
Theorem sparkle_loop_sprites (points : list Poisson.Point) (rng : Mulberry32) :
  let sprites := fst (for_points sparkle_sprite points [] rng) in
  map (fun s => Poisson.mkPoint (sprite_x s) (sprite_y s)) sprites = points
  /\ Forall (fun s =>
       (3 <= scale s <= 5)%Z
       /\ (exists v, tint s = Some v /\ In v SPACE_PALETTE)
       /\ 2 / 10 <= sprite_alpha s < 35 / 100) sprites
  /\ snd (for_points sparkle_sprite points [] rng) = after (3 * length points) rng.
Proof.
  intros sprites. subst sprites. split; [|split].
  - apply Forall2_map_eq. apply for_points_children. intros [px py] r.
    destruct (sparkle_sprite_facts (Poisson.mkPoint px py) r) as [[Ex Ey] _].
    cbn [Poisson.x Poisson.y] in Ex, Ey. rewrite Ex, Ey. reflexivity.
  - apply (Forall2_Forall_r _ points). apply for_points_children. intros pt r.
    exact (proj1 (proj2 (sparkle_sprite_facts pt r))).
  - destruct (for_points_draws sparkle_sprite 3 3) with (points := points) (rng := rng)
      as [K [HK EK]].
    + intros pt r. exists 3%nat. split; [lia|].
      exact (proj2 (proj2 (sparkle_sprite_facts pt r))).
    + replace (3 * length points)%nat with K by lia. exact EK.
Qed.

(** One nebula patch: where it is placed and what it takes from
    [Math.random]. *)
Lemma nebula_patch_place (W H : R) (pt : Poisson.Point) (rng : Mulberry32) (e : Entropy) :
  patch_x (fst (fst (nebula_patch W H pt rng e))) = Poisson.x pt
  /\ patch_y (fst (fst (nebula_patch W H pt rng e))) = Poisson.y pt
  /\ taken (snd (nebula_patch W H pt rng e)) = (taken e + 4096)%nat.
Proof.
  unfold nebula_patch. destruct (nextFloat (28 / 100) (35 / 100) rng) as [u r1].
  unfold createNebulaPatch.
  destruct (nextFloat (3 / 100) (8 / 100) r1) as [na r2].
  destruct (createNoiseTexture_length 64 e) as [_ [Htaken _]].
  destruct (createNoiseTexture 64 e) as [t1 e1]. cbn [snd] in Htaken.
  destruct (nextFloat (6 / 100) (1 / 10) r2) as [noa r3].
  destruct (nextInt 2 5 r3) as [count r4].
  destruct (ribbon_streaks (Z.to_nat count) (u * Js.min W H) r4) as [st r5].
  cbn [fst snd patch_x patch_y]. rewrite !snap_IZR.
  split; [reflexivity | split; [reflexivity | exact Htaken]].
Qed.

Lemma for_nebula_points_step W H pt points children rng e :
  for_nebula_points W H (pt :: points) children rng e
  = for_nebula_points W H points
      (children ++ [Patch (fst (fst (nebula_patch W H pt rng e)))])
      (snd (fst (nebula_patch W H pt rng e))) (snd (nebula_patch W H pt rng e)).
Proof.
  unfold for_nebula_points. cbn [fold_left].
  destruct (nebula_patch W H pt rng e) as [[patch r] e']. reflexivity.
Qed.

(** The nebula loop appends one patch per point, at the point and in
    order, to the children already there. *)
Lemma for_nebula_points_spec W H points : forall children rng e,
  exists patches K,
    fst (fst (for_nebula_points W H points children rng e)) = children ++ map Patch patches
    /\ map (fun p => Poisson.mkPoint (patch_x p) (patch_y p)) patches = points
    /\ (12 * length points <= K <= 20 * length points)%nat
    /\ snd (fst (for_nebula_points W H points children rng e)) = after K rng
    /\ taken (snd (for_nebula_points W H points children rng e))
       = (taken e + 4096 * length points)%nat.
Proof.
  induction points as [|pt points IH]; intros children rng e.
  - exists [], O. cbn [map length]. rewrite app_nil_r.
    split; [reflexivity|]. split; [reflexivity|]. split; [lia|].
    split; [reflexivity | cbn; lia].
  - rewrite for_nebula_points_step.
    destruct (nebula_patch_place W H pt rng e) as [Ex [Ey Et]].
    destruct (nebula_patch_rng W H pt rng e) as [k [Hk Er]].
    destruct (nebula_patch W H pt rng e) as [[patch r1] e1]. cbn [fst snd] in *.
    destruct (IH (children ++ [Patch patch]) r1 e1) as [patches [K [Ec [Ep [HK [EK ET]]]]]].
    exists (patch :: patches), ((4 + 4 * k) + K)%nat.
    split; [rewrite Ec, <- app_assoc; reflexivity|].
    split; [cbn [map]; rewrite Ex, Ey, Ep; destruct pt; reflexivity|].
    split; [cbn [length]; lia|].
    split; [rewrite EK, Er; apply after_after|].
    rewrite ET, Et. cbn [length]. lia.
Qed.

(** X28.  The loop over the nebula points adds one patch per point, at
    the point and in the order of the points; it takes between 12 and 20
    numbers per point from the generator, and 64 x 64 values of
    [Math.random] per point for the noise textures. *)
Theorem nebula_layer_patches (W H : R) (points : list Poisson.Point)
    (rng : Mulberry32) (e : Entropy) :
  let out := for_nebula_points W H points [] rng e in
  exists patches,
    fst (fst out) = map Patch patches
    /\ map (fun p => Poisson.mkPoint (patch_x p) (patch_y p)) patches = points
    /\ (exists K, (12 * length points <= K <= 20 * length points)%nat
                  /\ snd (fst out) = after K rng)
    /\ taken (snd out) = (taken e + 4096 * length points)%nat
    /\ math_random (snd out) = math_random e.
Proof.
  intros out. subst out.
  destruct (for_nebula_points_spec W H points [] rng e) as [patches [K [Ec [Ep [HK [EK ET]]]]]].
  exists patches. split; [exact Ec|]. split; [exact Ep|].
  split; [exists K; split; assumption|]. split; [exact ET|].
  clear. revert rng e. generalize (@nil (NebulaChild Texture)).
  induction points as [|pt points IH]; intros children rng e; [reflexivity|].
  rewrite for_nebula_points_step, IH.
  unfold nebula_patch. destruct (nextFloat (28 / 100) (35 / 100) rng) as [u r1].
  unfold createNebulaPatch.
  destruct (nextFloat (3 / 100) (8 / 100) r1) as [na r2].
  destruct (createNoiseTexture_length 64 e) as [_ [_ Hsame]].
  destruct (createNoiseTexture 64 e) as [t1 e1]. cbn [snd] in Hsame.
  destruct (nextFloat (6 / 100) (1 / 10) r2) as [noa r3].
  destruct (nextInt 2 5 r3) as [count r4].
  destruct (ribbon_streaks (Z.to_nat count) (u * Js.min W H) r4) as [st r5].
  cbn [snd]. exact Hsame.
Qed.

End LayerLoops.

(** ** The generation pass on an integer canvas *)

Section IntegerCanvasPass.

Import Random Browser Paint SpaceCanvas SamplerSpec.
#[local] Open Scope R_scope.

(** Spacing of the points is spacing of the children placed at them. *)
Lemma spacing_transfer {C} (pos : C -> Poisson.Point) (m : Z) (children : list C) :
  (0 <= m)%Z ->
  ForallOrdPairs (fun p q => IZR m <= Poisson.distance p q) (map pos children) ->
  ForallOrdPairs
    (fun s t => (m * m <= (Poisson.x (pos s) - Poisson.x (pos t)) ^ 2
                          + (Poisson.y (pos s) - Poisson.y (pos t)) ^ 2)%Z) children.
Proof.
  intros Hm. induction children as [|c children IH]; intros Hfop; [constructor|].
  cbn [map] in Hfop. inversion Hfop as [|a l Ha Hl]; subst.
  constructor; [|apply IH; exact Hl].
  rewrite Forall_map in Ha. eapply Forall_impl; [|exact Ha].
  intros t Ht. apply distance_sq_Z; assumption.
Qed.

(** [regenerate] when none of the four samplers throws. *)
Lemma regenerate_ok fuel seed W H w p1 r1 p2 r2 p3 r3 p4 r4 :
  Poisson.sample fuel (micro_config W H) (createRandom seed) = Some (Js.Ok p1, r1) ->
  Poisson.sample fuel (small_config W H) (snd (for_points (star_sprite micro) p1 [] r1))
  = Some (Js.Ok p2, r2) ->
  Poisson.sample fuel (sparkle_config W H) (snd (for_points (star_sprite small) p2 [] r2))
  = Some (Js.Ok p3, r3) ->
  Poisson.sample fuel (nebula_config W H) (snd (for_points sparkle_sprite p3 [] r3))
  = Some (Js.Ok p4, r4) ->
  let tex := fst (createNoiseTexture 64 (entropy w)) in
  let patches := for_nebula_points W H p4 [] r4 (snd (createNoiseTexture 64 (entropy w))) in
  regenerate fuel seed W H w
  = Some (mkWorld
            (mkLayers (fst (fst patches) ++ [NoiseOverlay tex W H (7 / 100)])
                      []
                      (fst (for_points (star_sprite small) p2 [] r2))
                      (fst (for_points (star_sprite micro) p1 [] r1)))
            (snd patches),
          None).
Proof.
  intros E1 E2 E3 E4 tex patches. subst tex patches.
  unfold regenerate, Poisson.generatePoissonPoints.
  destruct (createNoiseTexture 64 (entropy w)) as [tex e]. cbn [fst snd].
  rewrite E1. destruct (for_points (star_sprite micro) p1 [] r1) as [mc r1'].
  cbn [fst snd] in *. rewrite E2.
  destruct (for_points (star_sprite small) p2 [] r2) as [sc r2'].
  cbn [fst snd] in *. rewrite E3.
  destruct (for_points sparkle_sprite p3 [] r3) as [sp r3'].
  cbn [fst snd] in *. rewrite E4.
  destruct (for_nebula_points W H p4 [] r4 e) as [[nc r5] e5]. reflexivity.
Qed.

(** On a canvas with integer sides from 1 to 65536 the four samplers
    return lists, and the pass ends normally with the layers built from
    them. *)
Lemma regenerate_integer_run (seed W H : Z) :
  (0 < W <= 65536)%Z -> (0 < H <= 65536)%Z ->
  exists fuel0 p1 r1 p2 r2 p4 r4,
    (Forall (fun q => (0 <= Poisson.x q <= W)%Z /\ (0 <= Poisson.y q <= H)%Z) p1
     /\ ForallOrdPairs (fun p q => IZR 8 <= Poisson.distance p q) p1)
    /\ (Forall (fun q => (0 <= Poisson.x q <= W)%Z /\ (0 <= Poisson.y q <= H)%Z) p2
        /\ ForallOrdPairs (fun p q => IZR 12 <= Poisson.distance p q) p2)
    /\ (Forall (fun q => (0 <= Poisson.x q <= W)%Z /\ (0 <= Poisson.y q <= H)%Z) p4
        /\ ForallOrdPairs (fun p q => IZR 80 <= Poisson.distance p q) p4)
    /\ forall fuel w, (fuel0 <= fuel)%nat ->
         regenerate fuel seed (IZR W) (IZR H) w
         = Some (mkWorld
                   (mkLayers
                      (fst (fst (for_nebula_points (IZR W) (IZR H) p4 [] r4
                                   (snd (createNoiseTexture 64 (entropy w)))))
                       ++ [NoiseOverlay (fst (createNoiseTexture 64 (entropy w)))
                                        (IZR W) (IZR H) (7 / 100)])
                      []
                      (fst (for_points (star_sprite small) p2 [] r2))
                      (fst (for_points (star_sprite micro) p1 [] r1)))
                   (snd (for_nebula_points (IZR W) (IZR H) p4 [] r4
                           (snd (createNoiseTexture 64 (entropy w))))),
                 None).
Proof.
  intros [HW HW1] [HH HH1].
  assert (Hsound : forall (m : Z) cb rng0, (0 < m)%Z ->
            exists fuel0 l r,
              (forall fuel, (fuel0 <= fuel)%nat ->
                 Poisson.sample fuel (Poisson.mkConfig (IZR W) (IZR H) (IZR m) None cb) rng0
                 = Some (Js.Ok l, r))
              /\ Forall (fun q => (0 <= Poisson.x q <= W)%Z /\ (0 <= Poisson.y q <= H)%Z) l
              /\ ForallOrdPairs (fun p q => IZR m <= Poisson.distance p q) l).
  { intros m cb rng0 Hm.
    pose proof (grid_dim_le W m HW Hm) as Hgw. pose proof (grid_dim_le H m HH Hm) as Hgh.
    destruct (integer_config_sound W H m None cb rng0 HW HH Hm ltac:(lia) ltac:(lia))
      as [fuel0 [l [r [Hrun [Htl Hsep]]]]].
    exists fuel0, l, r. split; [exact Hrun|]. split; [|exact Hsep].
    assert (HmR : 0 < IZR m) by (apply IZR_lt; exact Hm).
    destruct (sample_result_inv (IZR m) (IZR W) (IZR H) HmR None cb rng0 fuel0 l r
                (Hrun fuel0 (Nat.le_refl fuel0))) as [ext [s [El _]]].
    rewrite El in Htl |- *. cbn [tl] in Htl. constructor.
    - apply (first_point_closed_range W H _ rng0 HW HH).
    - apply Forall_forall. intros q Hq. specialize (Htl q Hq). lia. }
  destruct (Hsound 8%Z (Some (5 / 10)) (createRandom seed)) as [f1 [p1 [r1 [E1 S1]]]]; [lia|].
  destruct (Hsound 12%Z (Some (5 / 10)) (snd (for_points (star_sprite micro) p1 [] r1)))
    as [f2 [p2 [r2 [E2 S2]]]]; [lia|].
  destruct (Hsound 20%Z (Some (3 / 10)) (snd (for_points (star_sprite small) p2 [] r2)))
    as [f3 [p3 [r3 [E3 _]]]]; [lia|].
  destruct (Hsound 80%Z (Some (2 / 10)) (snd (for_points sparkle_sprite p3 [] r3)))
    as [f4 [p4 [r4 [E4 S4]]]]; [lia|].
  exists (f1 + f2 + f3 + f4)%nat, p1, r1, p2, r2, p4, r4.
  split; [exact S1|]. split; [exact S2|]. split; [exact S4|].
  intros fuel w Hfuel.
  apply (regenerate_ok fuel seed (IZR W) (IZR H) w p1 r1 p2 r2 p3 r3 p4 r4).
  - apply E1. lia.
  - apply E2. lia.
  - apply E3. lia.
  - apply E4. lia.
Qed.

(** X29.  On a canvas with integer width and height from 1 to 65536 the
    generation pass always ends normally, for every seed: no sampler
    throws.  It leaves the sparkle layer empty, whatever it held before;
    the nebula layer holds the patches followed by the noise overlay of
    the size of the canvas with alpha 0.07; every star sprite stands at
    integer coordinates between 0 and the width and between 0 and the
    height; and the pass takes 64 x 64 values of [Math.random] for the
    overlay and for every patch. *)
Theorem regenerate_integer_canvas (seed W H : Z) :
  (0 < W <= 65536)%Z -> (0 < H <= 65536)%Z ->
  exists fuel0, forall fuel w, (fuel0 <= fuel)%nat ->
    exists w',
      regenerate fuel seed (IZR W) (IZR H) w = Some (w', None)
      /\ sparkle (layers w') = []
      /\ (exists patches,
            nebula (layers w')
            = map Patch patches
              ++ [NoiseOverlay (fst (createNoiseTexture 64 (entropy w)))
                               (IZR W) (IZR H) (7 / 100)]
            /\ taken (entropy w') = (taken (entropy w) + 4096 * S (length patches))%nat)
      /\ Forall (fun s => (0 <= sprite_x s <= W)%Z /\ (0 <= sprite_y s <= H)%Z)
                (micro_stars (layers w') ++ small_stars (layers w')).
Proof.
  intros HW HH.
  destruct (regenerate_integer_run seed W H HW HH)
    as [fuel0 [p1 [r1 [p2 [r2 [p4 [r4 [[B1 _] [[B2 _] [_ Hrun]]]]]]]]]].
  exists fuel0. intros fuel w Hfuel. eexists. split; [apply Hrun; exact Hfuel|].
  cbn [layers entropy sparkle nebula micro_stars small_stars].
  split; [reflexivity|]. split.
  - destruct (for_nebula_points_spec (IZR W) (IZR H) p4 [] r4
                (snd (createNoiseTexture 64 (entropy w))))
      as [patches [K [Ec [Ep [_ [_ ET]]]]]].
    exists patches. split; [rewrite Ec; reflexivity|].
    rewrite ET. destruct (createNoiseTexture_length 64 (entropy w)) as [_ [Et _]].
    rewrite Et. rewrite <- Ep, length_map. lia.
  - assert (Hin : forall layer pts r,
              Forall (fun q => (0 <= Poisson.x q <= W)%Z /\ (0 <= Poisson.y q <= H)%Z) pts ->
              Forall (fun s => (0 <= sprite_x s <= W)%Z /\ (0 <= sprite_y s <= H)%Z)
                     (fst (for_points (star_sprite layer) pts [] r))).
    { intros layer pts r Hpts.
      rewrite <- (star_layer_positions layer pts r) in Hpts.
      rewrite Forall_map in Hpts. exact Hpts. }
    apply Forall_app. split; apply Hin; assumption.
Qed.

Lemma regenerate_integer_canvas_witness :
  exists fuel0, forall fuel w, (fuel0 <= fuel)%nat ->
    exists w',
      regenerate fuel DEFAULT_SEED 800 600 w = Some (w', None)
      /\ sparkle (layers w') = []
      /\ (exists patches,
            nebula (layers w')
            = map Patch patches
              ++ [NoiseOverlay (fst (createNoiseTexture 64 (entropy w))) 800 600 (7 / 100)]
            /\ taken (entropy w') = (taken (entropy w) + 4096 * S (length patches))%nat)
      /\ Forall (fun s => (0 <= sprite_x s <= 800)%Z /\ (0 <= sprite_y s <= 600)%Z)
                (micro_stars (layers w') ++ small_stars (layers w')).
Proof. apply (regenerate_integer_canvas DEFAULT_SEED 800 600); lia. Defined.

(** X30.  On a canvas with integer width and height from 1 to 65536 the
    scene keeps its spacing: any two sprites of the micro layer are at least 8
    apart, any two of the small layer at least 12, and any two nebula
    patches at least 80. *)
Theorem regenerate_spacing (seed W H : Z) :
  (0 < W <= 65536)%Z -> (0 < H <= 65536)%Z ->
  exists fuel0, forall fuel w, (fuel0 <= fuel)%nat ->
    exists w' patches overlay,
      regenerate fuel seed (IZR W) (IZR H) w = Some (w', None)
      /\ ForallOrdPairs
           (fun s t => (8 * 8 <= (sprite_x s - sprite_x t) ^ 2 + (sprite_y s - sprite_y t) ^ 2)%Z)
           (micro_stars (layers w'))
      /\ ForallOrdPairs
           (fun s t => (12 * 12 <= (sprite_x s - sprite_x t) ^ 2
                                   + (sprite_y s - sprite_y t) ^ 2)%Z)
           (small_stars (layers w'))
      /\ nebula (layers w') = map Patch patches ++ [overlay]
      /\ ForallOrdPairs
           (fun s t => (80 * 80 <= (patch_x s - patch_x t) ^ 2 + (patch_y s - patch_y t) ^ 2)%Z)
           patches.
Proof.
  intros HW HH.
  destruct (regenerate_integer_run seed W H HW HH)
    as [fuel0 [p1 [r1 [p2 [r2 [p4 [r4 [[_ S1] [[_ S2] [[_ S4] Hrun]]]]]]]]]].
  exists fuel0. intros fuel w Hfuel.
  destruct (for_nebula_points_spec (IZR W) (IZR H) p4 [] r4
              (snd (createNoiseTexture 64 (entropy w))))
    as [patches [K [Ec [Ep _]]]].
  eexists. exists patches. eexists. split; [apply Hrun; exact Hfuel|].
  cbn [layers nebula micro_stars small_stars].
  split; [|split; [|split]].
  - apply (spacing_transfer (fun s => Poisson.mkPoint (sprite_x s) (sprite_y s)) 8);
      [lia|]. rewrite star_layer_positions. exact S1.
  - apply (spacing_transfer (fun s => Poisson.mkPoint (sprite_x s) (sprite_y s)) 12);
      [lia|]. rewrite star_layer_positions. exact S2.
  - rewrite Ec. reflexivity.
  - apply (spacing_transfer (fun p => Poisson.mkPoint (patch_x p) (patch_y p)) 80);
      [lia|]. rewrite Ep. exact S4.
Qed.

Lemma regenerate_spacing_witness :
  exists fuel0, forall fuel w, (fuel0 <= fuel)%nat ->
    exists w' patches overlay,
      regenerate fuel DEFAULT_SEED 800 600 w = Some (w', None)
      /\ ForallOrdPairs
           (fun s t => (8 * 8 <= (sprite_x s - sprite_x t) ^ 2 + (sprite_y s - sprite_y t) ^ 2)%Z)
           (micro_stars (layers w'))
      /\ ForallOrdPairs
           (fun s t => (12 * 12 <= (sprite_x s - sprite_x t) ^ 2
                                   + (sprite_y s - sprite_y t) ^ 2)%Z)
           (small_stars (layers w'))
      /\ nebula (layers w') = map Patch patches ++ [overlay]
      /\ ForallOrdPairs
           (fun s t => (80 * 80 <= (patch_x s - patch_x t) ^ 2 + (patch_y s - patch_y t) ^ 2)%Z)
           patches.
Proof. apply (regenerate_spacing DEFAULT_SEED 800 600); lia. Defined.

End IntegerCanvasPass.
